(** * Resilience layer of the Shopify/Biller integration: a shallow embedding

    The JavaScript classes [WebhookDedupeStore], [CircuitBreakerV2],
    [BillerSearchCache], [ErrorStore], [ReconciliationService] and
    [ComprobanteStore] are embedded as pure state-passing functions.  Every
    method that reads [Date.now()] receives the clock reading as an
    explicit argument [now];
    a method is synchronous, so one reading per call is used.  Counters and
    millisecond timestamps are integers ([Z]); the one computation that
    leaves the integers, the success rate of a reconciliation report, is
    carried out in IEEE 754 binary64 as specified by [SpecFloat].  Logging
    and event emission have no effect on the modelled state and are left
    out.

    The definitions come first, one module per component; the properties
    follow, in modules of the same names suffixed with [Proofs], and
    further properties of each component in the modules suffixed with
    [Behaviour]. *)

From Stdlib Require Import ZArith List String Ascii Bool Lia Sorted SpecFloat.
From Stdlib Require Import Reals Lra.
From stdpp Require Import base gmap strings list.

Local Open Scope Z_scope.

(** ** The deduplication gate ([WebhookDedupeStore]) *)

Module Dedupe.

(** [this.processed] is a [Map] from key to completion time,
    [this.inProgress] a [Set] of keys. *)
Record store := mkStore {
  processed : gmap string Z;
  inProgress : gset string;
  windowMs : Z
}.

(** [constructor(windowMs = 5 * 60 * 1000)] *)
Definition default_windowMs : Z := 5 * 60 * 1000.

Definition new (w : option Z) : store :=
  {| processed := ∅; inProgress := ∅;
     windowMs := match w with Some x => x | None => default_windowMs end |}.

(** [`${topic}:${resourceId}`] *)
Definition mkKey (topic resourceId : string) : string :=
  topic +:+ ":" +:+ resourceId.

Definition tryAcquire (s : store) (topic resourceId : string) : bool * store :=
  let key := mkKey topic resourceId in
  if bool_decide (key ∈ inProgress s) then (false, s)
  else if bool_decide (is_Some (processed s !! key)) then (false, s)
  else (true, {| processed := processed s;
                 inProgress := {[ key ]} ∪ inProgress s;
                 windowMs := windowMs s |}).

Definition complete (s : store) (now : Z) (topic resourceId : string) : store :=
  let key := mkKey topic resourceId in
  {| processed := <[ key := now ]> (processed s);
     inProgress := inProgress s ∖ {[ key ]};
     windowMs := windowMs s |}.

Definition release (s : store) (topic resourceId : string) : store :=
  let key := mkKey topic resourceId in
  {| processed := processed s;
     inProgress := inProgress s ∖ {[ key ]};
     windowMs := windowMs s |}.

(** [cleanup] deletes every entry with [timestamp < cutoff]. *)
Definition cleanup (s : store) (now : Z) : store :=
  let cutoff := now - windowMs s in
  {| processed := filter (λ kv : string * Z, ¬ (kv.2 < cutoff)) (processed s);
     inProgress := inProgress s;
     windowMs := windowMs s |}.

(** Calls made on the store by its clients and by its interval timer. *)
Inductive op :=
| TryAcquire (topic resourceId : string)
| Complete (topic resourceId : string)
| Release (topic resourceId : string)
| Cleanup.

(** An event is a call together with the clock reading when it runs. *)
Definition event : Type := Z * op.

Definition step (s : store) (e : event) : store :=
  match e.2 with
  | TryAcquire t r => (tryAcquire s t r).2
  | Complete t r => complete s e.1 t r
  | Release t r => release s t r
  | Cleanup => cleanup s e.1
  end.

Definition run (s : store) (tr : list event) : store := fold_left step tr s.

(** The call frees the in-flight slot of key [k]. *)
Definition frees (k : string) (o : op) : bool :=
  match o with
  | Complete t r | Release t r => bool_decide (mkKey t r = k)
  | _ => false
  end.

Definition reachable (s : store) : Prop :=
  ∃ w tr, s = run (new w) tr.

(** The spec's reading of "completed within the dedup window" at time
    [now]: a completion stamp exists and is at most [windowMs] old. *)
Definition completedWithinWindow (s : store) (now : Z) (k : string) : bool :=
  match processed s !! k with
  | Some ts => bool_decide (now - ts ≤ windowMs s)
  | None => false
  end.

(** A key is blocked when it is in flight or holds a completion record. *)
Definition blocked (s : store) (k : string) : Prop :=
  k ∈ inProgress s ∨ is_Some (processed s !! k).

(** In-flight keys carry no completion record. *)
Definition exclusive (s : store) : Prop :=
  ∀ k, k ∈ inProgress s → processed s !! k = None.

(** Every event of the trace happens in the interval [[lo, hi]]. *)
Definition within (lo hi : Z) (tr : list event) : Prop :=
  Forall (λ e : event, lo ≤ fst e ≤ hi) tr.

(** A scenario: window of 5 minutes, the timer sweeping every minute,
    one webhook admitted at 5 s and completed at 10 s. *)
Definition late_trace : list event :=
  [(5000, TryAcquire "orders/paid" "42");
   (10000, Complete "orders/paid" "42");
   (60000, Cleanup); (120000, Cleanup); (180000, Cleanup);
   (240000, Cleanup); (300000, Cleanup)].

(** The call names the key [k]. *)
Definition concerns (k : string) (o : op) : bool :=
  match o with
  | TryAcquire t r | Complete t r | Release t r => bool_decide (mkKey t r = k)
  | Cleanup => false
  end.

End Dedupe.

(** ** JavaScript helpers shared by the components *)

Module Js.

(** [haystack.includes(needle)] *)
Fixpoint includes (needle haystack : string) : bool :=
  String.prefix needle haystack ||
  match haystack with
  | EmptyString => false
  | String _ rest => includes needle rest
  end.

(** [arr.slice(start, end)], negative indices counting from the end. *)
Definition slice {A} (l : list A) (start stop : Z) : list A :=
  let len := Z.of_nat (List.length l) in
  let k := if start <? 0 then Z.max (len + start) 0 else Z.min start len in
  let final := if stop <? 0 then Z.max (len + stop) 0 else Z.min stop len in
  firstn (Z.to_nat (Z.max (final - k) 0)) (skipn (Z.to_nat k) l).

(** [x || d] for a numeric option [x] ([undefined], [null] and [0] are
    falsy). *)
Definition num_or (x : option Z) (d : Z) : Z :=
  match x with
  | Some v => if v =? 0 then d else v
  | None => d
  end.

(** A [Map] with string keys, as the list of its entries in insertion
    order; keys are unique. *)
Section JsMap.
Context {V : Type}.

Fixpoint map_get (m : list (string * V)) (k : string) : option V :=
  match m with
  | [] => None
  | (k', v) :: rest => if String.eqb k' k then Some v else map_get rest k
  end.

Definition map_has (m : list (string * V)) (k : string) : bool :=
  match map_get m k with Some _ => true | None => false end.

(** [m.set(k, v)] keeps the position of an existing key and appends a
    new one. *)
Fixpoint map_set (m : list (string * V)) (k : string) (v : V) : list (string * V) :=
  match m with
  | [] => [(k, v)]
  | (k', v') :: rest =>
      if String.eqb k' k then (k', v) :: rest else (k', v') :: map_set rest k v
  end.

(** [m.delete(k)] *)
Definition map_delete (m : list (string * V)) (k : string) : list (string * V) :=
  List.filter (λ kv, negb (String.eqb (fst kv) k)) m.

Definition map_size (m : list (string * V)) : Z := Z.of_nat (List.length m).

Definition map_keys (m : list (string * V)) : list string := List.map fst m.
End JsMap.

End Js.

(** ** The circuit breaker ([CircuitBreakerV2]) *)

Module CircuitBreaker.

Inductive STATE := CLOSED | OPEN | HALF_OPEN.

(** The fields of a thrown error that the breaker inspects. *)
Record JsError := mkError {
  err_code : option string;
  err_message : option string
}.

(** An element of [metrics.callsInWindow]. *)
Record CallRecord := mkCall {
  timestamp : Z;
  success : bool;
  latency : Z;
  error : option string
}.

Record Metrics := mkMetrics {
  totalCalls : Z;
  successfulCalls : Z;
  failedCalls : Z;
  rejectedCalls : Z;
  timeouts : Z;
  latencies : list Z;
  callsInWindow : list CallRecord
}.

Record Breaker := mkBreaker {
  name : string;
  failureThreshold : Z;
  successThreshold : Z;
  timeout : Z;
  volumeThreshold : Z;
  windowDuration : Z;
  isFailure : JsError → bool;
  state : STATE;
  failures : Z;
  successes : Z;
  consecutiveSuccesses : Z;
  nextAttemptTime : option Z;
  lastFailureTime : option Z;
  lastSuccessTime : option Z;
  metrics : Metrics
}.

(** The [options] object of the constructor. *)
Record Options := mkOptions {
  opt_name : option string;
  opt_failureThreshold : option Z;
  opt_successThreshold : option Z;
  opt_timeout : option Z;
  opt_volumeThreshold : option Z;
  opt_windowDuration : option Z;
  opt_isFailure : option (JsError → bool)
}.

Definition no_options : Options := mkOptions None None None None None None None.

Definition new (o : Options) : Breaker :=
  {| name := match opt_name o with
             | Some n => if String.eqb n "" then "default" else n
             | None => "default"
             end;
     failureThreshold := Js.num_or (opt_failureThreshold o) 5;
     successThreshold := Js.num_or (opt_successThreshold o) 2;
     timeout := Js.num_or (opt_timeout o) 30000;
     volumeThreshold := Js.num_or (opt_volumeThreshold o) 5;
     windowDuration := Js.num_or (opt_windowDuration o) 60000;
     isFailure := match opt_isFailure o with Some f => f | None => λ _, true end;
     state := CLOSED;
     failures := 0;
     successes := 0;
     consecutiveSuccesses := 0;
     nextAttemptTime := None;
     lastFailureTime := None;
     lastSuccessTime := None;
     metrics := mkMetrics 0 0 0 0 0 [] [] |}.

Definition STATE_eqb (a b : STATE) : bool :=
  match a, b with
  | CLOSED, CLOSED | OPEN, OPEN | HALF_OPEN, HALF_OPEN => true
  | _, _ => false
  end.

Definition set_metrics (b : Breaker) (m : Metrics) : Breaker :=
  mkBreaker (name b) (failureThreshold b) (successThreshold b) (timeout b)
    (volumeThreshold b) (windowDuration b) (isFailure b) (state b) (failures b)
    (successes b) (consecutiveSuccesses b) (nextAttemptTime b)
    (lastFailureTime b) (lastSuccessTime b) m.

(** [arr.slice(-100)] *)
Definition last100 (l : list Z) : list Z := Js.slice l (-100) (Z.of_nat (List.length l)).

Definition _cleanupMetrics (b : Breaker) (now : Z) : Breaker :=
  let cutoff := now - windowDuration b in
  let m := metrics b in
  let calls := List.filter (λ c, cutoff <? timestamp c) (callsInWindow m) in
  let lats := if 100 <? Z.of_nat (List.length (latencies m))
              then last100 (latencies m) else latencies m in
  set_metrics b (mkMetrics (totalCalls m) (successfulCalls m) (failedCalls m)
                   (rejectedCalls m) (timeouts m) lats calls).

Definition _transitionTo (b : Breaker) (now : Z) (newState : STATE) : Breaker :=
  mkBreaker (name b) (failureThreshold b) (successThreshold b) (timeout b)
    (volumeThreshold b) (windowDuration b) (isFailure b)
    newState
    (match newState with CLOSED => 0 | _ => failures b end)
    (successes b)
    (match newState with OPEN => consecutiveSuccesses b | _ => 0 end)
    (match newState with OPEN => Some (now + timeout b) | _ => nextAttemptTime b end)
    (lastFailureTime b) (lastSuccessTime b) (metrics b).

(** [Date.now() >= this.nextAttemptTime]; [null] compares as [0]. *)
Definition attempt_due (b : Breaker) (now : Z) : bool :=
  match nextAttemptTime b with
  | Some t => t <=? now
  | None => 0 <=? now
  end.

Definition canExecute (b : Breaker) (now : Z) : bool * Breaker :=
  match state b with
  | CLOSED => (true, b)
  | OPEN => if attempt_due b now then (true, _transitionTo b now HALF_OPEN)
            else (false, b)
  | HALF_OPEN => (true, b)
  end.

Definition _shouldOpen (b : Breaker) (now : Z) : bool * Breaker :=
  let b1 := _cleanupMetrics b now in
  let callsInWindow := Z.of_nat (List.length (callsInWindow (metrics b1))) in
  if callsInWindow <? volumeThreshold b1 then (false, b1)
  else (failureThreshold b1 <=? failures b1, b1).

Definition recordSuccess (b : Breaker) (now : Z) (lat : Z) : Breaker :=
  let m := metrics b in
  let m1 := mkMetrics (totalCalls m + 1) (successfulCalls m + 1) (failedCalls m)
              (rejectedCalls m) (timeouts m) (latencies m ++ [lat])
              (callsInWindow m ++ [mkCall now true lat None]) in
  let b1 := mkBreaker (name b) (failureThreshold b) (successThreshold b) (timeout b)
              (volumeThreshold b) (windowDuration b) (isFailure b) (state b)
              (failures b) (successes b + 1) (consecutiveSuccesses b + 1)
              (nextAttemptTime b) (lastFailureTime b) (Some now) m1 in
  match state b1 with
  | HALF_OPEN =>
      if successThreshold b1 <=? consecutiveSuccesses b1
      then _transitionTo b1 now CLOSED else b1
  | CLOSED =>
      mkBreaker (name b1) (failureThreshold b1) (successThreshold b1) (timeout b1)
        (volumeThreshold b1) (windowDuration b1) (isFailure b1) (state b1)
        0 (successes b1) (consecutiveSuccesses b1)
        (nextAttemptTime b1) (lastFailureTime b1) (lastSuccessTime b1) (metrics b1)
  | OPEN => b1
  end.

(** [error && (error.code === 'ETIMEDOUT' || error.message?.includes('timeout'))] *)
Definition is_timeout (e : option JsError) : bool :=
  match e with
  | None => false
  | Some e =>
      match err_code e with Some c => String.eqb c "ETIMEDOUT" | None => false end
      || match err_message e with Some m => Js.includes "timeout" m | None => false end
  end.

Definition recordFailure (b : Breaker) (now : Z) (e : option JsError) (lat : Z) : Breaker :=
  let m := metrics b in
  let m1 := mkMetrics (totalCalls m + 1) (successfulCalls m) (failedCalls m + 1)
              (rejectedCalls m)
              (if is_timeout e then timeouts m + 1 else timeouts m)
              (latencies m ++ [lat])
              (callsInWindow m ++
                 [mkCall now false lat (match e with Some e => err_message e | None => None end)]) in
  let b1 := mkBreaker (name b) (failureThreshold b) (successThreshold b) (timeout b)
              (volumeThreshold b) (windowDuration b) (isFailure b) (state b)
              (failures b + 1) (successes b) 0
              (nextAttemptTime b) (Some now) (lastSuccessTime b) m1 in
  match state b1 with
  | HALF_OPEN => _transitionTo b1 now OPEN
  | CLOSED =>
      let (open, b2) := _shouldOpen b1 now in
      if open then _transitionTo b2 now OPEN else b2
  | OPEN => b1
  end.

Definition recordRejection (b : Breaker) : Breaker :=
  let m := metrics b in
  set_metrics b (mkMetrics (totalCalls m) (successfulCalls m) (failedCalls m)
                   (rejectedCalls m + 1) (timeouts m) (latencies m) (callsInWindow m)).

(** [execute(fn, fallback)].  The protected function [fn] is a call to the
    dependency: it acts on the dependency's state [W] and either returns
    a value or throws.  [endTime] is the clock reading when [fn] settles. *)
Section Execute.
Context {W R : Type}.

Inductive Settled :=
| Resolved (r : R)
| Rejected (e : JsError).

(** [fallback]: [null], a function to call, or a plain value. *)
Inductive Fallback :=
| FbNull
| FbFunction (f : unit → R)
| FbValue (r : R).

Inductive Result :=
| Return (r : R)
| ThrowCircuitOpen (circuitName : string)
| Throw (e : JsError).

Definition execute (b : Breaker) (w : W) (now : Z)
    (fn : W → Settled * W) (fallback : Fallback) (endTime : Z)
    : Result * Breaker * W :=
  let (ok, b0) := canExecute b now in
  if negb ok then
    let b1 := recordRejection b0 in
    match fallback with
    | FbFunction f => (Return (f tt), b1, w)
    | FbValue r => (Return r, b1, w)
    | FbNull => (ThrowCircuitOpen (name b1), b1, w)
    end
  else
    let startTime := now in
    let (res, w1) := fn w in
    let lat := endTime - startTime in
    match res with
    | Resolved r => (Return r, recordSuccess b0 endTime lat, w1)
    | Rejected e =>
        if isFailure b0 e
        then (Throw e, recordFailure b0 endTime (Some e) lat, w1)
        else (Throw e, recordSuccess b0 endTime lat, w1)
    end.

(** What the caller of [execute] gets when the call is rejected. *)
Definition rejection (b : Breaker) (fallback : Fallback) : Result :=
  match fallback with
  | FbNull => ThrowCircuitOpen (name b)
  | FbFunction f => Return (f tt)
  | FbValue r => Return r
  end.
End Execute.

Arguments Settled : clear implicits.
Arguments Fallback : clear implicits.
Arguments Result : clear implicits.

(** Number of recorded calls whose timestamp lies in the trailing window
    [(now - windowDuration, now]] once the call made at [now] is added. *)
Definition callsObserved (b : Breaker) (now : Z) : Z :=
  Z.of_nat (List.length
    (List.filter (λ c, now - windowDuration b <? timestamp c)
       (callsInWindow (metrics b)))) +
  (if now - windowDuration b <? now then 1 else 0).

(** [{ failureThreshold: 3, volumeThreshold: 1 }] *)
Definition options_3_1 : Options :=
  mkOptions None (Some 3) None None (Some 1) None None.

(** A breaker that three failures have just opened, at time 3000. *)
Definition closed_twice : Breaker :=
  recordFailure (recordFailure (new options_3_1) 1000 None 5) 2000 None 5.

Definition opened : Breaker := recordFailure closed_twice 3000 None 5.

(** A dependency that counts its calls and fails with a timeout. *)
Definition failing_dependency (calls : nat) : Settled string * nat :=
  (Rejected (mkError (Some "ETIMEDOUT") (Some "request timeout")), S calls).

(** [Object.values(STATE).includes(state)], for a string [state]. *)
Definition parse_STATE (s : string) : option STATE :=
  if String.eqb s "CLOSED" then Some CLOSED
  else if String.eqb s "OPEN" then Some OPEN
  else if String.eqb s "HALF_OPEN" then Some HALF_OPEN
  else None.

(** [forceState(state)]; [inl] carries the message of the [Error] thrown
    for a value that is not a state. *)
Definition forceState (b : Breaker) (now : Z) (state : string) : string + Breaker :=
  match parse_STATE state with
  | None => inl ("Estado inválido: " +:+ state)
  | Some st =>
      inr (mkBreaker (name b) (failureThreshold b) (successThreshold b) (timeout b)
             (volumeThreshold b) (windowDuration b) (isFailure b)
             st
             (match st with CLOSED => 0 | _ => failures b end)
             (successes b)
             (match st with CLOSED => 0 | _ => consecutiveSuccesses b end)
             (match st with OPEN => Some (now + timeout b) | _ => nextAttemptTime b end)
             (lastFailureTime b) (lastSuccessTime b) (metrics b))
  end.

Definition reset (b : Breaker) : Breaker :=
  mkBreaker (name b) (failureThreshold b) (successThreshold b) (timeout b)
    (volumeThreshold b) (windowDuration b) (isFailure b)
    CLOSED 0 0 0 None (lastFailureTime b) (lastSuccessTime b) (metrics b).

(** Calls made on a breaker by [execute], by its interval timer and by
    the administrative endpoints, each with its clock reading. *)
Inductive op :=
| OpCanExecute (now : Z)
| OpRecordSuccess (now latency : Z)
| OpRecordFailure (now : Z) (e : option JsError) (latency : Z)
| OpRecordRejection
| OpCleanupMetrics (now : Z)
| OpForceState (now : Z) (state : string)
| OpReset.

Definition step (b : Breaker) (o : op) : Breaker :=
  match o with
  | OpCanExecute now => snd (canExecute b now)
  | OpRecordSuccess now lat => recordSuccess b now lat
  | OpRecordFailure now e lat => recordFailure b now e lat
  | OpRecordRejection => recordRejection b
  | OpCleanupMetrics now => _cleanupMetrics b now
  | OpForceState now st =>
      match forceState b now st with inr b' => b' | inl _ => b end
  | OpReset => reset b
  end.

Definition run (b : Breaker) (ops : list op) : Breaker := fold_left step ops b.

(** The counters of a breaker fit together: every recorded call is a
    success or a failure, timeouts are failures, and an OPEN breaker has
    a time for its next attempt. *)
Definition well_formed (b : Breaker) : Prop :=
  let m := metrics b in
  totalCalls m = successfulCalls m + failedCalls m ∧
  0 ≤ successfulCalls m ∧ 0 ≤ timeouts m ≤ failedCalls m ∧
  0 ≤ rejectedCalls m ∧
  0 ≤ successes b ≤ successfulCalls m ∧
  0 ≤ failures b ∧ 0 ≤ consecutiveSuccesses b ∧
  (state b = OPEN → is_Some (nextAttemptTime b)).

(** [{ name, ...options }]: a [name] among the options replaces the
    argument. *)
Definition with_name (name : string) (o : Options) : Options :=
  mkOptions (match opt_name o with Some n => Some n | None => Some name end)
    (opt_failureThreshold o) (opt_successThreshold o) (opt_timeout o)
    (opt_volumeThreshold o) (opt_windowDuration o) (opt_isFailure o).

(** [getCircuitBreaker(name, options)] over the module's registry
    [circuits], which holds the breakers by name. *)
Definition getCircuitBreaker (circuits : list (string * Breaker)) (name : string)
    (o : Options) : option Breaker * list (string * Breaker) :=
  let circuits' :=
    if negb (Js.map_has circuits name)
    then Js.map_set circuits name (new (with_name name o))
    else circuits in
  (Js.map_get circuits' name, circuits').

(** The calls [OpRecordSuccess] and [OpRecordFailure] for a list of
    (clock reading, latency) pairs. *)
Definition successes_at (calls : list (Z * Z)) : list op :=
  List.map (λ c, OpRecordSuccess (fst c) (snd c)) calls.

Definition failures_at (e : option JsError) (calls : list (Z * Z)) : list op :=
  List.map (λ c, OpRecordFailure (fst c) e (snd c)) calls.

End CircuitBreaker.

(** ** The lookup cache ([BillerSearchCache]) *)

Module Cache.

Section WithValue.
(** The cached values; [null] is not one of them. *)
Context {V : Type}.

Record Entry := mkEntry {
  value : V;
  createdAt : Z;
  expiresAt : Z;
  lastAccess : Z;
  hits : Z
}.

Record Stats := mkStats {
  st_hits : Z;
  st_misses : Z;
  st_sets : Z;
  st_evictions : Z
}.

Record t := mkCache {
  ttl : Z;
  maxSize : Z;
  cache : list (string * Entry);
  stats : Stats
}.

(** [constructor(options)]: [options.ttl || 5 * 60 * 1000],
    [options.maxSize || 1000]. *)
Definition new (opt_ttl opt_maxSize : option Z) : t :=
  {| ttl := Js.num_or opt_ttl (5 * 60 * 1000);
     maxSize := Js.num_or opt_maxSize 1000;
     cache := [];
     stats := mkStats 0 0 0 0 |}.

(** [`${type}:${key}`] *)
Definition _generateKey (type key : string) : string :=
  type +:+ ":" +:+ key.

Definition miss (c : t) (entries : list (string * Entry)) : t :=
  mkCache (ttl c) (maxSize c) entries
    (mkStats (st_hits (stats c)) (st_misses (stats c) + 1)
       (st_sets (stats c)) (st_evictions (stats c))).

(** [get(type, key)]; [None] is the [null] returned on a miss. *)
Definition get (c : t) (now : Z) (type key : string) : option V * t :=
  let cacheKey := _generateKey type key in
  match Js.map_get (cache c) cacheKey with
  | None => (None, miss c (cache c))
  | Some entry =>
      if expiresAt entry <? now
      then (None, miss c (Js.map_delete (cache c) cacheKey))
      else
        let entry' := mkEntry (value entry) (createdAt entry) (expiresAt entry)
                        now (hits entry + 1) in
        (Some (value entry),
         mkCache (ttl c) (maxSize c) (Js.map_set (cache c) cacheKey entry')
           (mkStats (st_hits (stats c) + 1) (st_misses (stats c))
              (st_sets (stats c)) (st_evictions (stats c))))
  end.

(** The loop of [_evictOne]: the first entry whose [lastAccess] is
    strictly below the running minimum, which starts at [Infinity]
    ([None]). *)
Fixpoint oldest (entries : list (string * Entry))
    (oldestKey : option string) (oldestAccess : option Z) : option string :=
  match entries with
  | [] => oldestKey
  | (k, e) :: rest =>
      let lower := match oldestAccess with
                   | None => true
                   | Some a => lastAccess e <? a
                   end in
      if lower then oldest rest (Some k) (Some (lastAccess e))
      else oldest rest oldestKey oldestAccess
  end.

(** [if (oldestKey)]: [null] and the empty string are falsy. *)
Definition _evictOne (c : t) : t :=
  match oldest (cache c) None None with
  | Some k =>
      if String.eqb k "" then c
      else mkCache (ttl c) (maxSize c) (Js.map_delete (cache c) k)
             (mkStats (st_hits (stats c)) (st_misses (stats c))
                (st_sets (stats c)) (st_evictions (stats c) + 1))
  | None => c
  end.

(** [set(type, key, value, customTtl = null)] *)
Definition set (c : t) (now : Z) (type key : string) (v : V)
    (customTtl : option Z) : t :=
  let cacheKey := _generateKey type key in
  let ttl' := Js.num_or customTtl (ttl c) in
  let c1 := if (maxSize c <=? Js.map_size (cache c))
               && negb (Js.map_has (cache c) cacheKey)
            then _evictOne c else c in
  mkCache (ttl c1) (maxSize c1)
    (Js.map_set (cache c1) cacheKey (mkEntry v now (now + ttl') now 0))
    (mkStats (st_hits (stats c1)) (st_misses (stats c1))
       (st_sets (stats c1) + 1) (st_evictions (stats c1))).

Definition invalidate (c : t) (type key : string) : bool * t :=
  let cacheKey := _generateKey type key in
  (Js.map_has (cache c) cacheKey,
   mkCache (ttl c) (maxSize c) (Js.map_delete (cache c) cacheKey) (stats c)).

Definition invalidateType (c : t) (type : string) : Z * t :=
  let pre := type +:+ ":" in
  (Z.of_nat (List.length (List.filter (λ kv, String.prefix pre (fst kv)) (cache c))),
   mkCache (ttl c) (maxSize c)
     (List.filter (λ kv, negb (String.prefix pre (fst kv))) (cache c)) (stats c)).

Definition clear (c : t) : t := mkCache (ttl c) (maxSize c) [] (stats c).

(** [_cleanup] deletes every entry with [now > entry.expiresAt]. *)
Definition _cleanup (c : t) (now : Z) : t :=
  mkCache (ttl c) (maxSize c)
    (List.filter (λ kv, negb (expiresAt (snd kv) <? now)) (cache c)) (stats c).

(** Calls made on the cache, each with its clock reading. *)
Inductive op :=
| OpGet (now : Z) (type key : string)
| OpSet (now : Z) (type key : string) (v : V) (customTtl : option Z)
| OpInvalidate (type key : string)
| OpInvalidateType (type : string)
| OpClear
| OpCleanup (now : Z).

Definition step (c : t) (o : op) : t :=
  match o with
  | OpGet now ty k => snd (get c now ty k)
  | OpSet now ty k v ct => set c now ty k v ct
  | OpInvalidate ty k => snd (invalidate c ty k)
  | OpInvalidateType ty => snd (invalidateType c ty)
  | OpClear => clear c
  | OpCleanup now => _cleanup c now
  end.

Definition run (c : t) (ops : list op) : t := fold_left step ops c.

(** The caches obtained from the constructor through the methods. *)
Definition reachable (c : t) : Prop :=
  ∃ opt_ttl opt_maxSize ops, c = run (new opt_ttl opt_maxSize) ops.

(** The keys of the underlying [Map] are distinct and, as built by
    [_generateKey], never the empty string. *)
Definition keys_ok (m : list (string * Entry)) : Prop :=
  NoDup (Js.map_keys m) ∧ ∀ k, In k (Js.map_keys m) → k ≠ "".

(** The call cannot remove or replace the entry stored under
    [cacheKey] with expiry [expiry], evictions apart: it is a [get] of
    that key not later than the expiry or a [get] of another key, a
    [set] or an [invalidate] of another key, an [invalidateType] of a
    type with whose prefix the key does not start, or a sweep not
    later than the expiry. *)
Definition spares (cacheKey : string) (expiry : Z) (o : op) : bool :=
  match o with
  | OpGet now ty k =>
      negb (String.eqb (_generateKey ty k) cacheKey) || (now <=? expiry)
  | OpSet _ ty k _ _ => negb (String.eqb (_generateKey ty k) cacheKey)
  | OpInvalidate ty k => negb (String.eqb (_generateKey ty k) cacheKey)
  | OpInvalidateType ty => negb (String.prefix (ty +:+ ":") cacheKey)
  | OpClear => false
  | OpCleanup now => now <=? expiry
  end.

Definition is_set (o : op) : bool :=
  match o with OpSet _ _ _ _ _ => true | _ => false end.

(** Number of [set] calls in a trace. *)
Definition sets_in (ops : list op) : Z :=
  Z.of_nat (List.length (List.filter is_set ops)).

(** [getOrFetch(type, key, fetchFn, customTtl)].  [fetchFn] is a call to
    the outside world [W]: it settles to a value, to [null] or
    [undefined], or it throws; [getOrFetch] settles to the same kinds
    of results.  [now] is the clock reading of the first [get],
    [fetchedAt] the reading when [fetchFn] has settled; no other call
    on the cache runs in between. *)
Context {W E : Type}.

Inductive Fetched :=
| FValue (v : V)
| FNull
| FUndefined
| FThrows (e : E).

Definition getOrFetch (c : t) (now : Z) (type key : string)
    (fetchFn : W → Fetched * W) (w : W) (fetchedAt : Z) (customTtl : option Z)
    : Fetched * t * W :=
  match get c now type key with
  | (Some cached, c1) => (FValue cached, c1, w)
  | (None, c1) =>
      match fetchFn w with
      | (FValue v, w1) => (FValue v, set c1 fetchedAt type key v customTtl, w1)
      | (FNull, w1) => (FNull, c1, w1)
      | (FUndefined, w1) => (FUndefined, c1, w1)
      | (FThrows e, w1) => (FThrows e, c1, w1)
      end
  end.

(** A fetch function that must not be called: it changes the world. *)
Definition counting_fetch (v : V) (calls : nat) : Fetched * nat :=
  (FValue v, S calls).

End WithValue.

Arguments Entry : clear implicits.
Arguments t : clear implicits.
Arguments op : clear implicits.

Arguments Fetched : clear implicits.

(** The search type holds no colon. *)
Definition colon_free (type : string) : bool := negb (Js.includes ":" type).

End Cache.

(** ** The error store ([ErrorStore]) *)

Module ErrorStore.

Inductive ErrorType :=
| BILLER_ERROR | SHOPIFY_ERROR | VALIDATION_ERROR | NETWORK_ERROR
| PROCESSING_ERROR | WEBHOOK_ERROR | UNKNOWN_ERROR.

(** The values of [ERROR_TYPES]. *)
Definition parse_type (s : string) : option ErrorType :=
  if String.eqb s "biller_error" then Some BILLER_ERROR
  else if String.eqb s "shopify_error" then Some SHOPIFY_ERROR
  else if String.eqb s "validation_error" then Some VALIDATION_ERROR
  else if String.eqb s "network_error" then Some NETWORK_ERROR
  else if String.eqb s "processing_error" then Some PROCESSING_ERROR
  else if String.eqb s "webhook_error" then Some WEBHOOK_ERROR
  else if String.eqb s "unknown_error" then Some UNKNOWN_ERROR
  else None.

(** The fields of the error object given to [recordError]; [e_string] is
    [String(error)]. *)
Record JsError := mkError {
  e_type : option string;
  e_name : option string;
  e_message : option string;
  e_code : option string;
  e_status : option Z;
  e_string : string
}.

Record Context := mkContext {
  orderId : option string;
  refundId : option string;
  webhookId : option string;
  action : option string;
  attempt : option Z
}.

(** A stored error.  [timestamp], [resolvedAt] hold the instant that the
    source keeps as an ISO-8601 string and reads back with [new Date]. *)
Record ErrorEntry := mkEntry {
  id : string;
  timestamp : Z;
  type : ErrorType;
  message : string;
  code : option string;
  status : option Z;
  context : Context;
  resolved : bool;
  resolution : option string;
  resolvedAt : option Z;
  resolvedBy : option string;
  retryable : bool
}.

Record t := mkStore {
  maxErrors : Z;
  errors : list (string * ErrorEntry);
  dirty : bool
}.

(** [constructor(options)] followed by [load()], which yields [loaded]. *)
Definition new (opt_maxErrors : option Z) (loaded : list (string * ErrorEntry)) : t :=
  {| maxErrors := Js.num_or opt_maxErrors 1000; errors := loaded; dirty := false |}.

Definition code_is (e : JsError) (c : string) : bool :=
  match e_code e with Some x => String.eqb x c | None => false end.

Definition message_includes (e : JsError) (needle : string) : bool :=
  match e_message e with Some m => Js.includes needle m | None => false end.

Definition name_is (e : JsError) (n : string) : bool :=
  match e_name e with Some x => String.eqb x n | None => false end.

Definition _determineErrorType (e : JsError) : ErrorType :=
  match match e_type e with Some s => parse_type s | None => None end with
  | Some ty => ty
  | None =>
      if code_is e "ECONNRESET" || code_is e "ETIMEDOUT" || code_is e "ENOTFOUND"
      then NETWORK_ERROR
      else if name_is e "BillerError" || message_includes e "Biller"
      then BILLER_ERROR
      else if name_is e "ShopifyError" || message_includes e "Shopify"
      then SHOPIFY_ERROR
      else if code_is e "VALIDATION_ERROR" || message_includes e "validación"
      then VALIDATION_ERROR
      else UNKNOWN_ERROR
  end.

Definition status_ge (e : JsError) (n : Z) : bool :=
  match e_status e with Some s => n <=? s | None => false end.

Definition status_lt (e : JsError) (n : Z) : bool :=
  match e_status e with Some s => s <? n | None => false end.

Definition _isRetryable (e : JsError) : bool :=
  if existsb (code_is e)
       ["VALIDATION_ERROR"; "INVALID_TOKEN"; "UNAUTHORIZED"; "FORBIDDEN";
        "NOT_FOUND"; "DUPLICATE"]
  then false
  else if existsb (code_is e) ["ECONNRESET"; "ETIMEDOUT"; "ENOTFOUND"] then true
  else if status_ge e 500 then true
  else if match e_status e with Some s => s =? 429 | None => false end then true
  else if status_ge e 400 && status_lt e 500 then false
  else true.

(** [arr.sort((a, b) => new Date(b[1].timestamp) - new Date(a[1].timestamp))]:
    the stable sort of the entries, newest first. *)
Fixpoint insert_desc (x : string * ErrorEntry) (l : list (string * ErrorEntry))
    : list (string * ErrorEntry) :=
  match l with
  | [] => [x]
  | y :: l' =>
      if timestamp (snd y) <=? timestamp (snd x) then x :: l
      else y :: insert_desc x l'
  end.

Fixpoint sort_desc (l : list (string * ErrorEntry)) : list (string * ErrorEntry) :=
  match l with
  | [] => []
  | x :: l' => insert_desc x (sort_desc l')
  end.

Definition _cleanup (s : t) : t :=
  if Js.map_size (errors s) <=? maxErrors s then s
  else
    let sorted := sort_desc (errors s) in
    let unresolved := List.filter (λ kv, negb (resolved (snd kv))) sorted in
    let resolved := List.filter (λ kv, resolved (snd kv)) sorted in
    let toKeep :=
      Js.slice
        (unresolved ++
           Js.slice resolved 0 (maxErrors s - Z.of_nat (List.length unresolved)))
        0 (maxErrors s) in
    mkStore (maxErrors s) toKeep true.

(** The [errorEntry] object built by [recordError]. *)
Definition errorEntry (now : Z) (errorId : string) (e : JsError) (ctx : Context)
    : ErrorEntry :=
  {| id := errorId;
     timestamp := now;
     type := _determineErrorType e;
     message := match e_message e with
                | Some m => if String.eqb m "" then e_string e else m
                | None => e_string e
                end;
     code := match e_code e with
             | Some c => if String.eqb c "" then None else Some c
             | None => None
             end;
     status := match e_status e with
               | Some st => if st =? 0 then None else Some st
               | None => None
               end;
     context := ctx;
     resolved := false;
     resolution := None;
     resolvedAt := None;
     resolvedBy := None;
     retryable := _isRetryable e |}.

(** The store once [recordError] has executed [this.errors.set(...)]. *)
Definition added (s : t) (now : Z) (errorId : string) (e : JsError) (ctx : Context)
    : t :=
  mkStore (maxErrors s) (Js.map_set (errors s) errorId (errorEntry now errorId e ctx))
    true.

(** [recordError(error, context)]; [errorId] is the value of
    [_generateId()], [now] the instant of [new Date()]. *)
Definition recordError (s : t) (now : Z) (errorId : string)
    (e : JsError) (ctx : Context) : string * t :=
  (errorId, _cleanup (added s now errorId e ctx)).

(** A network timeout, as an example of a recorded error. *)
Definition sample_error : JsError :=
  mkError None (Some "Error") (Some "connect ETIMEDOUT") (Some "ETIMEDOUT") None
    "Error: connect ETIMEDOUT".

Definition sample_context : Context :=
  mkContext (Some "1001") None None (Some "emit") (Some 1).

(** [resolveError(errorId, resolution)] with [resolution = {notes, by}]. *)
Definition resolveError (s : t) (now : Z) (errorId : string)
    (notes by_ : option string) : bool * t :=
  match Js.map_get (errors s) errorId with
  | None => (false, s)
  | Some e =>
      let str_or (x : option string) (d : string) :=
        match x with
        | Some v => if String.eqb v "" then d else v
        | None => d
        end in
      let e' := mkEntry (id e) (timestamp e) (type e) (message e) (code e) (status e)
                  (context e) true (Some (str_or notes "Resuelto")) (Some now)
                  (Some (str_or by_ "system")) (retryable e) in
      (true, mkStore (maxErrors s) (Js.map_set (errors s) errorId e') true)
  end.

Definition is_unresolved (kv : string * ErrorEntry) : bool := negb (resolved (snd kv)).

(** Number of unresolved entries of the store. *)
Definition unresolved_count (s : t) : Z :=
  Z.of_nat (List.length (List.filter is_unresolved (errors s))).

(** [a] is at least as recent as [b]. *)
Definition newer_eq (a b : string * ErrorEntry) : Prop :=
  timestamp (snd b) ≤ timestamp (snd a).

(** [getError(errorId)] *)
Definition getError (s : t) (errorId : string) : option ErrorEntry :=
  Js.map_get (errors s) errorId.

(** The strings of [ERROR_TYPES]. *)
Definition type_string (ty : ErrorType) : string :=
  match ty with
  | BILLER_ERROR => "biller_error"
  | SHOPIFY_ERROR => "shopify_error"
  | VALIDATION_ERROR => "validation_error"
  | NETWORK_ERROR => "network_error"
  | PROCESSING_ERROR => "processing_error"
  | WEBHOOK_ERROR => "webhook_error"
  | UNKNOWN_ERROR => "unknown_error"
  end.

(** [Array.from(this.errors.values())] *)
Definition values (s : t) : list ErrorEntry := List.map snd (errors s).

(** [arr.sort((a, b) => new Date(b.timestamp) - new Date(a.timestamp))] on
    an array of entries: the stable sort, newest first. *)
Fixpoint insert_newest_first (x : ErrorEntry) (l : list ErrorEntry) : list ErrorEntry :=
  match l with
  | [] => [x]
  | y :: l' =>
      if timestamp y <=? timestamp x then x :: l
      else y :: insert_newest_first x l'
  end.

Fixpoint sort_newest_first (l : list ErrorEntry) : list ErrorEntry :=
  match l with
  | [] => []
  | x :: l' => insert_newest_first x (sort_newest_first l')
  end.

(** The [since] option of [getUnresolvedErrors]: a number of
    milliseconds, or a date string together with what [new Date] reads
    from it ([None] for an invalid date). *)
Inductive Since :=
| SinceNumber (ms : Z)
| SinceString (s : string) (parsed : option Z).

(** [if (since)]: the number [0] and the empty string are falsy. *)
Definition since_truthy (since : Since) : bool :=
  match since with
  | SinceNumber ms => negb (ms =? 0)
  | SinceString s _ => negb (String.eqb s "")
  end.

(** The time value of [new Date(since)]; [None] is an invalid date (a
    number beyond 8.64e15 in absolute value, or a string that is no
    date). *)
Definition since_date (since : Since) : option Z :=
  match since with
  | SinceNumber ms =>
      if (-8640000000000000 <=? ms) && (ms <=? 8640000000000000)
      then Some ms else None
  | SinceString _ parsed => parsed
  end.

(** [new Date(e.timestamp) >= sinceDate]; a comparison with an invalid
    date is false. *)
Definition not_before (sinceDate : option Z) (e : ErrorEntry) : bool :=
  match sinceDate with
  | Some d => d <=? timestamp e
  | None => false
  end.

(** [getUnresolvedErrors({ type, limit = 100, since })].  An absent option
    is [None]. *)
Definition getUnresolvedErrors (s : t) (opt_type : option string)
    (opt_limit : option Z) (opt_since : option Since) : list ErrorEntry :=
  let limit := match opt_limit with Some n => n | None => 100 end in
  let errors0 := List.filter (λ e, negb (resolved e)) (values s) in
  let errors1 :=
    match opt_type with
    | Some ty =>
        if String.eqb ty "" then errors0
        else List.filter (λ e, String.eqb (type_string (type e)) ty) errors0
    | None => errors0
    end in
  let errors2 :=
    match opt_since with
    | Some since =>
        if since_truthy since
        then let sinceDate := since_date since in
             List.filter (not_before sinceDate) errors1
        else errors1
    | None => errors1
    end in
  Js.slice (sort_newest_first errors2) 0 limit.

(** [getErrorsByOrder(orderId)] *)
Definition getErrorsByOrder (s : t) (order : string) : list ErrorEntry :=
  sort_newest_first
    (List.filter
       (λ e, match orderId (context e) with
             | Some o => String.eqb o order
             | None => false
             end)
       (values s)).

(** [resolveMultiple(errorIds, resolution)] *)
Definition resolveMultiple (s : t) (now : Z) (errorIds : list string)
    (notes by_ : option string) : Z * t :=
  fold_left
    (λ (acc : Z * t) errorId,
       let (ok, s') := resolveError (snd acc) now errorId notes by_ in
       (if ok then fst acc + 1 else fst acc, s'))
    errorIds (0, s).

(** [a] is at least as recent as [b]. *)
Definition newer (a b : ErrorEntry) : Prop := timestamp b ≤ timestamp a.

(** The codes that [_isRetryable] never retries, and the network codes. *)
Definition nonRetryableCodes : list string :=
  ["VALIDATION_ERROR"; "INVALID_TOKEN"; "UNAUTHORIZED"; "FORBIDDEN";
   "NOT_FOUND"; "DUPLICATE"].

Definition networkCodes : list string := ["ECONNRESET"; "ETIMEDOUT"; "ENOTFOUND"].

(** Two entries of a sample store. *)
Definition sample_store : t :=
  snd (recordError
         (snd (recordError (new (Some 10) []) 1000 "err-a" sample_error sample_context))
         2000 "err-b" sample_error sample_context).

(** The entry is unresolved and passes the [type] and [since] filters of
    [getUnresolvedErrors]: a filter that is absent or falsy lets every
    entry pass. *)
Definition wanted (opt_type : option string) (opt_since : option Since)
    (e : ErrorEntry) : bool :=
  negb (resolved e)
  && match opt_type with
     | Some ty => String.eqb ty "" || String.eqb (type_string (type e)) ty
     | None => true
     end
  && match opt_since with
     | Some since => negb (since_truthy since) || not_before (since_date since) e
     | None => true
     end.

(** An entry recorded before 1970, unresolved. *)
Definition sample_old_store : t :=
  snd (recordError (new (Some 10) []) (-86400000) "err-old" sample_error
         sample_context).

(** The entry was recorded for the order [order]. *)
Definition of_order (order : string) (e : ErrorEntry) : bool :=
  match orderId (context e) with
  | Some o => String.eqb o order
  | None => false
  end.

End ErrorStore.

(** ** JavaScript numbers: IEEE 754 binary64 *)

Module JsNumber.

Definition prec : Z := 53.
Definition emax : Z := 1024.

Definition number := spec_float.

(** An integer literal or array length as a number. *)
Definition of_Z (z : Z) : number := binary_normalize prec emax z 0 false.

Definition div (x y : number) : number := SFdiv prec emax x y.
Definition mul (x y : number) : number := SFmul prec emax x y.

(** [Math.round(x)] for finite [x]: the nearest integer, ties towards
    +Infinity, that is [floor(x + 1/2)] computed exactly. *)
Definition round (x : number) : Z :=
  match x with
  | S754_finite s m e =>
      let n := if s then Z.neg m else Z.pos m in
      if 0 <=? e then n * 2 ^ e
      else (2 * n + 2 ^ (- e)) / 2 ^ (- e + 1)
  | _ => 0
  end.

(** [Math.round((a / b) * 100)] *)
Definition percent (a b : Z) : Z := round (mul (div (of_Z a) (of_Z b)) (of_Z 100)).

(** The percentage rounded without intermediate rounding errors:
    [floor(100 a / b + 1/2)]. *)
Definition exact_percent (a b : Z) : Z := (200 * a + b) / (2 * b).

(** The exact value [num / den] (with [den > 0]) lies in
    [[m, m + 1)], at the place that the round and sticky bits of the
    record tell: on [m], below the middle, on it, or above it. *)
Definition located (mrs : shr_record) (num den : Z) : Prop :=
  let m := shr_m mrs in
  match shr_r mrs, shr_s mrs with
  | false, false => num = m * den
  | false, true => m * den < num ∧ 2 * num < (2 * m + 1) * den
  | true, false => 2 * num = (2 * m + 1) * den
  | true, true => (2 * m + 1) * den < 2 * num ∧ num < (m + 1) * den
  end.

(** The power [2 ^ e] as a real number, for any integer [e]. *)
Definition bpow (e : Z) : R := powerRZ 2 e.

(** The real number [m * 2 ^ e]. *)
Definition F2R (m e : Z) : R := (IZR m * bpow e)%R.

(** A finite number with a full 53-bit mantissa [m] and exponent [e]. *)
Definition normal (x : number) (m e : Z) : Prop :=
  ∃ p, x = S754_finite false p e ∧ m = Z.pos p ∧ 2 ^ 52 ≤ m < 2 ^ 53.

End JsNumber.

(** ** The reconciliation engine ([ReconciliationService]) *)

Module Reconciliation.

Inductive DiscrepancyType :=
| MISSING_IN_BILLER | MISSING_IN_LOCAL | DATA_MISMATCH
| PROCESSING_ERROR | PENDING_EMISSION.

Inductive Severity := CRITICAL | HIGH | MEDIUM | LOW | INFO.

Definition Severity_eqb (a b : Severity) : bool :=
  match a, b with
  | CRITICAL, CRITICAL | HIGH, HIGH | MEDIUM, MEDIUM | LOW, LOW | INFO, INFO => true
  | _, _ => false
  end.

(** A comprobante, local or returned by Biller.  An absent field is
    [None]; identifiers are strings, [tipo_comprobante] and [numero] are
    integers (on which [String(_)] is injective). *)
Record Comprobante := mkComprobante {
  id : option string;
  key : option string;
  shopify_order_id : option string;
  tipo_comprobante : option Z;
  serie : option string;
  numero : option Z;
  cae_numero : option string
}.

(** Truthiness of a field. *)
Definition truthy_str (x : option string) : bool :=
  match x with Some s => negb (String.eqb s "") | None => false end.

Definition truthy_num (x : option Z) : bool :=
  match x with Some n => negb (n =? 0) | None => false end.

(** [`${x}`] *)
Definition template (x : option string) : string :=
  match x with Some s => s | None => "undefined" end.

Inductive Inconsistencia :=
| IncTipo (local biller : Z)
| IncSerie (local biller : string)
| IncNumero (local biller : Z)
| IncCae (local biller : string).

Definition campo (i : Inconsistencia) : string :=
  match i with
  | IncTipo _ _ => "tipo_comprobante"
  | IncSerie _ _ => "serie"
  | IncNumero _ _ => "numero"
  | IncCae _ _ => "cae_numero"
  end.

Definition _verificarConsistencia (local biller : Comprobante) : list Inconsistencia :=
  (match tipo_comprobante local, tipo_comprobante biller with
   | Some l, Some b =>
       if negb (l =? 0) && negb (b =? 0) && negb (l =? b) then [IncTipo l b] else []
   | _, _ => []
   end) ++
  (match serie local, serie biller with
   | Some l, Some b =>
       if negb (String.eqb l "") && negb (String.eqb b "") && negb (String.eqb l b)
       then [IncSerie l b] else []
   | _, _ => []
   end) ++
  (match numero local, numero biller with
   | Some l, Some b =>
       if negb (l =? 0) && negb (b =? 0) && negb (l =? b) then [IncNumero l b] else []
   | _, _ => []
   end) ++
  (match cae_numero local, cae_numero biller with
   | Some l, Some b =>
       if negb (String.eqb l "") && negb (String.eqb b "") && negb (String.eqb l b)
       then [IncCae l b] else []
   | _, _ => []
   end).

Record Discrepancia := mkDiscrepancia {
  d_tipo : DiscrepancyType;
  d_severity : Severity;
  d_local : Comprobante;
  d_biller : option Comprobante;
  d_inconsistencias : list Inconsistencia;
  d_mensaje : string;
  d_accionRecomendada : string
}.

(** An element of [errores]; [e_comprobante] is [None] for a [null]
    element of the input array. *)
Record ErrorItem := mkErrorItem {
  e_comprobante : option Comprobante;
  e_error : string;
  e_tipo : string
}.

Record Verificado := mkVerificado {
  v_local : Comprobante;
  v_biller : Comprobante;
  verificadoAt : Z
}.

(** What a call of the Biller client settles to: it returns a comprobante
    or a falsy value, or throws an error with [status] and [message]. *)
Inductive Settled :=
| Returns (c : option Comprobante)
| Throws (status : option Z) (message : string).

Record Resumen := mkResumen {
  total : Z;
  verificados : Z;
  discrepancias : Z;
  errores : Z;
  tasaExito : Z
}.

Record PorSeveridad := mkPorSeveridad {
  critical : Z;
  high : Z;
  medium : Z;
  low : Z
}.

Record Reporte := mkReporte {
  r_id : string;
  r_timestamp : Z;
  resumen : Resumen;
  r_discrepancias : list Discrepancia;
  r_errores : list ErrorItem;
  r_verificados : list Verificado;
  porSeveridad : PorSeveridad
}.

(** The message of the [TypeError] raised by reading [local.id] when
    [local] is [null]. *)
Definition null_read_message : string :=
  "Cannot read properties of null (reading 'id')".

Section Service.
(** The state of the outside world (Biller and the clock) and the two
    lookups of [this.billerClient], which may answer in any way and
    change that state. *)
Context {World : Type}.
Variable obtenerComprobante : string → World → Settled * World.
Variable buscarPorNumeroInterno : string → World → Settled * World.
Variable clock : World → Z.

(** The three arrays filled by the loop. *)
Record Acc := mkAcc {
  a_discrepancias : list Discrepancia;
  a_verificados : list Verificado;
  a_errores : list ErrorItem
}.

(** What one iteration of the loop adds. *)
Inductive Outcome :=
| OVerificado (v : Verificado)
| ODiscrepancia (d : Discrepancia)
| OError (e : ErrorItem).

(** The first lookup, by [local.id]: the comprobante found so far, or
    the error item of a failure other than 404. *)
Definition lookup_by_id (local : Comprobante) (w : World)
    : (ErrorItem + option Comprobante) * World :=
  if truthy_str (id local) then
    match obtenerComprobante (template (id local)) w with
    | (Returns c, w1) => (inr c, w1)
    | (Throws st msg, w1) =>
        if match st with Some s => s =? 404 | None => false end
        then (inr None, w1)
        else (inl (mkErrorItem (Some local) msg "biller_fetch_error"), w1)
    end
  else (inr None, w).

(** The fallback lookup, by internal number; its errors are ignored. *)
Definition lookup_by_numero (local : Comprobante) (found : option Comprobante)
    (w : World) : option Comprobante * World :=
  match found with
  | Some c => (Some c, w)
  | None =>
      if truthy_str (shopify_order_id local) then
        match buscarPorNumeroInterno ("shopify-" +:+ template (shopify_order_id local)) w with
        | (Returns c, w1) => (c, w1)
        | (Throws _ _, w1) => (None, w1)
        end
      else (None, w)
  end.

Definition missing (local : Comprobante) : Discrepancia :=
  {| d_tipo := MISSING_IN_BILLER;
     d_severity := CRITICAL;
     d_local := local;
     d_biller := None;
     d_inconsistencias := [];
     d_mensaje := "Comprobante " +:+
                  template (if truthy_str (id local) then id local else key local)
                  +:+ " no encontrado en Biller";
     d_accionRecomendada :=
       "Verificar si la emisión falló y re-emitir si es necesario" |}.

Definition mismatch (local biller : Comprobante) (incs : list Inconsistencia)
    : Discrepancia :=
  {| d_tipo := DATA_MISMATCH;
     d_severity := MEDIUM;
     d_local := local;
     d_biller := Some biller;
     d_inconsistencias := incs;
     d_mensaje := "Datos inconsistentes para comprobante " +:+ template (id local);
     d_accionRecomendada := "Actualizar datos locales con los de Biller" |}.

(** The body of the [for] loop for one element of the input. *)
Definition procesar (local : option Comprobante) (w : World) : Outcome * World :=
  match local with
  | None => (OError (mkErrorItem None null_read_message "verification_error"), w)
  | Some local =>
      match lookup_by_id local w with
      | (inl err, w1) => (OError err, w1)
      | (inr found, w1) =>
          match lookup_by_numero local found w1 with
          | (None, w2) => (ODiscrepancia (missing local), w2)
          | (Some biller, w2) =>
              match _verificarConsistencia local biller with
              | [] => (OVerificado (mkVerificado local biller (clock w2)), w2)
              | incs => (ODiscrepancia (mismatch local biller incs), w2)
              end
          end
      end
  end.

Definition push (a : Acc) (o : Outcome) : Acc :=
  match o with
  | OVerificado v => mkAcc (a_discrepancias a) (a_verificados a ++ [v]) (a_errores a)
  | ODiscrepancia d => mkAcc (a_discrepancias a ++ [d]) (a_verificados a) (a_errores a)
  | OError e => mkAcc (a_discrepancias a) (a_verificados a) (a_errores a ++ [e])
  end.

Fixpoint loop (locales : list (option Comprobante)) (a : Acc) (w : World)
    : Acc * World :=
  match locales with
  | [] => (a, w)
  | local :: rest =>
      let (o, w1) := procesar local w in
      loop rest (push a o) w1
  end.

(** The outcomes of the iterations, in order. *)
Fixpoint outcomes (locales : list (option Comprobante)) (w : World)
    : list Outcome :=
  match locales with
  | [] => []
  | local :: rest =>
      let (o, w1) := procesar local w in
      o :: outcomes rest w1
  end.

(** The state of the outside world when the loop, started in [w], has
    gone through [locales]. *)
Fixpoint world_after (locales : list (option Comprobante)) (w : World) : World :=
  match locales with
  | [] => w
  | local :: rest => world_after rest (snd (procesar local w))
  end.

(** What Biller answers for [local] in the world [w]: to the lookup by
    id, made when [local.id] is truthy, and to the lookup by internal
    number, made when [local.shopify_order_id] is truthy.  [after_id]
    is the world once the lookup by id, if any, has been made. *)
Definition by_id (local : Comprobante) (w : World) : option Settled :=
  if truthy_str (id local)
  then Some (fst (obtenerComprobante (template (id local)) w))
  else None.

Definition after_id (local : Comprobante) (w : World) : World :=
  if truthy_str (id local)
  then snd (obtenerComprobante (template (id local)) w)
  else w.

Definition by_numero (local : Comprobante) (w : World) : option Settled :=
  if truthy_str (shopify_order_id local)
  then Some (fst (buscarPorNumeroInterno
                    ("shopify-" +:+ template (shopify_order_id local)) w))
  else None.

(** The lookup by id finds nothing: it is not made, it returns a falsy
    value, or it fails with status 404. *)
Definition empty_by_id (answer : option Settled) : bool :=
  match answer with
  | None => true
  | Some (Returns None) => true
  | Some (Returns (Some _)) => false
  | Some (Throws (Some st) _) => st =? 404
  | Some (Throws None _) => false
  end.

(** The lookup by internal number finds nothing: it is not made, it
    returns a falsy value, or it fails. *)
Definition empty_by_numero (answer : option Settled) : bool :=
  match answer with
  | Some (Returns (Some _)) => false
  | _ => true
  end.

(** In the world [w], the remote lookups for [local] find no remote
    record. *)
Definition no_remote_record (local : Comprobante) (w : World) : Prop :=
  empty_by_id (by_id local w) = true ∧
  empty_by_numero (by_numero local (after_id local w)) = true.

(** In the world [w], [local] has the remote match [biller]: the lookup
    by id returns it, or that lookup finds nothing and the lookup by
    internal number returns it; and its data agree with [local]. *)
Definition remote_match (local : Comprobante) (w : World) (biller : Comprobante)
    : Prop :=
  (by_id local w = Some (Returns (Some biller)) ∨
   (empty_by_id (by_id local w) = true ∧
    by_numero local (after_id local w) = Some (Returns (Some biller)))) ∧
  _verificarConsistencia local biller = [].

(** Number of elements in the three arrays together. *)
Definition filed (a : Acc) : nat :=
  (List.length (a_verificados a) + List.length (a_discrepancias a)
   + List.length (a_errores a))%nat.

Definition count_severity (s : Severity) (ds : list Discrepancia) : Z :=
  Z.of_nat (List.length (List.filter (λ d, Severity_eqb (d_severity d) s) ds)).

(** [_reconciliar(comprobantesLocales)]; [reportId] is the value of
    [_generarReporteId()]. *)
Definition _reconciliar (comprobantesLocales : list (option Comprobante))
    (reportId : string) (w : World) : Reporte * World :=
  let total := Z.of_nat (List.length comprobantesLocales) in
  let (a, w1) := loop comprobantesLocales (mkAcc [] [] []) w in
  let nv := Z.of_nat (List.length (a_verificados a)) in
  ({| r_id := reportId;
      r_timestamp := clock w1;
      resumen :=
        {| total := Z.of_nat (List.length comprobantesLocales);
           verificados := nv;
           discrepancias := Z.of_nat (List.length (a_discrepancias a));
           errores := Z.of_nat (List.length (a_errores a));
           tasaExito := if 0 <? total then JsNumber.percent nv total else 100 |};
      r_discrepancias := a_discrepancias a;
      r_errores := a_errores a;
      r_verificados := Js.slice (a_verificados a) 0 10;
      porSeveridad :=
        {| critical := count_severity CRITICAL (a_discrepancias a);
           high := count_severity HIGH (a_discrepancias a);
           medium := count_severity MEDIUM (a_discrepancias a);
           low := count_severity LOW (a_discrepancias a) |} |}, w1).

End Service.

(** *** A sample Biller for the scenarios

    Biller holds one comprobante, [emitido]; nothing else is found. *)

Definition emitido : Comprobante :=
  mkComprobante (Some "9001") (Some "order-1001") (Some "1001")
    (Some 101) (Some "A") (Some 57) (Some "90210").

Definition perdido : Comprobante :=
  mkComprobante (Some "9002") (Some "order-1002") (Some "1002")
    (Some 101) (Some "A") (Some 58) (Some "90211").

Definition sample_obtener (id : string) (w : unit) : Settled * unit :=
  if String.eqb id "9001" then (Returns (Some emitido), w)
  else (Throws (Some 404) "Not Found", w).

Definition sample_buscar (numero : string) (w : unit) : Settled * unit :=
  if String.eqb numero "shopify-1001" then (Returns (Some emitido), w)
  else (Returns None, w).

Definition sample_clock (w : unit) : Z := 1700000000000.

(** A local record whose id Biller does not know, while its order number
    leads to [emitido]. *)
Definition por_numero : Comprobante :=
  mkComprobante (Some "9003") (Some "order-1001") (Some "1001")
    (Some 101) (Some "A") (Some 57) (Some "90210").

(** A Biller whose answers depend on its state, the number of lookups
    made so far: it knows [emitido] at the first lookup only. *)
Definition once_obtener (id : string) (calls : nat) : Settled * nat :=
  match calls with
  | O => (Returns (Some emitido), S calls)
  | _ => (Throws (Some 404) "Not Found", S calls)
  end.

Definition never_buscar (numero : string) (calls : nat) : Settled * nat :=
  (Returns None, S calls).

Definition calls_clock (calls : nat) : Z := 1700000000000 + Z.of_nat calls.

Definition sample_run (locales : list (option Comprobante)) : Reporte :=
  fst (_reconciliar sample_obtener sample_buscar sample_clock locales
         "20231114-221320-ab12" tt).

(** The two kinds of discrepancies that the loop files: a record missing
    in Biller, critical, and a record whose data differ, medium. *)
Definition filed_kind (d : Discrepancia) : Prop :=
  (d_tipo d = MISSING_IN_BILLER ∧ d_severity d = CRITICAL ∧ d_biller d = None) ∨
  (d_tipo d = DATA_MISMATCH ∧ d_severity d = MEDIUM ∧
   d_biller d ≠ None ∧ d_inconsistencias d ≠ []).

(** *** The history of saved reports *)

(** The report once [reconciliacionRapida] or [reconciliacionCompleta]
    has added [tipo] ('quick' or 'full'), [limit] and [duracionMs]. *)
Record Resultado := mkResultado {
  reporte : Reporte;
  tipo : string;
  limit : option Z;
  duracionMs : Z
}.

(** An element of [this.history]. *)
Record HistoryItem := mkHistoryItem {
  h_id : string;
  h_timestamp : Z;
  h_tipo : string;
  h_resumen : Resumen;
  h_filepath : string
}.

Section Reports.
(** [path.join] of Node.js. *)
Variable path_join : string → string → string.

Definition historyItem (reportsDir : string) (resultado : Resultado) : HistoryItem :=
  let filename := "reconciliation-" +:+ r_id (reporte resultado) +:+ ".json" in
  {| h_id := r_id (reporte resultado);
     h_timestamp := r_timestamp (reporte resultado);
     h_tipo := tipo resultado;
     h_resumen := resumen (reporte resultado);
     h_filepath := path_join reportsDir filename |}.

(** [_guardarReporte(resultado)] on [this.history]; [written] tells
    whether [fs.writeFileSync] returned ([true]) or threw. *)
Definition _guardarReporte (reportsDir : string) (history : list HistoryItem)
    (resultado : Resultado) (written : bool) : list HistoryItem :=
  if written then
    let history1 := historyItem reportsDir resultado :: history in
    if 30 <? Z.of_nat (List.length history1) then Js.slice history1 0 30
    else history1
  else history.

(** The history after a sequence of saves, starting from the empty
    history of the constructor. *)
Definition saved (reportsDir : string) (saves : list (Resultado * bool))
    : list HistoryItem :=
  fold_left (λ h sv, _guardarReporte reportsDir h (fst sv) (snd sv)) saves [].
End Reports.

End Reconciliation.

(** ** The store of issued comprobantes ([ComprobanteStore]) *)

Module ComprobanteStore.

Section WithFields.
(** The fields of a comprobante other than [created_at] and
    [shopify_order_id]. *)
Context {C : Type}.

(** An entry [{ ...comprobante, created_at, shopify_order_id }];
    [created_at] holds the instant kept as an ISO-8601 string. *)
Record Entry := mkEntry {
  fields : C;
  created_at : Z;
  shopify_order_id : string
}.

(** [this.data] and [this.dirty], once the constructor has loaded the
    file. *)
Record t := mkStore {
  data : list (string * Entry);
  dirty : bool
}.

(** [`shopify-${shopifyOrderId}`] *)
Definition mkKey (shopifyOrderId : string) : string :=
  "shopify-" +:+ shopifyOrderId.

Definition set (s : t) (now : Z) (shopifyOrderId : string) (comprobante : C)
    : Entry * t :=
  let key := mkKey shopifyOrderId in
  let entry := mkEntry comprobante now shopifyOrderId in
  (entry, mkStore (Js.map_set (data s) key entry) true).

Definition get (s : t) (shopifyOrderId : string) : option Entry :=
  Js.map_get (data s) (mkKey shopifyOrderId).

Definition getByKey (s : t) (key : string) : option Entry :=
  Js.map_get (data s) key.

Definition has (s : t) (shopifyOrderId : string) : bool :=
  Js.map_has (data s) (mkKey shopifyOrderId).

Definition size (s : t) : Z := Js.map_size (data s).

(** [cleanup(maxAgeDays = 90)] *)
Definition cleanup (s : t) (now : Z) (maxAgeDays : option Z) : Z * t :=
  let days := match maxAgeDays with Some d => d | None => 90 end in
  let cutoff := now - days * 24 * 60 * 60 * 1000 in
  let old (kv : string * Entry) := created_at (snd kv) <? cutoff in
  let removed := Z.of_nat (List.length (List.filter old (data s))) in
  (removed,
   mkStore (List.filter (λ kv, negb (old kv)) (data s))
     (if 0 <? removed then true else dirty s)).
End WithFields.

Arguments Entry : clear implicits.
Arguments t : clear implicits.

End ComprobanteStore.

(** * Verified properties *)

(** ** Deduplication gate *)

Module DedupeProofs.
Import Dedupe.

Lemma tryAcquire_false_iff s t r :
  fst (tryAcquire s t r) = false ↔ blocked s (mkKey t r).
Proof.
  unfold tryAcquire, blocked.
  destruct (decide (mkKey t r ∈ inProgress s)) as [Hi|Hi].
  - rewrite bool_decide_eq_true_2 by done. simpl. tauto.
  - rewrite bool_decide_eq_false_2 by done.
    destruct (decide (is_Some (processed s !! mkKey t r))) as [Hp|Hp].
    + rewrite bool_decide_eq_true_2 by done. simpl. tauto.
    + rewrite bool_decide_eq_false_2 by done. simpl.
      split; [discriminate|tauto].
Qed.

Lemma tryAcquire_true_iff s t r :
  fst (tryAcquire s t r) = true ↔
  (mkKey t r ∉ inProgress s) ∧ processed s !! (mkKey t r) = None.
Proof.
  rewrite <- not_false_iff_true, tryAcquire_false_iff. unfold blocked.
  rewrite eq_None_not_Some. tauto.
Qed.

Lemma tryAcquire_true_state s t r :
  fst (tryAcquire s t r) = true →
  snd (tryAcquire s t r) =
    mkStore (processed s) ({[ mkKey t r ]} ∪ inProgress s) (windowMs s).
Proof. unfold tryAcquire. repeat case_bool_decide; simpl; done. Qed.

Lemma tryAcquire_false_state s t r :
  fst (tryAcquire s t r) = false → snd (tryAcquire s t r) = s.
Proof. unfold tryAcquire. repeat case_bool_decide; simpl; done. Qed.

Lemma tryAcquire_inProgress_mono s t r k :
  k ∈ inProgress s → k ∈ inProgress (snd (tryAcquire s t r)).
Proof. unfold tryAcquire. repeat case_bool_decide; simpl; set_solver. Qed.

Lemma tryAcquire_processed s t r :
  processed (snd (tryAcquire s t r)) = processed s.
Proof. unfold tryAcquire. repeat case_bool_decide; done. Qed.

Lemma tryAcquire_windowMs s t r :
  windowMs (snd (tryAcquire s t r)) = windowMs s.
Proof. unfold tryAcquire. repeat case_bool_decide; done. Qed.

Lemma step_windowMs s e : windowMs (step s e) = windowMs s.
Proof.
  destruct e as [now [t r|t r|t r|]]; unfold step; simpl; try done.
  apply tryAcquire_windowMs.
Qed.

Lemma run_cons s e tr : run s (e :: tr) = run (step s e) tr.
Proof. reflexivity. Qed.

Lemma run_windowMs tr : ∀ s, windowMs (run s tr) = windowMs s.
Proof.
  induction tr as [|e tr IH]; intros s; [done|].
  by rewrite run_cons, IH, step_windowMs.
Qed.

Lemma step_holds s e k :
  k ∈ inProgress s → frees k (snd e) = false → k ∈ inProgress (step s e).
Proof.
  destruct e as [now [t r|t r|t r|]]; unfold step; simpl; intros Hk Hf.
  - by apply tryAcquire_inProgress_mono.
  - apply bool_decide_eq_false in Hf. set_solver.
  - apply bool_decide_eq_false in Hf. set_solver.
  - done.
Qed.

Lemma run_holds tr : ∀ s k,
  k ∈ inProgress s →
  forallb (λ e : event, negb (frees k (snd e))) tr = true →
  k ∈ inProgress (run s tr).
Proof.
  induction tr as [|e tr IH]; intros s k Hk Hall; [done|].
  simpl in Hall. apply andb_prop in Hall as [He Hall].
  apply negb_true_iff in He. rewrite run_cons.
  apply IH; [by apply step_holds|done].
Qed.

Lemma new_exclusive w : exclusive (new w).
Proof. intros k Hk. simpl in Hk. set_solver. Qed.

Lemma step_exclusive s e : exclusive s → exclusive (step s e).
Proof.
  intros Hex k. destruct e as [now [t r|t r|t r|]]; unfold step; simpl.
  - destruct (fst (tryAcquire s t r)) eqn:Hb.
    + rewrite (tryAcquire_true_state _ _ _ Hb). simpl.
      apply tryAcquire_true_iff in Hb as [_ Hnone].
      intros [->%elem_of_singleton|Hin]%elem_of_union; [done|by apply Hex].
    + rewrite (tryAcquire_false_state _ _ _ Hb). apply Hex.
  - intros [Hin Hne]%elem_of_difference.
    rewrite lookup_insert_ne; [by apply Hex|set_solver].
  - intros [Hin Hne]%elem_of_difference. by apply Hex.
  - intros Hin. apply map_lookup_filter_None. left. by apply Hex.
Qed.

Lemma run_exclusive tr : ∀ s, exclusive s → exclusive (run s tr).
Proof.
  induction tr as [|e tr IH]; intros s Hs; [done|].
  rewrite run_cons. by apply IH, step_exclusive.
Qed.

Lemma reachable_exclusive s : reachable s → exclusive s.
Proof. intros (w & tr & ->). apply run_exclusive, new_exclusive. Qed.

(** C1.  Mutual exclusion of the gate.  On a free key [tryAcquire]
    returns [true]; a second call right after any call returns [false];
    once a call has returned [true], every later call for the same key
    returns [false] as long as no [complete] or [release] of that key
    ran in between; and in every state reached from a fresh store no key
    is both in flight and completed. *)
Theorem tryAcquire_mutual_exclusion (s : store) (topic resourceId : string) :
  let k := mkKey topic resourceId in
  let s1 := snd (tryAcquire s topic resourceId) in
  (k ∉ inProgress s → processed s !! k = None →
     fst (tryAcquire s topic resourceId) = true) ∧
  fst (tryAcquire s1 topic resourceId) = false ∧
  (∀ mid : list event,
     fst (tryAcquire s topic resourceId) = true →
     forallb (λ e : event, negb (frees k (snd e))) mid = true →
     fst (tryAcquire (run s1 mid) topic resourceId) = false) ∧
  (reachable s → ∀ k', k' ∈ inProgress s → processed s !! k' = None).
Proof.
  intros k s1. repeat split.
  - intros Hk Hp. by apply tryAcquire_true_iff.
  - apply tryAcquire_false_iff. subst s1.
    destruct (fst (tryAcquire s topic resourceId)) eqn:Hb.
    + rewrite (tryAcquire_true_state _ _ _ Hb). left. simpl. set_solver.
    + rewrite (tryAcquire_false_state _ _ _ Hb). by apply tryAcquire_false_iff.
  - intros mid Hb Hmid. apply tryAcquire_false_iff. left.
    apply run_holds; [|done]. subst s1.
    rewrite (tryAcquire_true_state _ _ _ Hb). simpl. set_solver.
  - apply reachable_exclusive.
Qed.

Lemma tryAcquire_mutual_exclusion_witness :
  fst (tryAcquire (new None) "orders/paid" "42") = true ∧
  fst (tryAcquire (snd (tryAcquire (new None) "orders/paid" "42"))
         "orders/paid" "42") = false ∧
  fst (tryAcquire
         (run (snd (tryAcquire (new None) "orders/paid" "42"))
            [(10, Cleanup); (20, TryAcquire "orders/paid" "43");
             (30, Complete "orders/paid" "43")])
         "orders/paid" "42") = false ∧
  (∀ k', k' ∈ inProgress (new None) → processed (new None) !! k' = None).
Proof.
  destruct (tryAcquire_mutual_exclusion (new None) "orders/paid" "42")
    as (H1 & H2 & H3 & H4).
  assert (Hfree : fst (tryAcquire (new None) "orders/paid" "42") = true).
  { apply H1; [apply not_elem_of_empty | reflexivity]. }
  split; [exact Hfree|]. split; [exact H2|]. split.
  - apply H3; [exact Hfree | vm_compute; reflexivity].
  - apply H4. exists None, []. reflexivity.
Defined.

(** C2, as stated, fails: at 320 s the window of the completion made at
    10 s has elapsed and the key is not in flight, yet [tryAcquire]
    returns [false], because the sweep has not run since. *)
Lemma tryAcquire_after_window_counterexample :
  let s := run (new (Some 300000)) late_trace in
  windowMs s = 300000 ∧
  processed s !! (mkKey "orders/paid" "42") = Some 10000 ∧
  completedWithinWindow s 320000 (mkKey "orders/paid" "42") = false ∧
  (mkKey "orders/paid" "42" ∉ inProgress s) ∧
  fst (tryAcquire s "orders/paid" "42") = false.
Proof.
  assert (Hp : processed (run (new (Some 300000)) late_trace)
               !! (mkKey "orders/paid" "42") = Some 10000)
    by (vm_compute; reflexivity).
  cbv zeta. split; [reflexivity|]. split; [exact Hp|]. split; [|split].
  - unfold completedWithinWindow. rewrite Hp. reflexivity.
  - intros Hin.
    pose proof (reachable_exclusive _
      (ex_intro _ (Some 300000) (ex_intro _ late_trace eq_refl)) _ Hin) as Hn.
    rewrite Hp in Hn. discriminate.
  - apply tryAcquire_false_iff. right. rewrite Hp. by eexists.
Qed.

Lemma cleanup_lookup s now k ts :
  processed (cleanup s now) !! k = Some ts ↔
  processed s !! k = Some ts ∧ now - ts ≤ windowMs s.
Proof.
  unfold cleanup. simpl. rewrite map_lookup_filter_Some. simpl.
  split; intros [H1 H2]; (split; [done|lia]).
Qed.

Lemma step_keeps_record s e k t0 :
  (∃ ts, processed s !! k = Some ts ∧ t0 ≤ ts) →
  t0 ≤ fst e ≤ t0 + windowMs s →
  ∃ ts, processed (step s e) !! k = Some ts ∧ t0 ≤ ts.
Proof.
  intros (ts & Hts & Hle) Hwin.
  destruct e as [now [t r|t r|t r|]]; unfold step; simpl in *.
  - rewrite tryAcquire_processed. eauto.
  - destruct (decide (mkKey t r = k)) as [->|Hne].
    + exists now. rewrite lookup_insert_eq. split; [done|lia].
    + exists ts. by rewrite lookup_insert_ne.
  - eauto.
  - exists ts. split; [|done]. apply map_lookup_filter_Some. simpl.
    split; [done|lia].
Qed.

Lemma run_keeps_record tr : ∀ s k t0,
  (∃ ts, processed s !! k = Some ts ∧ t0 ≤ ts) →
  within t0 (t0 + windowMs s) tr →
  ∃ ts, processed (run s tr) !! k = Some ts ∧ t0 ≤ ts.
Proof.
  induction tr as [|e tr IH]; intros s k t0 Hrec Hwin; [done|].
  rewrite run_cons. inversion Hwin as [|? ? He Htr]; subst.
  apply IH; [by apply step_keeps_record|].
  by rewrite step_windowMs.
Qed.

(** C2, amended.  [tryAcquire] returns [false] exactly when the key is in
    flight or still holds a completion record; otherwise it marks the
    key in flight, changes nothing else and returns [true].  A
    completion record is removed only by the sweep, which keeps the
    records that are at most [windowMs] old.  Hence after [complete] at
    [t0] every [tryAcquire] during the window returns [false], whatever
    calls and sweeps happen meanwhile, and it returns [true] right after
    a sweep that runs later than [t0 + windowMs]. *)
Theorem tryAcquire_window_semantics (s : store) (topic resourceId : string) :
  let k := mkKey topic resourceId in
  (fst (tryAcquire s topic resourceId) = false ↔
     k ∈ inProgress s ∨ is_Some (processed s !! k)) ∧
  (fst (tryAcquire s topic resourceId) = true →
     snd (tryAcquire s topic resourceId) =
       mkStore (processed s) ({[ k ]} ∪ inProgress s) (windowMs s)) ∧
  (fst (tryAcquire s topic resourceId) = false →
     snd (tryAcquire s topic resourceId) = s) ∧
  (∀ now k' ts,
     processed (cleanup s now) !! k' = Some ts ↔
     processed s !! k' = Some ts ∧ now - ts ≤ windowMs s) ∧
  (∀ t0 tr,
     within t0 (t0 + windowMs s) tr →
     fst (tryAcquire (run (complete s t0 topic resourceId) tr)
            topic resourceId) = false) ∧
  (∀ t0 t1,
     t0 + windowMs s < t1 →
     fst (tryAcquire (cleanup (complete s t0 topic resourceId) t1)
            topic resourceId) = true).
Proof.
  intros k. split; [apply tryAcquire_false_iff|].
  split; [apply tryAcquire_true_state|].
  split; [apply tryAcquire_false_state|].
  split; [apply cleanup_lookup|]. split.
  - intros t0 tr Hwin. apply tryAcquire_false_iff. right.
    destruct (run_keeps_record tr (complete s t0 topic resourceId) k t0)
      as (ts & Hts & _).
    + exists t0. simpl. rewrite lookup_insert_eq. split; [done|lia].
    + exact Hwin.
    + subst k. rewrite Hts. by eexists.
  - intros t0 t1 Hlt. apply tryAcquire_true_iff. split.
    + simpl. rewrite elem_of_difference, elem_of_singleton. tauto.
    + simpl. apply map_lookup_filter_None. right. intros ts Hts.
      rewrite lookup_insert_eq in Hts.
      injection Hts as <-. simpl. lia.
Qed.

Lemma tryAcquire_window_semantics_witness :
  fst (tryAcquire (new None) "orders/paid" "42") = true ∧
  snd (tryAcquire (new None) "orders/paid" "42") =
    mkStore ∅ ({[ "orders/paid:42" ]} ∪ ∅) default_windowMs ∧
  fst (tryAcquire
         (run (complete (new None) 1000 "orders/paid" "42")
            [(2000, TryAcquire "orders/paid" "42"); (60000, Cleanup);
             (300000, Cleanup)])
         "orders/paid" "42") = false ∧
  fst (tryAcquire (cleanup (complete (new None) 1000 "orders/paid" "42") 360000)
         "orders/paid" "42") = true.
Proof.
  destruct (tryAcquire_window_semantics (new None) "orders/paid" "42")
    as (H1 & H2 & H3 & H4 & H5 & H6).
  assert (Hfree : fst (tryAcquire (new None) "orders/paid" "42") = true)
    by (vm_compute; reflexivity).
  split; [exact Hfree|]. split; [exact (H2 Hfree)|]. split.
  - apply (H5 1000). unfold within. simpl. unfold default_windowMs.
    repeat (constructor; [simpl; lia|]). constructor.
  - apply (H6 1000 360000). simpl. unfold default_windowMs. lia.
Defined.

End DedupeProofs.

(** ** Circuit breaker *)

Module CircuitBreakerProofs.
Import CircuitBreaker.

(** Case analysis on every test met in the goal. *)
Ltac case_ifs :=
  repeat (match goal with
          | |- context [if ?c then _ else _] => destruct c
          end; simpl; try done).

Lemma _cleanupMetrics_frame b now :
  state (_cleanupMetrics b now) = state b ∧
  failures (_cleanupMetrics b now) = failures b ∧
  failureThreshold (_cleanupMetrics b now) = failureThreshold b ∧
  volumeThreshold (_cleanupMetrics b now) = volumeThreshold b ∧
  timeout (_cleanupMetrics b now) = timeout b.
Proof. done. Qed.

Lemma recordFailure_closed b now e lat :
  state b = CLOSED →
  state (recordFailure b now e lat) =
    if (volumeThreshold b <=? callsObserved b now)
       && (failureThreshold b <=? failures b + 1)
    then OPEN else CLOSED.
Proof.
  intros Hst. unfold recordFailure. simpl. rewrite Hst.
  unfold _shouldOpen, callsObserved. simpl.
  rewrite List.filter_app, List.length_app, Nat2Z.inj_add. simpl.
  set (n := Z.of_nat (List.length (List.filter _ (callsInWindow (metrics b))))).
  assert (Hlen : Z.of_nat (List.length
            (if now - windowDuration b <? now
             then [mkCall now false lat
                     match e with Some e0 => err_message e0 | None => None end]
             else [])) = if now - windowDuration b <? now then 1 else 0)
    by (destruct (now - windowDuration b <? now); reflexivity).
  rewrite Hlen.
  set (m := n + (if now - windowDuration b <? now then 1 else 0)).
  destruct (m <? volumeThreshold b) eqn:Hvol.
  - apply Z.ltb_lt in Hvol.
    rewrite (proj2 (Z.leb_gt (volumeThreshold b) m)) by lia. simpl. done.
  - apply Z.ltb_ge in Hvol.
    rewrite (proj2 (Z.leb_le (volumeThreshold b) m)) by lia. simpl.
    destruct (failureThreshold b <=? failures b + 1); simpl; done.
Qed.

Lemma recordFailure_failures_closed b now e lat :
  state b = CLOSED → failures (recordFailure b now e lat) = failures b + 1.
Proof.
  intros Hst. unfold recordFailure. simpl. rewrite Hst.
  unfold _shouldOpen. simpl.
  case_ifs.
Qed.

Lemma recordFailure_opens_at b now e lat :
  state b ≠ OPEN → state (recordFailure b now e lat) = OPEN →
  nextAttemptTime (recordFailure b now e lat) = Some (now + timeout b).
Proof.
  unfold recordFailure. simpl. destruct (state b) eqn:Hst; [|done|done].
  intros _. unfold _shouldOpen. simpl.
  case_ifs; rewrite Hst; done.
Qed.

Lemma recordFailure_config b now e lat :
  failureThreshold (recordFailure b now e lat) = failureThreshold b ∧
  volumeThreshold (recordFailure b now e lat) = volumeThreshold b ∧
  timeout (recordFailure b now e lat) = timeout b ∧
  windowDuration (recordFailure b now e lat) = windowDuration b ∧
  name (recordFailure b now e lat) = name b.
Proof.
  unfold recordFailure. simpl. destruct (state b); simpl; [|done|done].
  unfold _shouldOpen. simpl.
  case_ifs.
Qed.


Lemma canExecute_open_early b now t :
  state b = OPEN → nextAttemptTime b = Some t → now < t →
  canExecute b now = (false, b).
Proof.
  intros Hst Hn Hlt. unfold canExecute, attempt_due. rewrite Hst, Hn.
  by rewrite (proj2 (Z.leb_gt _ _)) by lia.
Qed.

Lemma canExecute_open_due b now t :
  state b = OPEN → nextAttemptTime b = Some t → t ≤ now →
  canExecute b now = (true, _transitionTo b now HALF_OPEN).
Proof.
  intros Hst Hn Hle. unfold canExecute, attempt_due. rewrite Hst, Hn.
  by rewrite (proj2 (Z.leb_le _ _)) by lia.
Qed.

(** C3.  While CLOSED, [recordFailure] opens the circuit exactly when the
    failure count, this failure included, has reached [failureThreshold]
    and the calls recorded within the trailing window, this one included,
    have reached [volumeThreshold]; otherwise the circuit stays CLOSED.
    With [failureThreshold = 3] and [volumeThreshold = 1], three recorded
    failures leave a new breaker OPEN, and [canExecute()] is then [false]
    until the timeout has elapsed. *)
Theorem recordFailure_opening_condition :
  (∀ b now e lat,
     state b = CLOSED →
     let b' := recordFailure b now e lat in
     failures b' = failures b + 1 ∧
     (state b' = OPEN ↔
        failureThreshold b ≤ failures b' ∧ volumeThreshold b ≤ callsObserved b now) ∧
     (state b' ≠ OPEN → state b' = CLOSED)) ∧
  (∀ o t1 t2 t3 e1 e2 e3 l1 l2 l3 now,
     failureThreshold (new o) = 3 → volumeThreshold (new o) = 1 →
     0 < windowDuration (new o) →
     let b3 := recordFailure (recordFailure (recordFailure (new o) t1 e1 l1)
                                t2 e2 l2) t3 e3 l3 in
     state (recordFailure (new o) t1 e1 l1) = CLOSED ∧
     state (recordFailure (recordFailure (new o) t1 e1 l1) t2 e2 l2) = CLOSED ∧
     state b3 = OPEN ∧
     (now < t3 + timeout (new o) → fst (canExecute b3 now) = false)).
Proof.
  split.
  - intros b now e lat Hst b'. subst b'.
    rewrite recordFailure_failures_closed by done.
    rewrite recordFailure_closed by done.
    split; [done|].
    destruct (volumeThreshold b <=? callsObserved b now) eqn:Hv;
      destruct (failureThreshold b <=? failures b + 1) eqn:Hf; simpl;
      try apply Z.leb_le in Hv; try apply Z.leb_le in Hf;
      try apply Z.leb_gt in Hv; try apply Z.leb_gt in Hf;
      (split; [split; [intros; try discriminate; lia | intros; try done; lia]
              | intros; try done]).
  - intros o t1 t2 t3 e1 e2 e3 l1 l2 l3 now Hft0 Hvt0 Hwd0 b3.
    assert (Hs0 : state (new o) = CLOSED) by done.
    assert (Hf0 : failures (new o) = 0) by done.
    revert b3 Hft0 Hvt0 Hwd0 Hs0 Hf0. generalize (new o). intros b0.
    intros b3 Hft0 Hvt0 Hwd0 Hs0 Hf0.
    set (b1 := recordFailure b0 t1 e1 l1) in *.
    assert (H1 : state b1 = CLOSED).
    { subst b1. rewrite recordFailure_closed by done.
      rewrite Hft0, Hf0. simpl. by rewrite andb_false_r. }
    assert (Hf1 : failures b1 = 1).
    { subst b1. rewrite recordFailure_failures_closed by done. lia. }
    destruct (recordFailure_config b0 t1 e1 l1) as (Hft1 & Hvt1 & Hto1 & Hwd1 & _).
    fold b1 in Hft1, Hvt1, Hto1, Hwd1.
    set (b2 := recordFailure b1 t2 e2 l2) in *.
    assert (H2 : state b2 = CLOSED).
    { subst b2. rewrite recordFailure_closed by done.
      rewrite Hft1, Hft0, Hf1. simpl. by rewrite andb_false_r. }
    assert (Hf2 : failures b2 = 2).
    { subst b2. rewrite recordFailure_failures_closed by done. lia. }
    destruct (recordFailure_config b1 t2 e2 l2) as (Hft2 & Hvt2 & Hto2 & Hwd2 & _).
    fold b2 in Hft2, Hvt2, Hto2, Hwd2.
    assert (H3 : state b3 = OPEN).
    { subst b3. rewrite recordFailure_closed by done.
      rewrite Hft2, Hft1, Hft0, Hf2, Hvt2, Hvt1, Hvt0. simpl.
      assert (1 ≤ callsObserved b2 t3) as ->%Z.leb_le; [|done].
      unfold callsObserved. rewrite Hwd2, Hwd1.
      rewrite (proj2 (Z.ltb_lt (t3 - windowDuration b0) t3)) by lia. lia. }
    split; [exact H1|]. split; [exact H2|]. split; [exact H3|].
    intros Hnow.
    assert (Hn : nextAttemptTime b3 = Some (t3 + timeout b0)).
    { subst b3. rewrite <- Hto1, <- Hto2.
      apply recordFailure_opens_at; [by rewrite H2|exact H3]. }
    by rewrite (canExecute_open_early b3 now _ H3 Hn Hnow).
Qed.

Lemma recordFailure_opening_condition_witness :
  (state (recordFailure (new options_3_1) 1000 None 5) = OPEN ↔
     3 ≤ failures (recordFailure (new options_3_1) 1000 None 5)
     ∧ 1 ≤ callsObserved (new options_3_1) 1000) ∧
  state (recordFailure (recordFailure (recordFailure (new options_3_1)
           1000 None 5) 2000 None 5) 3000 None 5) = OPEN ∧
  fst (canExecute (recordFailure (recordFailure (recordFailure (new options_3_1)
           1000 None 5) 2000 None 5) 3000 None 5) 3001) = false.
Proof.
  destruct recordFailure_opening_condition as [H1 H2].
  split.
  - apply (H1 (new options_3_1) 1000 None 5). reflexivity.
  - destruct (H2 options_3_1 1000 2000 3000 None None None 5 5 5 3001)
      as (_ & _ & H3 & H4); [reflexivity|reflexivity|simpl; lia|].
    split; [exact H3|]. apply H4. simpl. lia.
Defined.

Section Execute.
Context {W R : Type}.
Implicit Types (w : W) (fn : W → Settled R * W) (fb : Fallback R).


Lemma execute_rejected b w now fn fb endTime t :
  state b = OPEN → nextAttemptTime b = Some t → now < t →
  execute b w now fn fb endTime = (rejection b fb, recordRejection b, w).
Proof.
  intros Hst Hn Hlt. unfold execute.
  rewrite (canExecute_open_early b now t Hst Hn Hlt). simpl.
  destruct fb; reflexivity.
Qed.



(** C5.  While the circuit is OPEN and the next attempt is not yet due,
    [canExecute()] is [false] and changes nothing, and [execute]
    rejects the call without calling the dependency: it adds one to
    [rejectedCalls] and leaves every other field of the breaker as it
    was, among them the failure and success counters, the state and
    the window of call records. *)
Theorem rejection_frame (b : Breaker) (t now : Z) w fn fb endTime :
  state b = OPEN → nextAttemptTime b = Some t → now < t →
  let b' := snd (fst (execute b w now fn fb endTime)) in
  canExecute b now = (false, b) ∧
  execute b w now fn fb endTime = (rejection b fb, b', w) ∧
  rejectedCalls (metrics b') = rejectedCalls (metrics b) + 1 ∧
  b' = set_metrics b
         (mkMetrics (totalCalls (metrics b)) (successfulCalls (metrics b))
            (failedCalls (metrics b)) (rejectedCalls (metrics b) + 1)
            (timeouts (metrics b)) (latencies (metrics b))
            (callsInWindow (metrics b))) ∧
  failures b' = failures b ∧
  successes b' = successes b ∧
  consecutiveSuccesses b' = consecutiveSuccesses b ∧
  state b' = state b ∧
  nextAttemptTime b' = nextAttemptTime b ∧
  callsInWindow (metrics b') = callsInWindow (metrics b) ∧
  failedCalls (metrics b') = failedCalls (metrics b) ∧
  successfulCalls (metrics b') = successfulCalls (metrics b) ∧
  totalCalls (metrics b') = totalCalls (metrics b).
Proof.
  intros Hst Hn Hlt b'. subst b'.
  rewrite (execute_rejected b w now fn fb endTime t Hst Hn Hlt). simpl.
  split; [exact (canExecute_open_early b now t Hst Hn Hlt)|].
  repeat split.
Qed.
End Execute.


Lemma rejection_frame_witness :
  canExecute opened 3500 = (false, opened) ∧
  rejectedCalls (metrics (snd (fst
    (execute opened 0%nat 3500 failing_dependency FbNull 3600)))) = 1 ∧
  failures (snd (fst
    (execute opened 0%nat 3500 failing_dependency FbNull 3600))) = 3 ∧
  state (snd (fst
    (execute opened 0%nat 3500 failing_dependency FbNull 3600))) = OPEN.
Proof.
  destruct (rejection_frame (W:=nat) (R:=string) opened 33000 3500 0%nat
              failing_dependency FbNull 3600)
    as (Hcan & _ & Hrej & _ & Hf & _ & _ & Hst & _);
    [reflexivity | reflexivity | lia |].
  split; [exact Hcan|]. split; [exact Hrej|]. split; [exact Hf|exact Hst].
Defined.

End CircuitBreakerProofs.

(** ** JavaScript maps *)

Module JsProofs.
Import Js.

Section JsMap.
Context {V : Type}.
Implicit Types (m : list (string * V)) (k : string) (v : V).

Lemma map_get_set_eq m k v : map_get (map_set m k v) k = Some v.
Proof.
  induction m as [|[k' v'] m IH]; simpl.
  - by rewrite String.eqb_refl.
  - destruct (String.eqb k' k) eqn:E; simpl; rewrite E; [done|exact IH].
Qed.

Lemma map_get_set_ne m k k' v :
  k ≠ k' → map_get (map_set m k v) k' = map_get m k'.
Proof.
  intros Hne. induction m as [|[k0 v0] m IH]; simpl.
  - by rewrite (proj2 (String.eqb_neq k k')).
  - destruct (String.eqb k0 k) eqn:E; simpl.
    + apply String.eqb_eq in E as ->.
      by rewrite (proj2 (String.eqb_neq k k')).
    + by rewrite IH.
Qed.

Lemma map_get_delete_eq m k : map_get (map_delete m k) k = None.
Proof.
  unfold map_delete. induction m as [|[k' v'] m IH]; simpl; [done|].
  destruct (String.eqb k' k) eqn:E; simpl; [exact IH|]. by rewrite E.
Qed.

Lemma map_get_In m k v : map_get m k = Some v → In (k, v) m.
Proof.
  induction m as [|[k' v'] m IH]; simpl; [done|].
  destruct (String.eqb k' k) eqn:E.
  - apply String.eqb_eq in E as ->. intros [= ->]. by left.
  - intros H. right. by apply IH.
Qed.

Lemma map_get_None m k : map_get m k = None ↔ ¬ In k (map_keys m).
Proof.
  unfold map_keys. induction m as [|[k' v'] m IH]; simpl; [tauto|].
  destruct (String.eqb k' k) eqn:E.
  - apply String.eqb_eq in E. split; [done|]. intros H. destruct H. by left.
  - apply String.eqb_neq in E. rewrite IH. tauto.
Qed.

Lemma map_set_absent m k v :
  map_get m k = None → map_set m k v = m ++ [(k, v)].
Proof.
  induction m as [|[k' v'] m IH]; simpl; [done|].
  destruct (String.eqb k' k); [done|]. intros H. by rewrite IH.
Qed.

Lemma map_set_present_length m k v :
  map_get m k ≠ None → List.length (map_set m k v) = List.length m.
Proof.
  induction m as [|[k' v'] m IH]; simpl; [done|].
  destruct (String.eqb k' k); simpl; [done|]. intros H. by rewrite IH.
Qed.

Lemma map_set_keys m k v :
  ∀ k', In k' (map_keys (map_set m k v)) → k' = k ∨ In k' (map_keys m).
Proof.
  unfold map_keys. induction m as [|[k0 v0] m IH]; simpl; intros k'.
  - intros [<-|[]]. by left.
  - destruct (String.eqb k0 k) eqn:E; simpl.
    + tauto.
    + intros [<-|H]; [tauto|]. destruct (IH _ H); tauto.
Qed.

Lemma map_delete_length_le m k :
  (List.length (map_delete m k) ≤ List.length m)%nat.
Proof. apply List.filter_length_le. Qed.

Lemma map_delete_length_lt m k v :
  In (k, v) m → (List.length (map_delete m k) < List.length m)%nat.
Proof.
  unfold map_delete. induction m as [|[k' v'] m IH]; simpl; [done|].
  intros [[= -> ->]|Hin].
  - rewrite String.eqb_refl. simpl.
    pose proof (List.filter_length_le (λ kv, negb (String.eqb (fst kv) k)) m).
    lia.
  - specialize (IH Hin). destruct (negb (String.eqb k' k)); simpl; lia.
Qed.

Lemma map_delete_keys m k :
  ∀ k', In k' (map_keys (map_delete m k)) → In k' (map_keys m).
Proof.
  unfold map_keys, map_delete. intros k' Hin.
  apply List.in_map_iff in Hin as (kv & <- & Hkv).
  apply List.filter_In in Hkv as [Hkv _]. by apply List.in_map.
Qed.

Lemma map_get_delete_ne m k k' :
  k ≠ k' → map_get (map_delete m k) k' = map_get m k'.
Proof.
  intros Hne. unfold map_delete.
  induction m as [|[k0 v0] m IH]; simpl; [done|].
  destruct (String.eqb k0 k) eqn:E; simpl.
  - apply String.eqb_eq in E as ->.
    by rewrite (proj2 (String.eqb_neq k k')).
  - by rewrite IH.
Qed.

Lemma map_set_length_le m k v :
  (List.length (map_set m k v) ≤ S (List.length m))%nat.
Proof.
  induction m as [|[k' v'] m IH]; simpl; [lia|].
  destruct (String.eqb k' k); simpl; lia.
Qed.

Lemma map_set_NoDup m k v :
  NoDup (map_keys m) → NoDup (map_keys (map_set m k v)).
Proof.
  unfold map_keys. induction m as [|[k' v'] m IH]; simpl; intros Hnd.
  - constructor; [apply not_elem_of_nil|constructor].
  - apply NoDup_cons in Hnd as [Hnotin Hnd].
    destruct (String.eqb k' k) eqn:E; simpl.
    + apply NoDup_cons. done.
    + apply NoDup_cons. split; [|by apply IH].
      intros Hin. apply list_elem_of_In in Hin.
      destruct (map_set_keys m k v k' Hin) as [->|Hin'].
      * by rewrite String.eqb_refl in E.
      * apply Hnotin. by apply list_elem_of_In.
Qed.

Lemma filter_NoDup_keys (f : string * V → bool) m :
  NoDup (map_keys m) → NoDup (map_keys (List.filter f m)).
Proof.
  unfold map_keys. induction m as [|kv m IH]; simpl; intros Hnd; [done|].
  apply NoDup_cons in Hnd as [Hnotin Hnd].
  destruct (f kv); simpl; [|by apply IH].
  apply NoDup_cons. split; [|by apply IH].
  intros Hin. apply Hnotin. apply list_elem_of_In in Hin.
  apply list_elem_of_In.
  apply List.in_map_iff in Hin as (kv' & Heq & Hkv').
  apply List.filter_In in Hkv' as [Hkv' _].
  rewrite <- Heq. by apply List.in_map.
Qed.

Lemma map_delete_length_NoDup m k v :
  NoDup (map_keys m) → In (k, v) m →
  S (List.length (map_delete m k)) = List.length m.
Proof.
  unfold map_keys, map_delete.
  induction m as [|[k' v'] m IH]; simpl; intros Hnd Hin; [done|].
  apply NoDup_cons in Hnd as [Hnotin Hnd].
  destruct Hin as [[= -> ->]|Hin].
  - rewrite String.eqb_refl. simpl. f_equal.
    clear IH Hnd. induction m as [|[k1 v1] m IH]; simpl; [done|].
    simpl in Hnotin. apply not_elem_of_cons in Hnotin as [Hne Hnotin].
    rewrite (proj2 (String.eqb_neq k1 k)) by done. simpl.
    f_equal. by apply IH.
  - destruct (String.eqb k' k) eqn:E; simpl.
    + apply String.eqb_eq in E as ->. destruct Hnotin.
      apply list_elem_of_In. by apply (List.in_map fst _ (k, v)).
    + f_equal. by apply IH.
Qed.
End JsMap.
End JsProofs.

(** ** Lookup cache *)

Module CacheProofs.
Import Js JsProofs Cache.

Section WithValue.
Context {V : Type}.
Implicit Types (c : Cache.t V) (e : Entry V).

Lemma _generateKey_nonempty type key : _generateKey type key ≠ "".
Proof.
  unfold _generateKey. destruct type as [|a type]; simpl; discriminate.
Qed.

Lemma get_hit c now type key e :
  map_get (cache c) (_generateKey type key) = Some e →
  now ≤ expiresAt e →
  fst (get c now type key) = Some (value e) ∧
  map_get (cache (snd (get c now type key))) (_generateKey type key) =
    Some (mkEntry (value e) (createdAt e) (expiresAt e) now (hits e + 1)).
Proof.
  intros Hget Hle. unfold get. rewrite Hget.
  rewrite (proj2 (Z.ltb_ge (expiresAt e) now)) by lia. simpl.
  by rewrite map_get_set_eq.
Qed.

Lemma get_expired c now type key e :
  map_get (cache c) (_generateKey type key) = Some e →
  expiresAt e < now →
  fst (get c now type key) = None ∧
  map_get (cache (snd (get c now type key))) (_generateKey type key) = None.
Proof.
  intros Hget Hlt. unfold get. rewrite Hget.
  rewrite (proj2 (Z.ltb_lt (expiresAt e) now)) by lia. simpl.
  by rewrite map_get_delete_eq.
Qed.

Lemma set_stores c now type key (v : V) customTtl :
  map_get (cache (set c now type key v customTtl)) (_generateKey type key) =
    Some (mkEntry v now (now + num_or customTtl (ttl c)) now 0).
Proof.
  unfold set. cbn [cache]. by rewrite map_get_set_eq.
Qed.

(** C7.  An entry stored by [set] at time [t0] expires at [t0] plus the
    custom TTL, or the cache's TTL when none is given.  For every stored
    entry, [get] returns its value while [now] is not past the expiry,
    keeping value and expiry in place; once [now] is past the expiry,
    [get] returns [null] and the entry is gone from the cache.  With
    [ttl = 100], the value is returned at [t0] and missed at
    [t0 + 150]. *)
Theorem get_respects_expiry :
  (∀ c now type key e,
     map_get (cache c) (_generateKey type key) = Some e →
     (now ≤ expiresAt e →
        fst (get c now type key) = Some (value e) ∧
        ∃ e', map_get (cache (snd (get c now type key)))
                (_generateKey type key) = Some e'
              ∧ value e' = value e ∧ expiresAt e' = expiresAt e) ∧
     (expiresAt e < now →
        fst (get c now type key) = None ∧
        map_has (cache (snd (get c now type key)))
          (_generateKey type key) = false)) ∧
  (∀ c t0 type key (v : V) customTtl now,
     let c1 := set c t0 type key v customTtl in
     let expiry := t0 + num_or customTtl (ttl c) in
     (now ≤ expiry → fst (get c1 now type key) = Some v) ∧
     (expiry < now →
        fst (get c1 now type key) = None ∧
        map_has (cache (snd (get c1 now type key)))
          (_generateKey type key) = false)) ∧
  (∀ c t0 type key (v : V),
     let c1 := set c t0 type key v (Some 100) in
     fst (get c1 t0 type key) = Some v ∧
     fst (get c1 (t0 + 150) type key) = None).
Proof.
  assert (Hgen : ∀ c now type key e,
     map_get (cache c) (_generateKey type key) = Some e →
     (now ≤ expiresAt e →
        fst (get c now type key) = Some (value e) ∧
        ∃ e', map_get (cache (snd (get c now type key)))
                (_generateKey type key) = Some e'
              ∧ value e' = value e ∧ expiresAt e' = expiresAt e) ∧
     (expiresAt e < now →
        fst (get c now type key) = None ∧
        map_has (cache (snd (get c now type key)))
          (_generateKey type key) = false)).
  { intros c now type key e Hget. split.
    - intros Hle. destruct (get_hit c now type key e Hget Hle) as [H1 H2].
      split; [exact H1|]. eexists. split; [exact H2|]. done.
    - intros Hlt. destruct (get_expired c now type key e Hget Hlt) as [H1 H2].
      split; [exact H1|]. unfold map_has. by rewrite H2. }
  assert (Hset : ∀ c t0 type key (v : V) customTtl now,
     let c1 := set c t0 type key v customTtl in
     let expiry := t0 + num_or customTtl (ttl c) in
     (now ≤ expiry → fst (get c1 now type key) = Some v) ∧
     (expiry < now →
        fst (get c1 now type key) = None ∧
        map_has (cache (snd (get c1 now type key)))
          (_generateKey type key) = false)).
  { intros c t0 type key v customTtl now c1 expiry.
    pose proof (set_stores c t0 type key v customTtl) as Hst.
    fold c1 in Hst. fold expiry in Hst.
    destruct (Hgen c1 now type key _ Hst) as [Hhit Hmiss]. simpl in *.
    split; [intros H; by destruct (Hhit H)|exact Hmiss]. }
  split; [exact Hgen|]. split; [exact Hset|].
  intros c t0 type key v c1.
  destruct (Hset c t0 type key v (Some 100) t0) as [H1 _].
  destruct (Hset c t0 type key v (Some 100) (t0 + 150)) as [_ H2].
  simpl in *. split; [apply H1; lia|]. apply H2. lia.
Qed.

Lemma oldest_spec (entries : list (string * Entry V)) :
  ∀ ok oa,
    match oldest entries ok oa with
    | None => ok = None ∧ (entries = [] ∨ oa ≠ None)
    | Some k =>
        (ok = Some k ∧
         ∀ k' e', In (k', e') entries →
                  match oa with Some a => a ≤ lastAccess e' | None => False end)
        ∨ (∃ e, In (k, e) entries
                ∧ (∀ k' e', In (k', e') entries → lastAccess e ≤ lastAccess e')
                ∧ match oa with Some a => lastAccess e < a | None => True end)
    end.
Proof.
  induction entries as [|[k e] rest IH]; intros ok oa; simpl.
  - destruct ok; [left; split; [done|]; intros ? ? []|split; [done|by left]].
  - destruct oa as [a|]; [destruct (lastAccess e <? a) eqn:Hlt|].
    + apply Z.ltb_lt in Hlt.
      specialize (IH (Some k) (Some (lastAccess e))).
      destruct (oldest rest (Some k) (Some (lastAccess e))) as [k1|].
      * right. destruct IH as [[[= <-] Hall]|(e1 & Hin & Hall & Hlt1)].
        -- exists e. split; [by left|]. split; [|done].
           intros k' e' [[= <- <-]|Hin']; [lia|]. exact (Hall _ _ Hin').
        -- exists e1. split; [by right|]. split; [|lia].
           intros k' e' [[= <- <-]|Hin']; [lia|]. exact (Hall _ _ Hin').
      * by destruct IH as [? _].
    + apply Z.ltb_ge in Hlt. specialize (IH ok (Some a)).
      destruct (oldest rest ok (Some a)) as [k1|].
      * destruct IH as [[-> Hall]|(e1 & Hin & Hall & Hlt1)].
        -- left. split; [done|].
           intros k' e' [[= <- <-]|Hin']; [lia|]. exact (Hall _ _ Hin').
        -- right. exists e1. split; [by right|]. split; [|done].
           intros k' e' [[= <- <-]|Hin']; [lia|]. exact (Hall _ _ Hin').
      * destruct IH as [-> _]. split; [done|by right].
    + specialize (IH (Some k) (Some (lastAccess e))).
      destruct (oldest rest (Some k) (Some (lastAccess e))) as [k1|].
      * right. destruct IH as [[[= <-] Hall]|(e1 & Hin & Hall & Hlt1)].
        -- exists e. split; [by left|]. split; [|done].
           intros k' e' [[= <- <-]|Hin']; [lia|]. exact (Hall _ _ Hin').
        -- exists e1. split; [by right|]. split; [|done].
           intros k' e' [[= <- <-]|Hin']; [lia|]. exact (Hall _ _ Hin').
      * by destruct IH as [? _].
Qed.

Lemma _evictOne_spec c :
  cache c ≠ [] → keys_ok (cache c) →
  ∃ vk ve,
    In (vk, ve) (cache c) ∧
    (∀ k' e', In (k', e') (cache c) → lastAccess ve ≤ lastAccess e') ∧
    _evictOne c =
      mkCache (ttl c) (maxSize c) (map_delete (cache c) vk)
        (mkStats (st_hits (stats c)) (st_misses (stats c))
           (st_sets (stats c)) (st_evictions (stats c) + 1)).
Proof.
  intros Hne [_ Hkeys]. unfold _evictOne.
  pose proof (oldest_spec (cache c) None None) as Hspec.
  destruct (oldest (cache c) None None) as [k|].
  - destruct Hspec as [[? _]|(e & Hin & Hall & _)]; [done|].
    exists k, e. split; [done|]. split; [done|].
    assert (Hk : k ≠ "").
    { apply Hkeys. unfold map_keys. by apply (List.in_map fst _ (k, e)). }
    by rewrite (proj2 (String.eqb_neq k "")).
  - destruct Hspec as [_ [?|?]]; done.
Qed.

Lemma keys_ok_filter (f : string * Entry V → bool) m :
  keys_ok m → keys_ok (List.filter f m).
Proof.
  intros [Hnd Hne]. split; [by apply filter_NoDup_keys|].
  intros k Hin. apply Hne. unfold map_keys in *.
  apply List.in_map_iff in Hin as (kv & <- & Hkv).
  apply List.filter_In in Hkv as [Hkv _]. by apply List.in_map.
Qed.

Lemma keys_ok_set m type key e :
  keys_ok m → keys_ok (map_set m (_generateKey type key) e).
Proof.
  intros [Hnd Hne]. split; [by apply map_set_NoDup|].
  intros k Hin. destruct (map_set_keys _ _ _ _ Hin) as [->|Hin'].
  - apply _generateKey_nonempty.
  - by apply Hne.
Qed.

Lemma _evictOne_frame c :
  maxSize (_evictOne c) = maxSize c ∧ ttl (_evictOne c) = ttl c.
Proof.
  unfold _evictOne. destruct (oldest _ _ _) as [k|]; [|done].
  destruct (String.eqb k ""); done.
Qed.

Lemma set_maxSize c now type key (v : V) ct :
  maxSize (set c now type key v ct) = maxSize c.
Proof.
  unfold set. cbn [maxSize].
  destruct (_ && _); [apply _evictOne_frame|done].
Qed.

(** What [set] does when the cache is full and the key is new. *)
Lemma set_evicts c now type key (v : V) ct :
  0 < maxSize c → keys_ok (cache c) →
  maxSize c ≤ map_size (cache c) →
  map_has (cache c) (_generateKey type key) = false →
  ∃ vk ve,
    In (vk, ve) (cache c) ∧
    (∀ k' e', In (k', e') (cache c) → lastAccess ve ≤ lastAccess e') ∧
    cache (set c now type key v ct) =
      map_delete (cache c) vk ++
      [(_generateKey type key,
        mkEntry v now (now + num_or ct (ttl c)) now 0)] ∧
    map_size (cache (set c now type key v ct)) = map_size (cache c).
Proof.
  intros Hpos Hok Hfull Hnew.
  assert (Hne : cache c ≠ []).
  { intros Heq. rewrite Heq in Hfull. unfold map_size in Hfull. simpl in Hfull. lia. }
  destruct (_evictOne_spec c Hne Hok) as (vk & ve & Hin & Hmin & Hev).
  exists vk, ve. split; [done|]. split; [done|].
  assert (Habs : map_get (cache c) (_generateKey type key) = None).
  { unfold map_has in Hnew.
    by destruct (map_get (cache c) (_generateKey type key)). }
  assert (Hvk : vk ≠ _generateKey type key).
  { intros ->. apply map_get_None in Habs. apply Habs.
    unfold map_keys. by apply (List.in_map fst _ (_, ve)). }
  assert (Hcache : cache (set c now type key v ct) =
      map_delete (cache c) vk ++
      [(_generateKey type key,
        mkEntry v now (now + num_or ct (ttl c)) now 0)]).
  { unfold set. rewrite (proj2 (Z.leb_le _ _) Hfull), Hnew. cbn [andb negb].
    rewrite Hev. cbn [cache ttl]. apply map_set_absent.
    by rewrite map_get_delete_ne. }
  split; [exact Hcache|].
  rewrite Hcache. unfold map_size. rewrite List.length_app. simpl.
  destruct Hok as [Hnd _].
  pose proof (map_delete_length_NoDup _ _ _ Hnd Hin). lia.
Qed.

Lemma set_inv c now type key (v : V) ct :
  0 < maxSize c → keys_ok (cache c) → map_size (cache c) ≤ maxSize c →
  keys_ok (cache (set c now type key v ct)) ∧
  map_size (cache (set c now type key v ct)) ≤ maxSize c.
Proof.
  intros Hpos Hok Hsize.
  destruct ((maxSize c <=? map_size (cache c))
            && negb (map_has (cache c) (_generateKey type key))) eqn:Hcond.
  - apply andb_prop in Hcond as [Hfull Hnew].
    apply Z.leb_le in Hfull. apply negb_true_iff in Hnew.
    destruct (set_evicts c now type key v ct Hpos Hok Hfull Hnew)
      as (vk & ve & _ & _ & Hcache & Hsz).
    split; [|lia].
    unfold set. rewrite (proj2 (Z.leb_le _ _) Hfull), Hnew. cbn [andb negb cache].
    apply keys_ok_set.
    destruct (_evictOne_spec c) as (vk' & ve' & _ & _ & ->); [|done|].
    + intros Heq. rewrite Heq in Hfull. unfold map_size in Hfull.
      simpl in Hfull. lia.
    + cbn [cache]. by apply keys_ok_filter.
  - unfold set. rewrite Hcond. cbn [cache]. split; [by apply keys_ok_set|].
    apply andb_false_iff in Hcond as [Hroom|Hhas].
    + apply Z.leb_gt in Hroom. unfold map_size in *.
      pose proof (map_set_length_le (cache c) (_generateKey type key)
                    (mkEntry v now (now + num_or ct (ttl c)) now 0)). lia.
    + apply negb_false_iff in Hhas. unfold map_has in Hhas.
      unfold map_size. rewrite map_set_present_length; [done|].
      by destruct (map_get (cache c) (_generateKey type key)).
Qed.

Lemma step_inv c (o : op V) :
  0 < maxSize c → keys_ok (cache c) → map_size (cache c) ≤ maxSize c →
  maxSize (step c o) = maxSize c ∧
  keys_ok (cache (step c o)) ∧
  map_size (cache (step c o)) ≤ maxSize c.
Proof.
  intros Hpos Hok Hsize.
  destruct o as [now ty k|now ty k v ct|ty k|ty| |now]; cbn [step].
  - unfold get. destruct (map_get (cache c) (_generateKey ty k)) as [e|] eqn:Hget;
      [destruct (expiresAt e <? now)|]; cbn [snd cache maxSize miss].
    + split; [done|]. split; [by apply keys_ok_filter|].
      pose proof (map_delete_length_le (cache c) (_generateKey ty k)).
      unfold map_size in *. lia.
    + split; [done|]. split; [by apply keys_ok_set|].
      unfold map_size. rewrite map_set_present_length; [done|].
      by rewrite Hget.
    + done.
  - split; [apply set_maxSize|]. by apply set_inv.
  - cbn [invalidate snd cache maxSize]. split; [done|].
    split; [by apply keys_ok_filter|].
    pose proof (map_delete_length_le (cache c) (_generateKey ty k)).
    unfold map_size in *. lia.
  - cbn [invalidateType snd cache maxSize]. split; [done|].
    split; [by apply keys_ok_filter|].
    pose proof (List.filter_length_le
      (λ kv : string * Entry V, negb (String.prefix (ty +:+ ":") (fst kv)))
      (cache c)).
    unfold map_size in *. lia.
  - cbn [clear cache maxSize]. split; [done|].
    split; [split; [constructor|intros ? []]|]. unfold map_size. simpl. lia.
  - cbn [_cleanup cache maxSize]. split; [done|].
    split; [by apply keys_ok_filter|].
    pose proof (List.filter_length_le
      (λ kv : string * Entry V, negb (expiresAt (snd kv) <? now)) (cache c)).
    unfold map_size in *. lia.
Qed.

Lemma run_inv ops : ∀ c,
  0 < maxSize c → keys_ok (cache c) → map_size (cache c) ≤ maxSize c →
  maxSize (run c ops) = maxSize c ∧
  keys_ok (cache (run c ops)) ∧
  map_size (cache (run c ops)) ≤ maxSize c.
Proof.
  induction ops as [|o ops IH]; intros c Hpos Hok Hsize; [done|].
  destruct (step_inv c o Hpos Hok Hsize) as (Hmax & Hok' & Hsize').
  change (run c (o :: ops)) with (run (step c o) ops).
  rewrite <- Hmax in Hpos, Hsize'.
  destruct (IH _ Hpos Hok' Hsize') as (H1 & H2 & H3).
  rewrite Hmax in *. done.
Qed.

Lemma step_maxSize c (o : op V) : maxSize (step c o) = maxSize c.
Proof.
  destruct o as [now ty k|now ty k v ct|ty k|ty| |now]; cbn [step]; try done.
  - unfold get. destruct (map_get _ _) as [e|]; [|done].
    by destruct (expiresAt e <? now).
  - apply set_maxSize.
Qed.

Lemma run_maxSize ops : ∀ c, maxSize (run (V:=V) c ops) = maxSize c.
Proof.
  induction ops as [|o ops IH]; intros c; [done|].
  change (run c (o :: ops)) with (run (step c o) ops).
  by rewrite IH, step_maxSize.
Qed.

Lemma reachable_inv c :
  reachable c → 0 < maxSize c →
  keys_ok (cache c) ∧ map_size (cache c) ≤ maxSize c.
Proof.
  intros (o_ttl & o_max & ops & ->) Hpos.
  rewrite run_maxSize in *.
  destruct (run_inv ops (new o_ttl o_max)) as (_ & Hok & Hsize); try done.
  - split; [constructor|intros ? []].
  - unfold map_size. simpl in *. lia.
Qed.

(** C8.  In a cache built by the constructor with a positive [maxSize]
    and used through its methods, the number of entries never exceeds
    [maxSize], in particular after any [set].  When [set] inserts a new
    key into a cache that holds [maxSize] entries, one entry is
    removed, namely one whose [lastAccess] is the lowest of all, and
    the new entry is appended. *)
Theorem set_capacity_bound_lru (c : Cache.t V) (now : Z) (type key : string)
    (v : V) (customTtl : option Z) :
  reachable c → 0 < maxSize c →
  let c' := set c now type key v customTtl in
  map_size (cache c) ≤ maxSize c ∧
  maxSize c' = maxSize c ∧
  map_size (cache c') ≤ maxSize c' ∧
  (map_size (cache c) = maxSize c →
   map_has (cache c) (_generateKey type key) = false →
   ∃ vk ve,
     In (vk, ve) (cache c) ∧
     (∀ k' e', In (k', e') (cache c) → lastAccess ve ≤ lastAccess e') ∧
     cache c' =
       map_delete (cache c) vk ++
       [(_generateKey type key,
         mkEntry v now (now + num_or customTtl (ttl c)) now 0)] ∧
     map_size (cache c') = maxSize c).
Proof.
  intros Hreach Hpos c'.
  destruct (reachable_inv c Hreach Hpos) as [Hok Hsize].
  destruct (set_inv c now type key v customTtl Hpos Hok Hsize) as [_ Hsize'].
  split; [done|]. split; [apply set_maxSize|].
  split; [subst c'; by rewrite set_maxSize|].
  intros Hfull Hnew.
  destruct (set_evicts c now type key v customTtl Hpos Hok) as
    (vk & ve & Hin & Hmin & Hcache & Hsz); [lia|done|].
  exists vk, ve. repeat (split; [done|]). subst c'. lia.
Qed.
End WithValue.

Lemma get_respects_expiry_witness :
  fst (get (set (new None None) 0 "comprobante" "17" "e-Ticket A 57" (Some 100))
         50 "comprobante" "17") = Some "e-Ticket A 57" ∧
  fst (get (set (new None None) 0 "comprobante" "17" "e-Ticket A 57" (Some 100))
         150 "comprobante" "17") = None.
Proof.
  destruct (get_respects_expiry (V:=string)) as (_ & Hset & _).
  destruct (Hset (new None None) 0 "comprobante" "17" "e-Ticket A 57" (Some 100) 50)
    as [Hhit _].
  destruct (Hset (new None None) 0 "comprobante" "17" "e-Ticket A 57" (Some 100) 150)
    as [_ Hmiss].
  split; [apply Hhit; vm_compute; discriminate|].
  apply Hmiss. vm_compute. reflexivity.
Defined.

Lemma set_capacity_bound_lru_witness :
  let c := run (new None (Some 2))
             [OpSet 1 "numero_interno" "a" "x" None;
              OpSet 2 "numero_interno" "b" "y" None;
              OpGet 3 "numero_interno" "a"] in
  let c' := set c 4 "numero_interno" "c" "z" None in
  map_size (cache c') ≤ maxSize c' ∧
  ∃ vk ve,
    In (vk, ve) (cache c) ∧
    (∀ k' e', In (k', e') (cache c) → lastAccess ve ≤ lastAccess e') ∧
    cache c' =
      Js.map_delete (cache c) vk ++
      [("numero_interno:c", mkEntry "z" 4 300004 4 0)] ∧
    map_size (cache c') = 2.
Proof.
  cbv zeta.
  set (c := run (new None (Some 2)) _).
  assert (Hreach : reachable c) by (do 3 eexists; reflexivity).
  assert (Hpos : 0 < maxSize c) by reflexivity.
  destruct (set_capacity_bound_lru c 4 "numero_interno" "c" "z" None Hreach Hpos)
    as (_ & _ & Hbound & Hevict).
  split; [exact Hbound|].
  apply Hevict; reflexivity.
Defined.
End CacheProofs.

(** ** Error store *)

Module ErrorStoreProofs.
Import Js ErrorStore.

Local Abbreviation entry := (string * ErrorEntry)%type.

Lemma insert_desc_In x l y : In y (insert_desc x l) ↔ y = x ∨ In y l.
Proof.
  induction l as [|z l IH]; simpl; [intuition congruence|].
  destruct (timestamp (snd z) <=? timestamp (snd x)); simpl.
  - intuition congruence.
  - rewrite IH. intuition congruence.
Qed.

Lemma sort_desc_In l y : In y (sort_desc l) ↔ In y l.
Proof.
  induction l as [|x l IH]; simpl; [tauto|].
  rewrite insert_desc_In, IH. intuition congruence.
Qed.

Lemma insert_desc_length x l :
  List.length (insert_desc x l) = S (List.length l).
Proof.
  induction l as [|z l IH]; simpl; [done|].
  destruct (timestamp (snd z) <=? timestamp (snd x)); simpl; [done|].
  by rewrite IH.
Qed.

Lemma sort_desc_length l : List.length (sort_desc l) = List.length l.
Proof.
  induction l as [|x l IH]; simpl; [done|]. by rewrite insert_desc_length, IH.
Qed.

Lemma insert_desc_sorted x l :
  StronglySorted newer_eq l → StronglySorted newer_eq (insert_desc x l).
Proof.
  induction l as [|z l IH]; simpl; intros Hs.
  - constructor; [constructor|constructor].
  - apply StronglySorted_inv in Hs as [Hs Hall].
    destruct (timestamp (snd z) <=? timestamp (snd x)) eqn:E.
    + apply Z.leb_le in E. constructor; [by constructor|].
      constructor; [exact E|].
      eapply List.Forall_impl; [|exact Hall].
      intros a Ha. unfold newer_eq in *. lia.
    + apply Z.leb_gt in E. constructor; [by apply IH|].
      apply List.Forall_forall. intros y Hy.
      apply insert_desc_In in Hy as [->|Hy].
      * unfold newer_eq. lia.
      * by apply (proj1 (List.Forall_forall _ _) Hall).
Qed.

Lemma sort_desc_sorted l : StronglySorted newer_eq (sort_desc l).
Proof.
  induction l as [|x l IH]; simpl; [constructor|]. by apply insert_desc_sorted.
Qed.

Lemma filter_sorted (f : entry → bool) l :
  StronglySorted newer_eq l → StronglySorted newer_eq (List.filter f l).
Proof.
  induction l as [|x l IH]; simpl; intros Hs; [constructor|].
  apply StronglySorted_inv in Hs as [Hs Hall].
  destruct (f x); [|by apply IH].
  constructor; [by apply IH|].
  apply List.Forall_forall. intros y Hy.
  apply List.filter_In in Hy as [Hy _].
  by apply (proj1 (List.Forall_forall _ _) Hall).
Qed.

Lemma sorted_firstn_skipn (l : list entry) n a b :
  StronglySorted newer_eq l →
  In a (firstn n l) → In b (skipn n l) → newer_eq a b.
Proof.
  revert n. induction l as [|x l IH]; intros n Hs Ha Hb.
  - destruct n; simpl in *; done.
  - apply StronglySorted_inv in Hs as [Hs Hall].
    destruct n as [|n]; simpl in *; [done|].
    destruct Ha as [<-|Ha].
    + apply (proj1 (List.Forall_forall _ _) Hall).
      rewrite <- (List.firstn_skipn n l). apply List.in_or_app. by right.
    + by apply (IH n).
Qed.

Lemma slice_0_nonneg {A} (l : list A) (n : Z) :
  0 ≤ n → slice l 0 n = firstn (Z.to_nat n) l.
Proof.
  intros Hn. unfold slice.
  rewrite (proj2 (Z.ltb_ge 0 0)) by lia.
  rewrite (proj2 (Z.ltb_ge n 0)) by lia.
  rewrite (Z.min_l 0) by lia.
  change (skipn (Z.to_nat 0) l) with l. rewrite Z.sub_0_r.
  destruct (Z.le_ge_cases n (Z.of_nat (List.length l))) as [Hle|Hge].
  - rewrite Z.min_l, Z.max_l by lia. done.
  - rewrite Z.min_r, Z.max_l by lia. rewrite Nat2Z.id, List.firstn_all.
    symmetry. apply List.firstn_all2. lia.
Qed.

Lemma slice_length_le {A} (l : list A) (n : Z) :
  0 ≤ n → Z.of_nat (List.length (slice l 0 n)) ≤ n.
Proof.
  intros Hn. rewrite slice_0_nonneg by done.
  rewrite List.length_firstn. lia.
Qed.

Lemma filter_partition_length (l : list entry) :
  (List.length (List.filter (λ kv, negb (resolved (snd kv))) l) +
   List.length (List.filter (λ kv, resolved (snd kv)) l) = List.length l)%nat.
Proof.
  induction l as [|x l IH]; simpl; [done|].
  destruct (resolved (snd x)); simpl; lia.
Qed.

Lemma filter_length_insert (f : entry → bool) x l :
  List.length (List.filter f (insert_desc x l)) =
  List.length (List.filter f (x :: l)).
Proof.
  induction l as [|z l IH]; [done|]. cbn [insert_desc].
  destruct (timestamp (snd z) <=? timestamp (snd x)); [done|].
  cbn [List.filter] in *. destruct (f z), (f x); cbn [List.length] in *; lia.
Qed.

Lemma filter_length_sort (f : entry → bool) l :
  List.length (List.filter f (sort_desc l)) = List.length (List.filter f l).
Proof.
  induction l as [|x l IH]; [done|]. cbn [sort_desc].
  rewrite filter_length_insert. cbn [List.filter].
  destruct (f x); cbn [List.length]; lia.
Qed.

(** The entries that [_cleanup] retains once the store is over its limit
    and the unresolved entries fit. *)
Lemma _cleanup_over s :
  maxErrors s < map_size (errors s) →
  unresolved_count s ≤ maxErrors s →
  errors (_cleanup s) =
    List.filter is_unresolved (sort_desc (errors s)) ++
    firstn (Z.to_nat (maxErrors s - unresolved_count s))
      (List.filter (λ kv, resolved (snd kv)) (sort_desc (errors s))).
Proof.
  intros Hover Hfit. unfold _cleanup.
  rewrite (proj2 (Z.leb_gt _ _)) by lia. cbn [errors].
  unfold unresolved_count, is_unresolved in *.
  rewrite filter_length_sort.
  set (u := List.filter (λ kv : entry, negb (resolved (snd kv))) (sort_desc (errors s))).
  set (r := List.filter (λ kv : entry, resolved (snd kv)) (sort_desc (errors s))).
  set (n := Z.of_nat (List.length (List.filter
               (λ kv : entry, negb (resolved (snd kv))) (errors s)))) in *.
  rewrite (slice_0_nonneg r) by lia.
  rewrite slice_0_nonneg by (unfold map_size in Hover; lia).
  apply List.firstn_all2.
  rewrite List.length_app, List.length_firstn.
  assert (Z.of_nat (List.length u) = n).
  { subst u n. by rewrite filter_length_sort. }
  lia.
Qed.

(** The last [slice] caps the store at [maxErrors] entries. *)
Lemma _cleanup_capped s :
  0 ≤ maxErrors s → map_size (errors (_cleanup s)) ≤ maxErrors s.
Proof.
  intros Hmax. unfold _cleanup.
  destruct (map_size (errors s) <=? maxErrors s) eqn:E.
  - by apply Z.leb_le in E.
  - cbn [errors]. unfold map_size. by apply slice_length_le.
Qed.

Lemma _cleanup_keeps_unresolved s kv :
  unresolved_count s ≤ maxErrors s →
  In kv (errors s) → resolved (snd kv) = false → In kv (errors (_cleanup s)).
Proof.
  intros Hfit Hin Hun.
  destruct (Z.le_gt_cases (map_size (errors s)) (maxErrors s)) as [Hle|Hgt].
  - unfold _cleanup. by rewrite (proj2 (Z.leb_le _ _) Hle).
  - rewrite _cleanup_over by lia. apply List.in_or_app. left.
    apply List.filter_In. split; [by apply sort_desc_In|].
    unfold is_unresolved. by rewrite Hun.
Qed.

(** C6, as stated, fails: with [maxErrors = 2], the third recorded error
    evicts the first one although it is unresolved. *)
Lemma cleanup_evicts_unresolved_counterexample :
  let s2 := snd (recordError (snd (recordError (new (Some 2) []) 100 "err-a"
                   sample_error sample_context)) 200 "err-b"
                   sample_error sample_context) in
  let s3 := snd (recordError s2 300 "err-c" sample_error sample_context) in
  (∃ e, map_get (errors s2) "err-a" = Some e ∧ resolved e = false) ∧
  maxErrors s2 < map_size (errors s2) + 1 ∧
  map_get (errors s3) "err-a" = None ∧
  map_keys (errors s3) = ["err-c"; "err-b"].
Proof.
  cbv zeta. split; [eexists; split; vm_compute; reflexivity|].
  split; [vm_compute; reflexivity|]. split; vm_compute; reflexivity.
Qed.

(** C6, amended.  [_cleanup] leaves a store within its limit untouched.
    When the unresolved entries number at most [maxErrors], every
    unresolved entry survives, whatever its age; if moreover the store
    is over its limit, it is cut to exactly [maxErrors] entries, only
    resolved entries are evicted, and each evicted entry is no more
    recent than any resolved entry that is kept.  The same holds for
    the cleanup that [recordError] runs after it has added the new
    entry. *)
Theorem cleanup_retention_priority (s : t) :
  (map_size (errors s) ≤ maxErrors s → _cleanup s = s) ∧
  (unresolved_count s ≤ maxErrors s →
   ∀ kv, In kv (errors s) → resolved (snd kv) = false →
         In kv (errors (_cleanup s))) ∧
  (maxErrors s < map_size (errors s) → unresolved_count s ≤ maxErrors s →
   map_size (errors (_cleanup s)) = maxErrors s ∧
   (∀ kv, In kv (errors (_cleanup s)) → In kv (errors s)) ∧
   (∀ evicted, In evicted (errors s) → ¬ In evicted (errors (_cleanup s)) →
      resolved (snd evicted) = true ∧
      ∀ kept, In kept (errors (_cleanup s)) → resolved (snd kept) = true →
              timestamp (snd evicted) ≤ timestamp (snd kept))) ∧
  (∀ now errorId e ctx,
     snd (recordError s now errorId e ctx) = _cleanup (added s now errorId e ctx) ∧
     map_get (errors (added s now errorId e ctx)) errorId =
       Some (errorEntry now errorId e ctx) ∧
     (unresolved_count (added s now errorId e ctx) ≤ maxErrors s →
      In (errorId, errorEntry now errorId e ctx)
         (errors (snd (recordError s now errorId e ctx))))).
Proof.
  split; [|split; [|split]].
  - intros Hle. unfold _cleanup. by rewrite (proj2 (Z.leb_le _ _) Hle).
  - intros Hfit kv. by apply _cleanup_keeps_unresolved.
  - intros Hover Hfit. rewrite (_cleanup_over s Hover Hfit).
    set (u := List.filter is_unresolved (sort_desc (errors s))).
    set (r := List.filter (λ kv : entry, resolved (snd kv)) (sort_desc (errors s))).
    set (n := Z.to_nat (maxErrors s - unresolved_count s)).
    assert (Hu : Z.of_nat (List.length u) = unresolved_count s).
    { subst u. unfold unresolved_count. by rewrite filter_length_sort. }
    assert (Hur : (List.length u + List.length r = List.length (errors s))%nat).
    { subst u r. unfold is_unresolved.
      rewrite filter_partition_length. apply sort_desc_length. }
    split; [|split].
    + unfold map_size in *. rewrite List.length_app, List.length_firstn. lia.
    + intros kv [Hin|Hin]%List.in_app_or.
      * apply List.filter_In in Hin as [Hin _]. by apply sort_desc_In.
      * assert (Hin' : In kv r).
        { rewrite <- (List.firstn_skipn n r). apply List.in_or_app. by left. }
        apply List.filter_In in Hin' as [Hin' _]. by apply sort_desc_In.
    + intros ev Hin Hnot.
      destruct (resolved (snd ev)) eqn:Hres.
      * split; [done|]. intros kept Hkept Hkres.
        assert (Hev : In ev (skipn n r)).
        { assert (Hr : In ev r).
          { apply List.filter_In. split; [by apply sort_desc_In|done]. }
          rewrite <- (List.firstn_skipn n r) in Hr.
          apply List.in_app_or in Hr as [Hr|Hr]; [|done].
          destruct Hnot. apply List.in_or_app. by right. }
        assert (Hk : In kept (firstn n r)).
        { apply List.in_app_or in Hkept as [Hk|Hk]; [|done].
          apply List.filter_In in Hk as [_ Hk]. unfold is_unresolved in Hk.
          by rewrite Hkres in Hk. }
        apply (sorted_firstn_skipn r n kept ev); [|done|done].
        apply filter_sorted, sort_desc_sorted.
      * destruct Hnot. apply List.in_or_app. left.
        apply List.filter_In. split; [by apply sort_desc_In|].
        unfold is_unresolved. by rewrite Hres.
  - intros now errorId e ctx. split; [done|].
    assert (Hget : map_get (errors (added s now errorId e ctx)) errorId =
                     Some (errorEntry now errorId e ctx))
      by apply JsProofs.map_get_set_eq.
    split; [exact Hget|]. intros Hfit.
    apply _cleanup_keeps_unresolved; [done| |done].
    by apply JsProofs.map_get_In.
Qed.

Lemma cleanup_retention_priority_witness :
  let s := added (snd (resolveError
                    (snd (recordError (snd (recordError (new (Some 2) [])
                       100 "err-a" sample_error sample_context))
                       200 "err-b" sample_error sample_context))
                    250 "err-a" None None))
             300 "err-c" sample_error sample_context in
  map_keys (errors s) = ["err-a"; "err-b"; "err-c"] ∧
  map_size (errors (_cleanup s)) = 2 ∧
  In ("err-b", errorEntry 200 "err-b" sample_error sample_context)
     (errors (_cleanup s)) ∧
  In ("err-c", errorEntry 300 "err-c" sample_error sample_context)
     (errors (_cleanup s)).
Proof.
  cbv zeta.
  set (s := added _ 300 "err-c" sample_error sample_context).
  destruct (cleanup_retention_priority s) as (_ & Hkeep & Hover & _).
  assert (Hfit : unresolved_count s ≤ maxErrors s) by (vm_compute; discriminate).
  assert (Hgt : maxErrors s < map_size (errors s)) by (vm_compute; reflexivity).
  split; [vm_compute; reflexivity|].
  destruct (Hover Hgt Hfit) as (Hsize & _ & _).
  split; [exact Hsize|]. split.
  - apply (Hkeep Hfit); [|reflexivity]. vm_compute. right. left. reflexivity.
  - apply (Hkeep Hfit); [|reflexivity]. vm_compute. right. right. left. reflexivity.
Defined.
End ErrorStoreProofs.

(** ** JavaScript numbers *)

Module JsNumberProofs.
Import JsNumber.

Lemma digits2_pos_spec p :
  2 ^ (Z.pos (digits2_pos p) - 1) ≤ Z.pos p < 2 ^ Z.pos (digits2_pos p).
Proof.
  induction p as [p IH|p IH|]; cbn [digits2_pos].
  - rewrite Pos2Z.inj_succ, (Pos2Z.inj_xI p).
    replace (Z.succ (Z.pos (digits2_pos p)) - 1) with
      (Z.succ (Z.pos (digits2_pos p) - 1)) by lia.
    rewrite !Z.pow_succ_r by lia.
    revert IH. generalize (2 ^ (Z.pos (digits2_pos p) - 1)).
    generalize (2 ^ Z.pos (digits2_pos p)). intros a b IH. lia.
  - rewrite Pos2Z.inj_succ, (Pos2Z.inj_xO p).
    replace (Z.succ (Z.pos (digits2_pos p)) - 1) with
      (Z.succ (Z.pos (digits2_pos p) - 1)) by lia.
    rewrite !Z.pow_succ_r by lia.
    revert IH. generalize (2 ^ (Z.pos (digits2_pos p) - 1)).
    generalize (2 ^ Z.pos (digits2_pos p)). intros a b IH. lia.
  - simpl. lia.
Qed.

Lemma digits2_pos_unique p d :
  2 ^ (d - 1) ≤ Z.pos p < 2 ^ d → Z.pos (digits2_pos p) = d.
Proof.
  intros [Hlo Hhi]. pose proof (digits2_pos_spec p) as [Hlo' Hhi'].
  assert (Hd : 0 < d).
  { destruct (Z.lt_ge_cases 0 d) as [?|Hle]; [done|].
    destruct (Z.eq_dec d 0) as [->|Hne]; [simpl in Hhi; lia|].
    rewrite Z.pow_neg_r in Hhi by lia. lia. }
  destruct (Z.lt_trichotomy (Z.pos (digits2_pos p)) d) as [Hlt|[Heq|Hgt]];
    [|done|].
  - assert (2 ^ Z.pos (digits2_pos p) ≤ 2 ^ (d - 1))
      by (apply Z.pow_le_mono_r; lia). lia.
  - assert (2 ^ d ≤ 2 ^ (Z.pos (digits2_pos p) - 1))
      by (apply Z.pow_le_mono_r; lia). lia.
Qed.

Lemma shr_1_located mrs num den :
  0 ≤ shr_m mrs → 0 < den → located mrs num den →
  located (shr_1 mrs) num (2 * den) ∧ 0 ≤ shr_m (shr_1 mrs).
Proof.
  destruct mrs as [m r s]. unfold located. cbn [shr_m shr_r shr_s].
  intros Hm Hden Hloc.
  destruct m as [|[p|p|]|p]; [| | | |lia];
    destruct r, s; cbn [shr_1 orb shr_m shr_r shr_s];
    rewrite ?(Pos2Z.inj_xI p), ?(Pos2Z.inj_xO p) in *; split; try lia; nia.
Qed.

Lemma iter_shr_1_located n : ∀ mrs num den,
  0 ≤ shr_m mrs → 0 < den → located mrs num den →
  located (SpecFloat.iter_pos shr_1 n mrs) num (2 ^ Z.pos n * den) ∧
  0 ≤ shr_m (SpecFloat.iter_pos shr_1 n mrs).
Proof.
  induction n as [n IH|n IH|]; intros mrs num den Hm Hden Hloc;
    cbn [SpecFloat.iter_pos].
  - assert (Hp : 0 < 2 ^ Z.pos n) by (apply Z.pow_pos_nonneg; lia).
    destruct (shr_1_located mrs num den Hm Hden Hloc) as [H1 Hm1].
    assert (Hden1 : 0 < 2 * den) by lia.
    destruct (IH (shr_1 mrs) num (2 * den) Hm1 Hden1 H1) as [H2 Hm2].
    assert (Hden2 : 0 < 2 ^ Z.pos n * (2 * den)) by nia.
    destruct (IH _ num _ Hm2 Hden2 H2) as [H3 Hm3].
    split; [|done].
    replace (2 ^ Z.pos n~1 * den) with (2 ^ Z.pos n * (2 ^ Z.pos n * (2 * den)));
      [done|].
    rewrite (Pos2Z.inj_xI n).
    replace (2 * Z.pos n + 1) with (Z.pos n + Z.pos n + 1) by lia.
    rewrite !Z.pow_add_r by lia. ring.
  - assert (Hp : 0 < 2 ^ Z.pos n) by (apply Z.pow_pos_nonneg; lia).
    destruct (IH mrs num den Hm Hden Hloc) as [H2 Hm2].
    assert (Hden2 : 0 < 2 ^ Z.pos n * den) by nia.
    destruct (IH _ num _ Hm2 Hden2 H2) as [H3 Hm3].
    split; [|done].
    replace (2 ^ Z.pos n~0 * den) with (2 ^ Z.pos n * (2 ^ Z.pos n * den));
      [done|].
    rewrite (Pos2Z.inj_xO n).
    replace (2 * Z.pos n) with (Z.pos n + Z.pos n) by lia.
    rewrite !Z.pow_add_r by lia. ring.
  - replace (2 ^ 1 * den) with (2 * den) by lia. by apply shr_1_located.
Qed.

(** Rounding to nearest moves the mantissa by at most half a unit. *)
Lemma round_nearest_even_located mrs num den :
  0 < den → located mrs num den →
  let M := round_nearest_even (shr_m mrs) (loc_of_shr_record mrs) in
  shr_m mrs ≤ M ≤ shr_m mrs + 1 ∧
  - den ≤ 2 * (M * den - num) ≤ den.
Proof.
  destruct mrs as [m r s]. unfold located. cbn [shr_m shr_r shr_s].
  intros Hden Hloc.
  destruct r, s; cbn [loc_of_shr_record round_nearest_even];
    try destruct (Z.even m); split; try lia; nia.
Qed.

Lemma located_range mrs num den :
  0 < den → located mrs num den →
  shr_m mrs * den ≤ num < (shr_m mrs + 1) * den.
Proof.
  destruct mrs as [m r s]. unfold located. cbn [shr_m shr_r shr_s].
  intros Hden Hloc. destruct r, s; nia.
Qed.

Lemma fexp_normal x : -1021 ≤ x → fexp prec emax x = x - 53.
Proof. intros Hx. unfold fexp, emin, prec, emax. lia. Qed.

(** The first shift of [binary_round_aux] brings a mantissa of
    [53 + n] bits down to 53 bits. *)
Lemma shr_fexp_located q e l num den n :
  0 < q → 0 < den → 0 ≤ n →
  Zdigits2 q = 53 + n → -1021 ≤ 53 + n + e →
  located (shr_record_of_loc q l) num den →
  ∃ mrs, shr_fexp prec emax q e l = (mrs, e + n) ∧
         located mrs num (2 ^ n * den) ∧
         2 ^ 52 ≤ shr_m mrs < 2 ^ 53.
Proof.
  intros Hq Hden Hn Hd He Hloc.
  assert (Hq0 : shr_m (shr_record_of_loc q l) = q) by (by destruct l as [|[]]).
  assert (Hmrs : ∃ mrs, shr_fexp prec emax q e l = (mrs, e + n) ∧
                        located mrs num (2 ^ n * den) ∧ 0 ≤ shr_m mrs).
  { unfold shr_fexp. rewrite Hd, fexp_normal by lia.
    replace (53 + n + e - 53 - e) with n by lia. unfold shr.
    destruct n as [|p|p]; [| |lia].
    - exists (shr_record_of_loc q l). rewrite Z.add_0_r, Z.pow_0_r, Z.mul_1_l.
      split; [done|]. split; [done|]. rewrite Hq0. lia.
    - eexists. split; [done|].
      apply iter_shr_1_located; [rewrite Hq0; lia|done|done]. }
  destruct Hmrs as (mrs & Hshr & Hloc' & Hm).
  exists mrs. split; [done|]. split; [done|].
  assert (Hp : 0 < 2 ^ n) by (apply Z.pow_pos_nonneg; lia).
  pose proof (located_range _ _ _ Hden Hloc) as Hr. rewrite Hq0 in Hr.
  pose proof (located_range mrs num (2 ^ n * den) ltac:(nia) Hloc') as Hr'.
  destruct q as [|pq|pq]; [lia| |lia].
  pose proof (digits2_pos_spec pq) as Hdig. cbn [Zdigits2] in Hd.
  rewrite Hd in Hdig.
  replace (53 + n - 1) with (52 + n) in Hdig by lia.
  rewrite !Z.pow_add_r in Hdig by lia.
  revert Hdig Hr Hr' Hp Hden. generalize (2 ^ n). generalize (shr_m mrs).
  generalize (Z.pos pq). intros Q m P Hdig Hr Hr' Hp Hden.
  change (2 ^ 52) with 4503599627370496 in *.
  change (2 ^ 53) with 9007199254740992 in *.
  split; nia.
Qed.

(** A 53-bit mantissa is left as it is. *)
Lemma binary_round_aux_exact p e :
  Z.pos (digits2_pos p) = 53 → -1074 ≤ e ≤ 971 →
  binary_round_aux prec emax false (Z.pos p) e loc_Exact = S754_finite false p e.
Proof.
  intros Hd He. unfold binary_round_aux.
  assert (Hshr : shr_fexp prec emax (Z.pos p) e loc_Exact =
                 ({| shr_m := Z.pos p; shr_r := false; shr_s := false |}, e)).
  { unfold shr_fexp. cbn [Zdigits2]. rewrite Hd, fexp_normal by lia.
    replace (53 + e - 53 - e) with 0 by lia. reflexivity. }
  rewrite Hshr. cbn [shr_m loc_of_shr_record round_nearest_even]. rewrite Hshr.
  cbn [shr_m]. unfold emax, prec.
  by rewrite (proj2 (Z.leb_le e (1024 - 53))) by lia.
Qed.

(** [binary_round_aux] on a mantissa [q] of at least 53 bits, where the
    exact value is [num / den] in units of [2 ^ e]: the result has a full
    mantissa [M] and an exponent [E], and differs from the exact value by
    at most half a unit of [2 ^ E]. *)
Lemma binary_round_aux_located q e l num den n :
  0 < q → 0 < den → 0 ≤ n →
  Zdigits2 q = 53 + n → -1021 ≤ 53 + n + e → e + n < 971 →
  located (shr_record_of_loc q l) num den →
  ∃ M E, normal (binary_round_aux prec emax false q e l) M E ∧
         e + n ≤ E ≤ e + n + 1 ∧
         - (2 ^ (E - e) * den) ≤ 2 * (M * 2 ^ (E - e) * den - num)
           ≤ 2 ^ (E - e) * den.
Proof.
  intros Hq Hden Hn Hd He Hmax Hloc.
  destruct (shr_fexp_located q e l num den n Hq Hden Hn Hd He Hloc)
    as (mrs & Hshr & Hloc' & Hm).
  assert (Hp : 0 < 2 ^ n) by (apply Z.pow_pos_nonneg; lia).
  assert (Hden' : 0 < 2 ^ n * den) by nia.
  pose proof (round_nearest_even_located mrs num _ Hden' Hloc') as [HM Herr].
  unfold binary_round_aux. rewrite Hshr.
  set (M1 := round_nearest_even (shr_m mrs) (loc_of_shr_record mrs)) in *.
  destruct (Z.eq_dec M1 (2 ^ 53)) as [Heq|Hne].
  - rewrite Heq. exists (2 ^ 52), (e + n + 1). split; [|split; [lia|]].
    + exists 4503599627370496%positive. split; [|split; [done|done]].
      change (2 ^ 53) with 9007199254740992.
      assert (Hs : shr_fexp prec emax 9007199254740992 (e + n) loc_Exact =
              ({| shr_m := 4503599627370496; shr_r := false; shr_s := false |},
               e + n + 1)).
      { unfold shr_fexp. change (Zdigits2 9007199254740992) with 54.
        rewrite fexp_normal by lia.
        replace (54 + (e + n) - 53 - (e + n)) with 1 by lia. reflexivity. }
      rewrite Hs. cbn [shr_m]. unfold emax, prec.
      by rewrite (proj2 (Z.leb_le (e + n + 1) (1024 - 53))) by lia.
    + replace (e + n + 1 - e) with (n + 1) by lia.
      rewrite Z.pow_add_r by lia. rewrite Heq in Herr.
      change (2 ^ 53) with (2 ^ 52 * 2 ^ 1) in Herr.
      revert Herr Hden' Hp. generalize (2 ^ n). intros P Herr Hden' Hp.
      change (2 ^ 1) with 2 in *. change (2 ^ 52) with 4503599627370496 in *.
      nia.
  - assert (HM1 : 2 ^ 52 ≤ M1 < 2 ^ 53) by lia.
    destruct M1 as [|p|p] eqn:EM1; [simpl in HM1; lia| |lia].
    assert (Hdp : Z.pos (digits2_pos p) = 53) by (by apply digits2_pos_unique).
    exists (Z.pos p), (e + n). split; [|split; [lia|]].
    + exists p. split; [|done].
      assert (Hs : shr_fexp prec emax (Z.pos p) (e + n) loc_Exact =
              ({| shr_m := Z.pos p; shr_r := false; shr_s := false |}, e + n)).
      { unfold shr_fexp. cbn [Zdigits2]. rewrite Hdp, fexp_normal by lia.
        replace (53 + (e + n) - 53 - (e + n)) with 0 by lia. reflexivity. }
      rewrite Hs. cbn [shr_m]. unfold emax, prec.
      by rewrite (proj2 (Z.leb_le (e + n) (1024 - 53))) by lia.
    + replace (e + n - e) with n by lia. lia.
Qed.

Lemma pos_iter_xO p k : Z.pos (Pos.iter xO p k) = Z.pos p * 2 ^ Z.pos k.
Proof.
  induction k as [|k IH] using Pos.peano_ind.
  - simpl. lia.
  - rewrite Pos.iter_succ, (Pos2Z.inj_xO (Pos.iter xO p k)), IH.
    rewrite Pos2Z.inj_succ, Z.pow_succ_r by lia. ring.
Qed.

(** An integer below [2 ^ 53] is a number, with its mantissa shifted up
    to 53 bits. *)
Lemma of_Z_normal z :
  0 < z < 2 ^ 53 →
  ∃ m e, normal (of_Z z) m e ∧ -52 ≤ e ≤ 0 ∧ m = z * 2 ^ (- e).
Proof.
  intros Hz. destruct z as [|p|p]; [lia| |lia].
  pose proof (digits2_pos_spec p) as Hdig.
  set (d := Z.pos (digits2_pos p)) in *.
  assert (Hd : 1 ≤ d ≤ 53).
  { split; [subst d; lia|].
    destruct (Z.le_gt_cases d 53) as [?|Hgt]; [done|].
    assert (2 ^ 53 ≤ 2 ^ (d - 1)) by (apply Z.pow_le_mono_r; lia). lia. }
  unfold of_Z, binary_normalize, binary_round, shl_align.
  fold d. rewrite Z.add_0_r, fexp_normal, Z.sub_0_r by lia.
  destruct (d - 53) as [|k|k] eqn:Hk; [| lia |].
  - assert (Hd53 : d = 53) by lia.
    rewrite binary_round_aux_exact by (fold d; lia).
    exists (Z.pos p), 0. split; [|split; [lia|simpl; lia]].
    exists p. split; [done|]. split; [done|].
    rewrite Hd53 in Hdig. change (2 ^ (53 - 1)) with (2 ^ 52) in Hdig. lia.
  - assert (Hmz : Z.pos (Pos.iter xO p k) = Z.pos p * 2 ^ (53 - d)).
    { rewrite pos_iter_xO. f_equal. f_equal. lia. }
    assert (Hrange : 2 ^ 52 ≤ Z.pos (Pos.iter xO p k) < 2 ^ 53).
    { assert (E52 : 2 ^ 52 = 2 ^ (d - 1) * 2 ^ (53 - d))
        by (rewrite <- Z.pow_add_r by lia; f_equal; lia).
      assert (E53 : 2 ^ 53 = 2 ^ d * 2 ^ (53 - d))
        by (rewrite <- Z.pow_add_r by lia; f_equal; lia).
      assert (0 < 2 ^ (53 - d)) by (apply Z.pow_pos_nonneg; lia).
      rewrite Hmz, E52, E53. clear E52 E53 Hmz Hz.
      revert Hdig H. generalize (2 ^ (53 - d)), (2 ^ (d - 1)), (2 ^ d), (Z.pos p).
      intros. nia. }
    rewrite binary_round_aux_exact;
      [|by apply digits2_pos_unique|lia].
    exists (Z.pos (Pos.iter xO p k)), (Z.neg k).
    split; [|split; [lia|]].
    + exists (Pos.iter xO p k). done.
    + rewrite Hmz. f_equal. f_equal. lia.
Qed.

Lemma of_Z_100 : normal (of_Z 100) 7036874417766400 (-46).
Proof. exists 7036874417766400%positive. done. Qed.

Lemma of_Z_0 : of_Z 0 = S754_zero false.
Proof. reflexivity. Qed.

Lemma new_location_located q D r :
  0 ≤ r < D →
  located (shr_record_of_loc q (new_location D r)) (q * D + r) D.
Proof.
  intros Hr. unfold new_location, new_location_even, new_location_odd.
  destruct (Z.even D) eqn:Hev.
  - destruct (r =? 0) eqn:Hr0.
    + apply Z.eqb_eq in Hr0. unfold located. simpl. lia.
    + apply Z.eqb_neq in Hr0.
      destruct (Z.compare_spec (2 * r) D); unfold located; simpl; lia.
  - assert (Hodd : Z.odd D = true).
    { rewrite <- Z.negb_even, Hev. reflexivity. }
    apply Z.odd_spec in Hodd as [k Hk].
    destruct (r =? 0) eqn:Hr0.
    + apply Z.eqb_eq in Hr0. unfold located. simpl. lia.
    + apply Z.eqb_neq in Hr0.
      destruct (Z.compare_spec (2 * r + 1) D); unfold located; simpl; lia.
Qed.

Lemma normal_digits x m e p :
  normal x m e → m = Z.pos p → Z.pos (digits2_pos p) = 53.
Proof.
  intros (p' & _ & Hm & Hr) ->. by apply digits2_pos_unique.
Qed.

Lemma digits_53_or_54 q :
  2 ^ 52 ≤ q < 2 ^ 54 → ∃ n, 0 ≤ n ≤ 1 ∧ Zdigits2 q = 53 + n.
Proof.
  intros Hq. destruct q as [|p|p]; [simpl in Hq; lia| |lia].
  cbn [Zdigits2]. destruct (Z.lt_ge_cases (Z.pos p) (2 ^ 53)) as [Hlt|Hge].
  - exists 0. split; [lia|]. rewrite Z.add_0_r.
    apply digits2_pos_unique. simpl in *. lia.
  - exists 1. split; [lia|]. apply digits2_pos_unique. simpl in *. lia.
Qed.

(** The quotient of two numbers with full mantissas [mx] and [my]: again
    a full mantissa [M], with an exponent [E], at most half a unit of
    [2 ^ E] away from the exact quotient. *)
Lemma div_normal x y mx ex my ey :
  normal x mx ex → normal y my ey → -60 ≤ ex ≤ 0 → -60 ≤ ey ≤ 0 →
  ∃ M E, normal (div x y) M E ∧
         0 ≤ E - (ex - ey - 53) ≤ 2 ∧
         - (2 ^ (E - (ex - ey - 53)) * my)
           ≤ 2 * (M * 2 ^ (E - (ex - ey - 53)) * my - mx * 2 ^ 53)
           ≤ 2 ^ (E - (ex - ey - 53)) * my.
Proof.
  intros Hx Hy Hex Hey.
  pose proof Hx as (px & -> & Hmx & Hrx). pose proof Hy as (py & -> & Hmy & Hry).
  pose proof (normal_digits _ _ _ _ Hx Hmx) as Hdx.
  pose proof (normal_digits _ _ _ _ Hy Hmy) as Hdy.
  unfold div, SFdiv, SFdiv_core_binary. cbn [Zdigits2 xorb].
  rewrite Hdx, Hdy, fexp_normal by lia.
  replace (Z.min (53 + ex - (53 + ey) - 53) (ex - ey)) with (ex - ey - 53) by lia.
  replace (ex - ey - (ex - ey - 53)) with 53 by lia.
  rewrite Z.shiftl_mul_pow2 by lia. rewrite <- Hmx, <- Hmy.
  pose proof (Z.div_eucl_eq (mx * 2 ^ 53) my ltac:(lia)) as Hdiv.
  pose proof (Z.mod_pos_bound (mx * 2 ^ 53) my ltac:(lia)) as Hmod.
  unfold Z.modulo in Hmod.
  destruct (Z.div_eucl (mx * 2 ^ 53) my) as [q r].
  assert (Hq : 2 ^ 52 ≤ q < 2 ^ 54).
  { change (2 ^ 54) with 18014398509481984.
    change (2 ^ 53) with 9007199254740992 in *.
    change (2 ^ 52) with 4503599627370496 in *. split; nia. }
  destruct (digits_53_or_54 q Hq) as (n & Hn & Hdq).
  destruct (binary_round_aux_located q (ex - ey - 53)
              (new_location my r) (mx * 2 ^ 53) my n)
    as (M & E & Hnorm & HE & Hbound); try lia.
  { rewrite Hdiv. rewrite (Z.mul_comm my q). by apply new_location_located. }
  exists M, E. split; [done|]. split; [lia|done].
Qed.

(** The product of two numbers with full mantissas. *)
Lemma mul_normal x y mx ex my ey :
  normal x mx ex → normal y my ey → -200 ≤ ex ≤ 200 → -200 ≤ ey ≤ 200 →
  ∃ M E, normal (mul x y) M E ∧
         52 ≤ E - (ex + ey) ≤ 54 ∧
         - 2 ^ (E - (ex + ey))
           ≤ 2 * (M * 2 ^ (E - (ex + ey)) - mx * my)
           ≤ 2 ^ (E - (ex + ey)).
Proof.
  intros Hx Hy Hex Hey.
  pose proof Hx as (px & -> & Hmx & Hrx). pose proof Hy as (py & -> & Hmy & Hry).
  unfold mul, SFmul. cbn [xorb].
  assert (Hq : 2 ^ 104 ≤ Z.pos (px * py) < 2 ^ 106).
  { rewrite Pos2Z.inj_mul, <- Hmx, <- Hmy.
    change (2 ^ 104) with (2 ^ 52 * 2 ^ 52). change (2 ^ 106) with (2 ^ 53 * 2 ^ 53).
    split; nia. }
  assert (Hd : ∃ n, 52 ≤ n ≤ 53 ∧ Zdigits2 (Z.pos (px * py)) = 53 + n).
  { cbn [Zdigits2].
    destruct (Z.lt_ge_cases (Z.pos (px * py)) (2 ^ 105)) as [Hlt|Hge].
    - exists 52. split; [lia|]. apply digits2_pos_unique.
      clear -Hq Hlt. simpl in *. lia.
    - exists 53. split; [lia|]. apply digits2_pos_unique.
      clear -Hq Hge. simpl in *. lia. }
  destruct Hd as (n & Hn & Hdq).
  destruct (binary_round_aux_located (Z.pos (px * py)) (ex + ey) loc_Exact
              (Z.pos (px * py)) 1 n)
    as (M & E & Hnorm & HE & Hbound); try lia.
  { unfold located. simpl. lia. }
  exists M, E. split; [done|]. split; [lia|].
  rewrite Pos2Z.inj_mul, <- Hmx, <- Hmy in Hbound. lia.
Qed.

(** *** The values as real numbers *)

Ltac push_IZR H :=
  repeat first [rewrite opp_IZR in H | rewrite mult_IZR in H
               | rewrite minus_IZR in H | rewrite plus_IZR in H].

Lemma bpow_pos e : (0 < bpow e)%R.
Proof. apply powerRZ_lt. lra. Qed.

Lemma bpow_add a b : bpow (a + b) = (bpow a * bpow b)%R.
Proof. apply powerRZ_add. lra. Qed.

Lemma bpow_opp a : bpow (- a) = (/ bpow a)%R.
Proof. apply powerRZ_neg'. Qed.

Lemma IZR_pow2 k : 0 ≤ k → IZR (2 ^ k) = bpow k.
Proof.
  intros Hk. rewrite <- (Z2Nat.id k Hk), <- pow_IZR.
  unfold bpow. by rewrite <- pow_powerRZ.
Qed.

Lemma bpow_ge_1 e : 0 ≤ e → (1 <= bpow e)%R.
Proof.
  intros He. rewrite <- IZR_pow2 by done. apply IZR_le.
  assert (0 < 2 ^ e) by (apply Z.pow_pos_nonneg; lia). lia.
Qed.

Lemma bpow_53 : bpow 53 = 9007199254740992%R.
Proof. rewrite <- IZR_pow2 by lia. reflexivity. Qed.

Lemma bpow_52 : bpow 52 = 4503599627370496%R.
Proof. rewrite <- IZR_pow2 by lia. reflexivity. Qed.

Lemma normal_F2R_lower x m e : normal x m e → (bpow 52 * bpow e <= F2R m e)%R.
Proof.
  intros (p & _ & _ & Hr & _). unfold F2R.
  apply Rmult_le_compat_r; [apply Rlt_le, bpow_pos|].
  rewrite <- IZR_pow2 by lia. by apply IZR_le.
Qed.

Lemma of_Z_F2R z :
  0 < z < 2 ^ 53 →
  ∃ m e, normal (of_Z z) m e ∧ -52 ≤ e ≤ 0 ∧ F2R m e = IZR z.
Proof.
  intros Hz. destruct (of_Z_normal z Hz) as (m & e & Hn & He & Hm).
  exists m, e. split; [done|]. split; [done|].
  unfold F2R. rewrite Hm, mult_IZR, IZR_pow2, bpow_opp by lia.
  pose proof (bpow_pos e). field. lra.
Qed.

Lemma F2R_100 : F2R 7036874417766400 (-46) = 100%R.
Proof.
  unfold F2R. change 7036874417766400 with (100 * 2 ^ 46).
  change (bpow (-46)) with (bpow (- (46))).
  rewrite mult_IZR, IZR_pow2, bpow_opp by lia.
  pose proof (bpow_pos 46). field. lra.
Qed.

(** Division: the result is within half a unit in the last place of the
    exact quotient. *)
Lemma div_F2R x y mx ex my ey :
  normal x mx ex → normal y my ey → -60 ≤ ex ≤ 0 → -60 ≤ ey ≤ 0 →
  ∃ M E, normal (div x y) M E ∧ -200 ≤ E ≤ 200 ∧
         (- (bpow E / 2) <= F2R M E - F2R mx ex / F2R my ey <= bpow E / 2)%R.
Proof.
  intros Hx Hy Hex Hey.
  destruct (div_normal x y mx ex my ey Hx Hy Hex Hey) as (M & E & Hn & HE & Hb).
  exists M, E. split; [done|]. split; [lia|].
  set (s := E - (ex - ey - 53)) in *.
  assert (HS : IZR (2 ^ s) = (bpow E * bpow ey * bpow 53 / bpow ex)%R).
  { rewrite IZR_pow2 by lia. subst s.
    replace (E - (ex - ey - 53)) with (E + (ey + (53 + - ex))) by lia.
    rewrite !bpow_add, bpow_opp. pose proof (bpow_pos ex). field. lra. }
  destruct Hb as [Hlo Hhi]. apply IZR_le in Hlo, Hhi.
  push_IZR Hlo. push_IZR Hhi.
  rewrite (IZR_pow2 53) in Hlo, Hhi by lia.
  revert Hlo Hhi. rewrite HS. clear HS. unfold F2R.
  pose proof (bpow_pos E) as HU. pose proof (bpow_pos ex) as HPx.
  pose proof (bpow_pos ey) as HPy. pose proof (bpow_pos 53) as H53.
  assert (Hmy : (0 < IZR my)%R).
  { destruct Hy as (p & _ & -> & _). apply IZR_lt. lia. }
  revert HU HPx HPy H53 Hmy.
  generalize (bpow E) (bpow ex) (bpow ey) (bpow 53) (IZR M) (IZR mx) (IZR my).
  intros U Px Py B M' mx' my' HU HPx HPy H53 Hmy Hlo Hhi.
  set (c := (Px / (my' * Py * B))%R).
  assert (Hc : (0 < c)%R).
  { unfold c. apply Rdiv_lt_0_compat; [done|].
    repeat apply Rmult_lt_0_compat; done. }
  assert (Hd : (M' * U - mx' * Px / (my' * Py)
                = (M' * (U * Py * B / Px) * my' - mx' * B) * c)%R).
  { unfold c. field. lra. }
  assert (Hu : (U = (U * Py * B / Px * my') * c)%R).
  { unfold c. field. lra. }
  rewrite Hd.
  set (D := (M' * (U * Py * B / Px) * my' - mx' * B)%R) in *.
  set (T := (U * Py * B / Px * my')%R) in *.
  assert (HT : (U / 2 = T * c / 2)%R) by lra.
  rewrite HT.
  assert (H1 : (0 <= (2 * D + T) * c)%R) by (apply Rmult_le_pos; lra).
  assert (H2 : (0 <= (T - 2 * D) * c)%R) by (apply Rmult_le_pos; lra).
  split; lra.
Qed.

(** Multiplication: likewise. *)
Lemma mul_F2R x y mx ex my ey :
  normal x mx ex → normal y my ey → -200 ≤ ex ≤ 200 → -200 ≤ ey ≤ 200 →
  ∃ M E, normal (mul x y) M E ∧
         (- (bpow E / 2) <= F2R M E - F2R mx ex * F2R my ey <= bpow E / 2)%R.
Proof.
  intros Hx Hy Hex Hey.
  destruct (mul_normal x y mx ex my ey Hx Hy Hex Hey) as (M & E & Hn & HE & Hb).
  exists M, E. split; [done|].
  set (s := E - (ex + ey)) in *.
  assert (HS : IZR (2 ^ s) = (bpow E / (bpow ex * bpow ey))%R).
  { rewrite IZR_pow2 by lia. subst s.
    replace (E - (ex + ey)) with (E + (- ex + - ey)) by lia.
    rewrite !bpow_add, !bpow_opp.
    pose proof (bpow_pos ex). pose proof (bpow_pos ey). field. lra. }
  destruct Hb as [Hlo Hhi]. apply IZR_le in Hlo, Hhi.
  push_IZR Hlo. push_IZR Hhi.
  revert Hlo Hhi. rewrite HS. clear HS. unfold F2R.
  pose proof (bpow_pos E) as HU. pose proof (bpow_pos ex) as HPx.
  pose proof (bpow_pos ey) as HPy.
  revert HU HPx HPy.
  generalize (bpow E) (bpow ex) (bpow ey) (IZR M) (IZR mx) (IZR my).
  intros U Px Py M' mx' my' HU HPx HPy Hlo Hhi.
  set (c := (Px * Py)%R).
  assert (Hc : (0 < c)%R) by (unfold c; nra).
  assert (Hd : (M' * U - mx' * Px * (my' * Py)
                = (M' * (U / (Px * Py)) - mx' * my') * c)%R).
  { unfold c. field. lra. }
  assert (Hu : (U = (U / (Px * Py)) * c)%R).
  { unfold c. field. lra. }
  rewrite Hd.
  set (D := (M' * (U / (Px * Py)) - mx' * my')%R) in *.
  set (T := (U / (Px * Py))%R) in *.
  assert (HT : (U / 2 = T * c / 2)%R) by lra.
  rewrite HT.
  assert (H1 : (0 <= (2 * D + T) * c)%R) by (apply Rmult_le_pos; lra).
  assert (H2 : (0 <= (T - 2 * D) * c)%R) by (apply Rmult_le_pos; lra).
  split; lra.
Qed.

(** The comparison of the two roundings, on the real line. *)
Lemma rounding_margin (vR tR Xq Xp U W k K : R) :
  (0 < vR <= tR)%R → (1 <= tR < 4294967296)%R →
  (- (U / 2) <= Xq - vR / tR <= U / 2)%R → (4503599627370496 * U <= Xq)%R →
  (- (W / 2) <= Xp - Xq * 100 <= W / 2)%R → (4503599627370496 * W <= Xp)%R →
  (0 < U)%R → (0 < W)%R →
  (k <= Xp + 1 / 2 < k + 1)%R →
  (2 * tR * K <= 200 * vR + tR <= 2 * tR * K + 2 * tR - 1)%R →
  (W < 1)%R ∧ (k < K + 1)%R ∧ (K - 2 < k)%R ∧
  ((2 * tR * K + 1 <= 200 * vR + tR)%R → (K - 1 < k)%R).
Proof.
  intros Hv Ht Hq HU Hp HW HU0 HW0 Hk HK.
  set (X := (vR / tR)%R) in *. set (it := (/ tR)%R).
  assert (Hit : (it * tR = 1)%R) by (unfold it; field; lra).
  assert (HX : (X * tR = vR)%R) by (unfold X; field; lra).
  assert (Hit0 : (0 < it)%R) by (unfold it; apply Rinv_0_lt_compat; lra).
  assert (Hit1 : (/ 4294967296 < it)%R).
  { unfold it. apply Rinv_lt_contravar; [|lra].
    apply Rmult_lt_0_compat; lra. }
  assert (HX01 : (0 < X <= 1)%R).
  { split.
    - unfold X. apply Rdiv_lt_0_compat; lra.
    - apply (Rmult_le_reg_r tR); [lra|]. rewrite HX. lra. }
  assert (HK1 : (K <= 100 * X + 1 / 2)%R).
  { apply (Rmult_le_reg_r (2 * tR)); [lra|].
    replace ((100 * X + 1 / 2) * (2 * tR))%R with (200 * (X * tR) + tR)%R by field.
    rewrite HX. lra. }
  assert (HK2 : (100 * X + 1 / 2 <= K + 1 - it / 2)%R).
  { apply (Rmult_le_reg_r (2 * tR)); [lra|].
    replace ((100 * X + 1 / 2) * (2 * tR))%R with (200 * (X * tR) + tR)%R by field.
    replace ((K + 1 - it / 2) * (2 * tR))%R
      with (2 * tR * K + 2 * tR - it * tR)%R by field.
    rewrite HX, Hit. lra. }
  split; [lra|]. split; [lra|]. split; [lra|].
  intros Htie.
  assert (HK3 : (K + it / 2 <= 100 * X + 1 / 2)%R).
  { apply (Rmult_le_reg_r (2 * tR)); [lra|].
    replace ((100 * X + 1 / 2) * (2 * tR))%R with (200 * (X * tR) + tR)%R by field.
    replace ((K + it / 2) * (2 * tR))%R with (2 * tR * K + it * tR)%R by field.
    rewrite HX, Hit. lra. }
  lra.
Qed.

Lemma percent_0 t : 0 < t < 2 ^ 53 → percent 0 t = 0.
Proof.
  intros Ht. destruct (of_Z_normal t Ht) as (m & e & (p & Ht' & _) & _).
  unfold percent. rewrite Ht'. reflexivity.
Qed.

(** The reported percentage against the exactly rounded one: never
    above, at most one below, and equal unless [100 * v / t] lies exactly
    half-way between two integers. *)
Theorem percent_vs_exact (v t : Z) :
  0 ≤ v ≤ t → 0 < t < 2 ^ 32 →
  exact_percent v t - 1 ≤ percent v t ≤ exact_percent v t ∧
  ((200 * v + t) mod (2 * t) ≠ 0 → percent v t = exact_percent v t).
Proof.
  intros Hv Ht.
  assert (H32 : 2 ^ 32 < 2 ^ 53) by done.
  destruct (Z.eq_dec v 0) as [->|Hv0].
  { rewrite percent_0 by lia. unfold exact_percent.
    rewrite Z.mul_0_r, Z.add_0_l, Z.div_small by lia.
    split; [lia|done]. }
  destruct (of_Z_F2R v ltac:(lia)) as (mv & ev & Hnv & Hev & HFv).
  destruct (of_Z_F2R t ltac:(lia)) as (mt & et & Hnt & Het & HFt).
  destruct (div_F2R _ _ _ _ _ _ Hnv Hnt ltac:(lia) ltac:(lia))
    as (Mq & Eq & Hnq & HEq & Hq).
  destruct (mul_F2R _ _ _ _ _ _ Hnq of_Z_100 HEq ltac:(lia))
    as (Mp & Ep & Hnp & Hp).
  rewrite HFv, HFt in Hq. rewrite F2R_100 in Hp.
  pose proof (normal_F2R_lower _ _ _ Hnq) as HU.
  pose proof (normal_F2R_lower _ _ _ Hnp) as HW.
  rewrite bpow_52 in HU, HW.
  pose proof (bpow_pos Eq) as HU0. pose proof (bpow_pos Ep) as HW0.
  set (K := exact_percent v t).
  assert (HK : 2 * t * K ≤ 200 * v + t ≤ 2 * t * K + 2 * t - 1).
  { subst K. unfold exact_percent.
    pose proof (Z.mul_div_le (200 * v + t) (2 * t) ltac:(lia)).
    pose proof (Z.mul_succ_div_gt (200 * v + t) (2 * t) ltac:(lia)). lia. }
  assert (HKR : (2 * IZR t * IZR K <= 200 * IZR v + IZR t
                 <= 2 * IZR t * IZR K + 2 * IZR t - 1)%R).
  { destruct HK as [H1 H2]. apply IZR_le in H1, H2.
    push_IZR H1. push_IZR H2. lra. }
  assert (HvR : (0 < IZR v <= IZR t)%R)
    by (split; [apply IZR_lt|apply IZR_le]; lia).
  assert (HtR : (1 <= IZR t < 4294967296)%R).
  { split; [apply IZR_le; lia|].
    change 4294967296%R with (IZR (2 ^ 32)). apply IZR_lt. lia. }
  (* the exponent of the product is negative *)
  assert (HEp : Ep < 0).
  { destruct (Z.lt_ge_cases Ep 0) as [?|Hge]; [done|]. exfalso.
    pose proof (bpow_ge_1 Ep Hge) as H1.
    destruct (rounding_margin (IZR v) (IZR t) (F2R Mq Eq) (F2R Mp Ep)
                (bpow Eq) (bpow Ep) (F2R Mp Ep + 1 / 2) (IZR K))
      as (HW1 & _); try done; lra. }
  destruct Hnp as (pp & Hpp & HMp & HrMp).
  set (k := percent v t).
  assert (Hk : k = (2 * Mp + 2 ^ (- Ep)) / (2 * 2 ^ (- Ep))).
  { subst k. unfold percent. rewrite Hpp. unfold round.
    rewrite (proj2 (Z.leb_gt 0 Ep)) by lia. rewrite <- HMp.
    rewrite Z.pow_add_r, Z.pow_1_r by lia. f_equal. lia. }
  assert (HP : 0 < 2 ^ (- Ep)) by (apply Z.pow_pos_nonneg; lia).
  assert (Hkz : 2 * 2 ^ (- Ep) * k ≤ 2 * Mp + 2 ^ (- Ep)
                < 2 * 2 ^ (- Ep) * k + 2 * 2 ^ (- Ep)).
  { rewrite Hk.
    pose proof (Z.mul_div_le (2 * Mp + 2 ^ (- Ep)) (2 * 2 ^ (- Ep)) ltac:(lia)).
    pose proof (Z.mul_succ_div_gt (2 * Mp + 2 ^ (- Ep)) (2 * 2 ^ (- Ep))
                  ltac:(lia)). lia. }
  assert (HkR : (IZR k <= F2R Mp Ep + 1 / 2 < IZR k + 1)%R).
  { destruct Hkz as [H1 H2]. apply IZR_le in H1. apply IZR_lt in H2.
    push_IZR H1. push_IZR H2. rewrite IZR_pow2, bpow_opp in H1, H2 by lia.
    unfold F2R. revert H1 H2 HW0.
    generalize (bpow Ep), (IZR Mp), (IZR k). intros W m kr H1 H2 HW0.
    assert (Hinv : (/ W * W = 1)%R) by (field; lra).
    assert (HiW : (0 < / W)%R) by (by apply Rinv_0_lt_compat).
    split.
    - apply (Rmult_le_reg_r (2 * / W)); [lra|].
      replace ((m * W + 1 / 2) * (2 * / W))%R
        with (2 * m * (/ W * W) + / W)%R by (field; lra).
      rewrite Hinv. lra.
    - apply (Rmult_lt_reg_r (2 * / W)); [lra|].
      replace ((m * W + 1 / 2) * (2 * / W))%R
        with (2 * m * (/ W * W) + / W)%R by (field; lra).
      rewrite Hinv. lra. }
  destruct (rounding_margin (IZR v) (IZR t) (F2R Mq Eq) (F2R Mp Ep)
              (bpow Eq) (bpow Ep) (IZR k) (IZR K))
    as (_ & Hup & Hlow & Htie); try done.
  assert (Hup' : k < K + 1).
  { apply lt_IZR. rewrite plus_IZR. exact Hup. }
  assert (Hlow' : K - 2 < k).
  { apply lt_IZR. rewrite minus_IZR. exact Hlow. }
  split; [lia|]. intros Hmod.
  assert (Hge : 2 * t * K + 1 ≤ 200 * v + t).
  { subst K. unfold exact_percent.
    pose proof (Z.div_mod (200 * v + t) (2 * t) ltac:(lia)).
    pose proof (Z.mod_pos_bound (200 * v + t) (2 * t) ltac:(lia)). lia. }
  assert (HgeR : (2 * IZR t * IZR K + 1 <= 200 * IZR v + IZR t)%R).
  { apply IZR_le in Hge. push_IZR Hge. lra. }
  specialize (Htie HgeR).
  assert (K - 1 < k). { apply lt_IZR. rewrite minus_IZR. exact Htie. }
  lia.
Qed.
End JsNumberProofs.

(** ** Reconciliation engine *)

Module ReconciliationProofs.
Import Js Reconciliation.

Section Service.
Context {World : Type}.
Variable obtenerComprobante : string → World → Settled * World.
Variable buscarPorNumeroInterno : string → World → Settled * World.
Variable clock : World → Z.

Local Abbreviation procesar' := (procesar obtenerComprobante buscarPorNumeroInterno clock).
Local Abbreviation loop' := (loop obtenerComprobante buscarPorNumeroInterno clock).
Local Abbreviation outcomes' := (outcomes obtenerComprobante buscarPorNumeroInterno clock).
Local Abbreviation reconciliar' :=
  (_reconciliar obtenerComprobante buscarPorNumeroInterno clock).

Lemma loop_outcomes locales : ∀ a w,
  fst (loop' locales a w) = fold_left push (outcomes' locales w) a.
Proof.
  induction locales as [|l rest IH]; intros a w; [done|].
  cbn [loop outcomes]. destruct (procesar' l w) as [o w1]. apply IH.
Qed.

Lemma outcomes_length locales : ∀ w,
  List.length (outcomes' locales w) = List.length locales.
Proof.
  induction locales as [|l rest IH]; intros w; [done|].
  cbn [outcomes]. destruct (procesar' l w) as [o w1].
  cbn [List.length]. by rewrite IH.
Qed.

Lemma push_filed a o : filed (push a o) = S (filed a).
Proof.
  unfold filed. destruct o; cbn [push a_verificados a_discrepancias a_errores];
    rewrite List.length_app; simpl; lia.
Qed.

Lemma fold_push_filed os : ∀ a,
  filed (fold_left push os a) = (filed a + List.length os)%nat.
Proof.
  induction os as [|o os IH]; intros a; simpl; [lia|].
  rewrite IH, push_filed. lia.
Qed.

Lemma push_keeps_discrepancia a o d :
  In d (a_discrepancias a) → In d (a_discrepancias (push a o)).
Proof.
  destruct o; cbn [push a_discrepancias]; [done| |done].
  intros H. apply List.in_or_app. by left.
Qed.

Lemma fold_push_keeps os : ∀ a d,
  In d (a_discrepancias a) → In d (a_discrepancias (fold_left push os a)).
Proof.
  induction os as [|o os IH]; intros a d Hd; [done|].
  simpl. by apply IH, push_keeps_discrepancia.
Qed.

Lemma lookup_by_id_empty local w :
  empty_by_id (by_id obtenerComprobante local w) = true →
  lookup_by_id obtenerComprobante local w =
    (inr None, after_id obtenerComprobante local w).
Proof.
  unfold by_id, after_id, lookup_by_id.
  destruct (truthy_str (id local)); [|done].
  destruct (obtenerComprobante (template (id local)) w) as [[[c|]|[st|] msg] w1];
    simpl; try done.
  by intros ->.
Qed.

Lemma procesar_no_remote local w :
  no_remote_record obtenerComprobante buscarPorNumeroInterno local w →
  fst (procesar' (Some local) w) = ODiscrepancia (missing local).
Proof.
  intros [Hid Hnum]. unfold procesar.
  rewrite (lookup_by_id_empty local w Hid).
  unfold by_numero in Hnum. unfold lookup_by_numero.
  destruct (truthy_str (shopify_order_id local)); [|done].
  destruct (buscarPorNumeroInterno _ _) as [[[c|]|st msg] w2]; simpl in *; done.
Qed.

Lemma procesar_match local w biller :
  remote_match obtenerComprobante buscarPorNumeroInterno local w biller →
  ∃ w', procesar' (Some local) w =
          (OVerificado (mkVerificado local biller (clock w')), w').
Proof.
  intros [[Hid|[Hid Hnum]] Hcons]; unfold procesar.
  - unfold by_id in Hid. unfold lookup_by_id.
    destruct (truthy_str (id local)); [|done].
    destruct (obtenerComprobante (template (id local)) w) as [res w1].
    simpl in Hid. injection Hid as ->. cbn [lookup_by_numero].
    rewrite Hcons. by eexists.
  - rewrite (lookup_by_id_empty local w Hid).
    unfold by_numero in Hnum. unfold lookup_by_numero.
    destruct (truthy_str (shopify_order_id local)); [|done].
    destruct (buscarPorNumeroInterno _ _) as [res w2].
    simpl in Hnum. injection Hnum as ->. rewrite Hcons. by eexists.
Qed.

Lemma outcomes_app pre : ∀ post w,
  outcomes' (pre ++ post) w =
    outcomes' pre w ++
    outcomes' post (world_after obtenerComprobante buscarPorNumeroInterno clock pre w).
Proof.
  induction pre as [|l pre IH]; intros post w; [done|].
  cbn [app outcomes world_after].
  destruct (procesar' l w) as [o w1]. cbn [snd app]. by rewrite IH.
Qed.

Lemma outcomes_In pre local post w :
  no_remote_record obtenerComprobante buscarPorNumeroInterno local
    (world_after obtenerComprobante buscarPorNumeroInterno clock pre w) →
  In (ODiscrepancia (missing local)) (outcomes' (pre ++ Some local :: post) w).
Proof.
  intros Hno. rewrite outcomes_app. apply List.in_or_app. right.
  cbn [outcomes]. pose proof (procesar_no_remote local _ Hno) as Hp.
  destruct (procesar' (Some local) _) as [o w1]. simpl in Hp. subst o. by left.
Qed.

Lemma fold_push_In os : ∀ a d,
  In (ODiscrepancia d) os → In d (a_discrepancias (fold_left push os a)).
Proof.
  induction os as [|o os IH]; intros a d Hin; [done|].
  simpl. destruct Hin as [->|Hin].
  - apply fold_push_keeps. cbn [push a_discrepancias].
    apply List.in_or_app. right. by left.
  - by apply IH.
Qed.

Lemma reconciliar_fields locales reportId w :
  let a := fst (loop' locales (mkAcc [] [] []) w) in
  let r := fst (reconciliar' locales reportId w) in
  r_discrepancias r = a_discrepancias a ∧
  r_errores r = a_errores a ∧
  total (resumen r) = Z.of_nat (List.length locales) ∧
  verificados (resumen r) = Z.of_nat (List.length (a_verificados a)) ∧
  discrepancias (resumen r) = Z.of_nat (List.length (a_discrepancias a)) ∧
  errores (resumen r) = Z.of_nat (List.length (a_errores a)) ∧
  tasaExito (resumen r) =
    (if 0 <? Z.of_nat (List.length locales)
     then JsNumber.percent (Z.of_nat (List.length (a_verificados a)))
            (Z.of_nat (List.length locales))
     else 100) ∧
  critical (porSeveridad r) = count_severity CRITICAL (a_discrepancias a).
Proof.
  unfold _reconciliar. destruct (loop' locales _ w) as [a w1]. done.
Qed.

(** C9.  A local record for which, in the state of the outside world
    when the run reaches it, the remote lookups find no remote record
    (the lookup by id is not made, returns nothing or fails with
    status 404, and the lookup by internal number is not made, returns
    nothing or fails) is filed as a discrepancy of type
    [missing_in_biller] with severity [critical] and the
    recommendation to verify and re-emit, and the report of the run
    lists that discrepancy, wherever the record stands in the input.
    A run over two records of which exactly one has no remote record,
    the other having a remote match, found by id or else by internal
    number, whose data agree with it, reports total 2, verified 1,
    discrepancies 1, no errors, the verified record with its remote
    match, and exactly the one critical discrepancy. *)
Theorem missing_remote_classification :
  (∀ local w,
     no_remote_record obtenerComprobante buscarPorNumeroInterno local w →
     d_tipo (missing local) = MISSING_IN_BILLER ∧
     d_severity (missing local) = CRITICAL ∧
     d_biller (missing local) = None ∧
     d_accionRecomendada (missing local) =
       "Verificar si la emisión falló y re-emitir si es necesario" ∧
     fst (procesar' (Some local) w) = ODiscrepancia (missing local)) ∧
  (∀ pre local post reportId w,
     no_remote_record obtenerComprobante buscarPorNumeroInterno local
       (world_after obtenerComprobante buscarPorNumeroInterno clock pre w) →
     In (missing local)
        (r_discrepancias
           (fst (reconciliar' (pre ++ Some local :: post) reportId w)))) ∧
  (∀ l1 l2 biller reportId w,
     let w1 := snd (procesar' (Some l1) w) in
     let r := fst (reconciliar' [Some l1; Some l2] reportId w) in
     (remote_match obtenerComprobante buscarPorNumeroInterno l1 w biller ∧
      no_remote_record obtenerComprobante buscarPorNumeroInterno l2 w1 →
      total (resumen r) = 2 ∧
      verificados (resumen r) = 1 ∧
      discrepancias (resumen r) = 1 ∧
      errores (resumen r) = 0 ∧
      List.map (λ v, (v_local v, v_biller v)) (r_verificados r) = [(l1, biller)] ∧
      r_discrepancias r = [missing l2] ∧
      critical (porSeveridad r) = 1) ∧
     (no_remote_record obtenerComprobante buscarPorNumeroInterno l1 w ∧
      remote_match obtenerComprobante buscarPorNumeroInterno l2 w1 biller →
      total (resumen r) = 2 ∧
      verificados (resumen r) = 1 ∧
      discrepancias (resumen r) = 1 ∧
      errores (resumen r) = 0 ∧
      List.map (λ v, (v_local v, v_biller v)) (r_verificados r) = [(l2, biller)] ∧
      r_discrepancias r = [missing l1] ∧
      critical (porSeveridad r) = 1)).
Proof.
  split; [|split].
  - intros local w Hno. repeat (split; [reflexivity|]).
    by apply procesar_no_remote.
  - intros pre local post reportId w Hno.
    destruct (reconciliar_fields (pre ++ Some local :: post) reportId w)
      as (-> & _).
    rewrite loop_outcomes. by apply fold_push_In, outcomes_In.
  - intros l1 l2 biller reportId w w1 r. subst w1 r.
    unfold _reconciliar. cbn [loop].
    split.
    + intros [Hm Hno]. destruct (procesar_match l1 w biller Hm) as [w' Hp1].
      rewrite Hp1 in *. cbn [snd] in Hno.
      pose proof (procesar_no_remote l2 w' Hno) as Hp2.
      destruct (procesar' (Some l2) w') as [o2 w2]. simpl in Hp2. subst o2.
      done.
    + intros [Hno Hm].
      pose proof (procesar_no_remote l1 w Hno) as Hp1.
      destruct (procesar' (Some l1) w) as [o1 w'] eqn:Hp. simpl in Hp1. subst o1.
      cbn [snd] in Hm.
      destruct (procesar_match l2 w' biller Hm) as [w2 Hp2].
      rewrite Hp2. done.
Qed.

(** C10, amended.  Every element of the input yields exactly one
    outcome, filed in exactly one of the three arrays, so the summary
    satisfies [total = verificados + discrepancias + errores].  The
    success rate is 100 for an empty input and otherwise the value of
    [Math.round((verificados / total) * 100)] in double-precision
    arithmetic: it is the exactly rounded percentage
    [round(100 * verificados / total)], except that it may be one less
    when [100 * verificados / total] lies exactly half-way between two
    integers. *)
Theorem report_consistency (locales : list (option Comprobante))
    (reportId : string) (w : World) :
  let r := fst (reconciliar' locales reportId w) in
  let os := outcomes' locales w in
  List.length os = List.length locales ∧
  fst (loop' locales (mkAcc [] [] []) w) = fold_left push os (mkAcc [] [] []) ∧
  (∀ a o, filed (push a o) = S (filed a)) ∧
  total (resumen r) = Z.of_nat (List.length locales) ∧
  total (resumen r) =
    verificados (resumen r) + discrepancias (resumen r) + errores (resumen r) ∧
  discrepancias (resumen r) = Z.of_nat (List.length (r_discrepancias r)) ∧
  errores (resumen r) = Z.of_nat (List.length (r_errores r)) ∧
  (locales = [] → tasaExito (resumen r) = 100) ∧
  (locales ≠ [] →
   tasaExito (resumen r) =
     JsNumber.percent (verificados (resumen r)) (total (resumen r))) ∧
  (0 < total (resumen r) < 2 ^ 32 →
   let exact :=
     JsNumber.exact_percent (verificados (resumen r)) (total (resumen r)) in
   exact - 1 ≤ tasaExito (resumen r) ≤ exact ∧
   ((200 * verificados (resumen r) + total (resumen r))
      mod (2 * total (resumen r)) ≠ 0 →
    tasaExito (resumen r) = exact)).
Proof.
  intros r os.
  destruct (reconciliar_fields locales reportId w)
    as (Hd & He & Ht & Hv & Hdn & Hen & Hrate & _).
  fold r in Hd, He, Ht, Hv, Hdn, Hen, Hrate.
  split; [apply outcomes_length|]. split; [apply loop_outcomes|].
  split; [apply push_filed|]. split; [exact Ht|].
  assert (Hsum : total (resumen r) =
    verificados (resumen r) + discrepancias (resumen r) + errores (resumen r)).
  { rewrite Ht, Hv, Hdn, Hen, loop_outcomes.
    pose proof (fold_push_filed (outcomes' locales w) (mkAcc [] [] [])) as Hf.
    rewrite outcomes_length in Hf. unfold filed in Hf. simpl in Hf. lia. }
  assert (Hpct : locales ≠ [] →
    tasaExito (resumen r) =
      JsNumber.percent (verificados (resumen r)) (total (resumen r))).
  { intros Hne. rewrite Hrate, Ht, Hv. destruct locales; done. }
  split; [exact Hsum|]. split; [by rewrite Hdn, Hd|].
  split; [by rewrite Hen, He|]. split; [intros ->; exact Hrate|].
  split; [exact Hpct|].
  intros Hsmall exact. subst exact. rewrite Hpct.
  - apply JsNumberProofs.percent_vs_exact; [|done].
    rewrite Hdn, Hen, Hv in Hsum. rewrite Hv. lia.
  - intros ->. rewrite Ht in Hsmall. simpl in Hsmall. lia.
Qed.
End Service.

(** C10, as stated, fails: with 23 of 40 records verified the report
    shows a success rate of 57, while [100 * 23 / 40 = 57.5] rounds to
    58.  In double precision [23 / 40 * 100] is slightly below 57.5. *)
Lemma success_rate_counterexample :
  let r := sample_run (repeat (Some emitido) 23 ++ repeat (Some perdido) 17) in
  total (resumen r) = 40 ∧
  verificados (resumen r) = 23 ∧
  tasaExito (resumen r) = 57 ∧
  JsNumber.exact_percent 23 40 = 58.
Proof. vm_compute. repeat split. Qed.

Lemma missing_remote_classification_witness :
  let r := sample_run [Some por_numero; Some perdido] in
  let r' := fst (_reconciliar once_obtener never_buscar calls_clock
                   [Some emitido; Some emitido] "20231114-221320-ab12" 0%nat) in
  fst (procesar sample_obtener sample_buscar sample_clock (Some perdido) tt)
    = ODiscrepancia (missing perdido) ∧
  (total (resumen r) = 2 ∧
   verificados (resumen r) = 1 ∧
   discrepancias (resumen r) = 1 ∧
   List.map (λ v, (v_local v, v_biller v)) (r_verificados r)
     = [(por_numero, emitido)] ∧
   r_discrepancias r = [missing perdido] ∧
   critical (porSeveridad r) = 1) ∧
  (total (resumen r') = 2 ∧
   verificados (resumen r') = 1 ∧
   discrepancias (resumen r') = 1 ∧
   r_discrepancias r' = [missing emitido] ∧
   critical (porSeveridad r') = 1).
Proof.
  destruct (missing_remote_classification sample_obtener sample_buscar sample_clock)
    as (Hone & _ & Htwo).
  destruct (missing_remote_classification once_obtener never_buscar calls_clock)
    as (_ & _ & Hstate).
  assert (Hno : no_remote_record sample_obtener sample_buscar perdido tt)
    by (split; reflexivity).
  assert (Hm : remote_match sample_obtener sample_buscar por_numero tt emitido)
    by (split; [right; split; reflexivity|reflexivity]).
  destruct (Hone perdido tt Hno) as (_ & _ & _ & _ & Hproc).
  destruct (Htwo por_numero perdido emitido "20231114-221320-ab12" tt) as [H12 _].
  destruct (H12 (conj Hm Hno)) as (Ht & Hv & Hd & _ & Hvl & Hlist & Hcrit).
  destruct (Hstate emitido emitido emitido "20231114-221320-ab12" 0%nat) as [H12' _].
  destruct H12' as (Ht' & Hv' & Hd' & _ & _ & Hlist' & Hcrit').
  { split.
    - split; [left; reflexivity|reflexivity].
    - split; reflexivity. }
  cbv zeta. split; [exact Hproc|]. unfold sample_run. split.
  - split; [exact Ht|]. split; [exact Hv|]. split; [exact Hd|].
    split; [exact Hvl|]. split; [exact Hlist|exact Hcrit].
  - split; [exact Ht'|]. split; [exact Hv'|]. split; [exact Hd'|].
    split; [exact Hlist'|exact Hcrit'].
Defined.

Lemma report_consistency_witness :
  let r := sample_run [Some emitido; None; Some perdido] in
  total (resumen r) =
    verificados (resumen r) + discrepancias (resumen r) + errores (resumen r) ∧
  tasaExito (resumen r) =
    JsNumber.percent (verificados (resumen r)) (total (resumen r)) ∧
  JsNumber.exact_percent (verificados (resumen r)) (total (resumen r)) - 1
    ≤ tasaExito (resumen r)
    ≤ JsNumber.exact_percent (verificados (resumen r)) (total (resumen r)).
Proof.
  destruct (report_consistency sample_obtener sample_buscar sample_clock
              [Some emitido; None; Some perdido] "20231114-221320-ab12" tt)
    as (_ & _ & _ & _ & Hsum & _ & _ & _ & Hpct & Hsmall).
  cbv zeta. unfold sample_run. split; [exact Hsum|].
  split; [apply Hpct; discriminate|].
  apply Hsmall. vm_compute. split; reflexivity.
Defined.
End ReconciliationProofs.

(** * Further properties of the components *)

(** ** Facts about lists *)

Module ListFacts.

Lemma sublist_List_filter {A} (f : A → bool) (l : list A) :
  sublist (List.filter f l) l.
Proof.
  induction l as [|x l IH]; simpl; [constructor|].
  destruct (f x); by constructor.
Qed.

Lemma filter_complement_length {A} (f : A → bool) (l : list A) :
  (List.length (List.filter f l) + List.length (List.filter (λ x, negb (f x)) l)
   = List.length l)%nat.
Proof.
  induction l as [|x l IH]; simpl; [done|].
  destruct (f x); simpl; lia.
Qed.

End ListFacts.

(** ** Facts about strings *)

Module StringFacts.

Lemma append_nil_l (s : string) : "" +:+ s = s.
Proof. reflexivity. Qed.

Lemma append_cons a (s t : string) : String a s +:+ t = String a (s +:+ t).
Proof. reflexivity. Qed.

(** Unfolds the concatenations whose left operand starts with a known
    character. *)
Ltac push_append :=
  repeat first [rewrite append_cons | rewrite append_nil_l].

Ltac push_append_in H :=
  repeat first [rewrite append_cons in H | rewrite append_nil_l in H].

Lemma prefix_nil (s : string) : String.prefix "" s = true.
Proof. by destruct s. Qed.

Lemma prefix_cons a b (s t : string) :
  String.prefix (String a s) (String b t) = Ascii.eqb a b && String.prefix s t.
Proof.
  simpl. destruct (ascii_dec a b) as [->|Hne].
  - by rewrite Ascii.eqb_refl.
  - by rewrite (proj2 (Ascii.eqb_neq a b)).
Qed.

Lemma append_assoc (a b c : string) : (a +:+ b) +:+ c = a +:+ (b +:+ c).
Proof. induction a as [|x a IH]; push_append; [done|by rewrite IH]. Qed.

Lemma append_inj_l (p a b : string) : p +:+ a = p +:+ b → a = b.
Proof.
  induction p as [|x p IH]; push_append; [done|].
  intros H. injection H as H. by apply IH.
Qed.

End StringFacts.

(** ** Deduplication gate: retries, sweeps and unrelated keys *)

Module DedupeBehaviour.
Import Dedupe DedupeProofs.

Lemma store_eq (s1 s2 : store) :
  processed s1 = processed s2 → inProgress s1 = inProgress s2 →
  windowMs s1 = windowMs s2 → s1 = s2.
Proof. destruct s1, s2; simpl; intros -> -> ->; reflexivity. Qed.

(** X1.  When [tryAcquire] has admitted a webhook, [release] puts the
    store back exactly as it was before the webhook arrived, so that a
    redelivery of the webhook is admitted again. *)
Theorem release_undoes_tryAcquire (s : store) (topic resourceId : string) :
  fst (tryAcquire s topic resourceId) = true →
  let s1 := snd (tryAcquire s topic resourceId) in
  release s1 topic resourceId = s ∧
  fst (tryAcquire (release s1 topic resourceId) topic resourceId) = true.
Proof.
  intros Hacq s1.
  assert (Hrel : release s1 topic resourceId = s).
  { subst s1. rewrite (tryAcquire_true_state _ _ _ Hacq).
    apply tryAcquire_true_iff in Hacq as [Hin _].
    apply store_eq; simpl; [done| |done].
    apply set_eq. intros x.
    rewrite elem_of_difference, elem_of_union, elem_of_singleton.
    split; [intros [[->|H] Hne]; [done|exact H]|].
    intros Hx. split; [by right|]. intros ->. done. }
  split; [exact Hrel|]. by rewrite Hrel.
Qed.

Lemma release_undoes_tryAcquire_witness :
  release (snd (tryAcquire (complete (new None) 1000 "orders/paid" "41")
                  "orders/paid" "42")) "orders/paid" "42" =
    complete (new None) 1000 "orders/paid" "41" ∧
  fst (tryAcquire
         (release (snd (tryAcquire (complete (new None) 1000 "orders/paid" "41")
                         "orders/paid" "42")) "orders/paid" "42")
         "orders/paid" "42") = true.
Proof.
  apply (release_undoes_tryAcquire
           (complete (new None) 1000 "orders/paid" "41") "orders/paid" "42").
  vm_compute. reflexivity.
Defined.

(** X2.  The sweep leaves the in-flight keys alone, and sweeps compose:
    a sweep at [t1] followed by a sweep at a later time [t2] leaves the
    store that the sweep at [t2] alone leaves.  In particular a sweep
    repeated at the same time changes nothing more. *)
Theorem cleanup_compose (s : store) (t1 t2 : Z) :
  t1 ≤ t2 →
  cleanup (cleanup s t1) t2 = cleanup s t2 ∧
  inProgress (cleanup s t2) = inProgress s.
Proof.
  intros Hle. split; [|reflexivity].
  apply store_eq; [|reflexivity|reflexivity].
  apply map_eq. intros k. apply option_eq. intros ts.
  rewrite !cleanup_lookup. simpl.
  split; [intros [[H1 H2] H3]; done|].
  intros [H1 H2]. split; [split; [done|lia]|done].
Qed.

Lemma cleanup_compose_witness :
  cleanup (cleanup (run (new None) late_trace) 320000) 380000 =
    cleanup (run (new None) late_trace) 380000 ∧
  inProgress (cleanup (run (new None) late_trace) 380000) =
    inProgress (run (new None) late_trace).
Proof.
  apply (cleanup_compose (run (new None) late_trace) 320000 380000). lia.
Defined.

Lemma step_keeps_free s e k :
  concerns k (snd e) = false →
  (k ∉ inProgress s) ∧ processed s !! k = None →
  (k ∉ inProgress (step s e)) ∧ processed (step s e) !! k = None.
Proof.
  intros Hc [Hin Hp].
  destruct e as [now [t r|t r|t r|]]; unfold step; simpl in *.
  - apply bool_decide_eq_false in Hc.
    rewrite tryAcquire_processed. split; [|done].
    unfold tryAcquire. repeat case_bool_decide; simpl; try done.
    rewrite elem_of_union, elem_of_singleton. intros [->|Hk]; done.
  - apply bool_decide_eq_false in Hc. split.
    + rewrite elem_of_difference. tauto.
    + rewrite lookup_insert_ne; done.
  - split; [|done]. rewrite elem_of_difference. tauto.
  - split; [done|]. apply map_lookup_filter_None. by left.
Qed.

(** X3.  Webhooks do not block one another: whatever calls are made
    for other keys, and whatever sweeps run, a key that was free is
    still free afterwards, and [tryAcquire] admits it. *)
Theorem tryAcquire_unaffected_by_other_keys (s : store)
    (topic resourceId : string) (tr : list event) :
  Forall (λ e : event, concerns (mkKey topic resourceId) (snd e) = false) tr →
  fst (tryAcquire s topic resourceId) = true →
  fst (tryAcquire (run s tr) topic resourceId) = true.
Proof.
  intros Htr Hfree. apply tryAcquire_true_iff in Hfree.
  apply tryAcquire_true_iff. revert s Hfree.
  induction Htr as [|e tr He _ IH]; intros s Hfree; [done|].
  rewrite run_cons. apply IH. by apply step_keeps_free.
Qed.

Lemma tryAcquire_unaffected_by_other_keys_witness :
  fst (tryAcquire
         (run (new None)
            [(1000, TryAcquire "orders/paid" "41");
             (2000, TryAcquire "refunds/create" "42");
             (3000, Complete "orders/paid" "41");
             (60000, Cleanup);
             (61000, Release "refunds/create" "42")])
         "orders/paid" "42") = true.
Proof.
  apply (tryAcquire_unaffected_by_other_keys (new None) "orders/paid" "42").
  - repeat (constructor; [vm_compute; reflexivity|]). constructor.
  - vm_compute. reflexivity.
Defined.

End DedupeBehaviour.

(** ** Circuit breaker: recovery, counters and administration *)

Module CircuitBreakerBehaviour.
Import Js JsProofs ListFacts CircuitBreaker CircuitBreakerProofs.

Lemma run_snoc b ops o : run b (ops ++ [o]) = step (run b ops) o.
Proof. unfold run. by rewrite fold_left_app. Qed.

Lemma recordSuccess_half_open b now lat :
  state b = HALF_OPEN →
  successThreshold (recordSuccess b now lat) = successThreshold b ∧
  if successThreshold b <=? consecutiveSuccesses b + 1
  then state (recordSuccess b now lat) = CLOSED ∧
       failures (recordSuccess b now lat) = 0 ∧
       consecutiveSuccesses (recordSuccess b now lat) = 0
  else state (recordSuccess b now lat) = HALF_OPEN ∧
       consecutiveSuccesses (recordSuccess b now lat) = consecutiveSuccesses b + 1.
Proof.
  intros Hst. unfold recordSuccess. simpl. rewrite Hst.
  destruct (successThreshold b <=? consecutiveSuccesses b + 1); simpl; done.
Qed.

Lemma successes_keep_half_open calls : ∀ b,
  state b = HALF_OPEN →
  consecutiveSuccesses b + Z.of_nat (List.length calls) < successThreshold b →
  state (run b (successes_at calls)) = HALF_OPEN ∧
  consecutiveSuccesses (run b (successes_at calls)) =
    consecutiveSuccesses b + Z.of_nat (List.length calls) ∧
  successThreshold (run b (successes_at calls)) = successThreshold b.
Proof.
  induction calls as [|c calls IH]; intros b Hst Hlt.
  - simpl. split; [done|]. split; [lia|done].
  - cbn [successes_at List.map run fold_left step].
    cbn [List.length] in Hlt. rewrite Nat2Z.inj_succ in Hlt.
    destruct (recordSuccess_half_open b (fst c) (snd c) Hst) as [Hth Hcase].
    rewrite (proj2 (Z.leb_gt _ _)) in Hcase by lia.
    destruct Hcase as [Hst' Hcs'].
    destruct (IH (recordSuccess b (fst c) (snd c)) Hst') as (H1 & H2 & H3).
    + rewrite Hcs', Hth. lia.
    + unfold successes_at, run in *. rewrite H1, H2, H3, Hcs', Hth.
      cbn [List.length]. rewrite Nat2Z.inj_succ. split; [done|]. split; [lia|done].
Qed.

(** X4.  Recovery completes after [successThreshold] trial successes.
    While the circuit is HALF_OPEN, recorded successes leave it
    HALF_OPEN as long as the consecutive successes stay below
    [successThreshold]; the success that reaches the threshold closes
    the circuit and zeroes the failure count. *)
Theorem half_open_closes_at_successThreshold (b : Breaker) (calls : list (Z * Z)) :
  state b = HALF_OPEN →
  let n := Z.of_nat (List.length calls) in
  let b' := run b (successes_at calls) in
  (consecutiveSuccesses b + n < successThreshold b →
     state b' = HALF_OPEN ∧ consecutiveSuccesses b' = consecutiveSuccesses b + n) ∧
  (0 < n → consecutiveSuccesses b + n = successThreshold b →
     state b' = CLOSED ∧ failures b' = 0 ∧ consecutiveSuccesses b' = 0 ∧
     ∀ now, canExecute b' now = (true, b')).
Proof.
  intros Hst n b'. split.
  - intros Hlt.
    destruct (successes_keep_half_open calls b Hst Hlt) as (H1 & H2 & _). done.
  - intros Hpos Heq. subst n b'.
    destruct calls as [|c0 calls0] using rev_ind; [simpl in Hpos; lia|].
    clear IHcalls0. rewrite List.length_app, Nat2Z.inj_add in Heq. simpl in Heq.
    unfold successes_at. rewrite List.map_app. simpl. rewrite run_snoc.
    fold (successes_at calls0). cbn [step].
    destruct (successes_keep_half_open calls0 b Hst) as (H1 & H2 & H3); [lia|].
    destruct (recordSuccess_half_open (run b (successes_at calls0))
                (fst c0) (snd c0) H1) as [_ Hcase].
    rewrite (proj2 (Z.leb_le _ _)) in Hcase by lia.
    destruct Hcase as (Hc1 & Hc2 & Hc3).
    split; [done|]. split; [done|]. split; [done|].
    intros now. unfold canExecute. by rewrite Hc1.
Qed.

Lemma half_open_closes_at_successThreshold_witness :
  state (run (snd (canExecute opened 33000))
           (successes_at [(33100, 100)])) = HALF_OPEN ∧
  state (run (snd (canExecute opened 33000))
           (successes_at [(33100, 100); (33200, 80)])) = CLOSED ∧
  failures (run (snd (canExecute opened 33000))
              (successes_at [(33100, 100); (33200, 80)])) = 0.
Proof.
  assert (Hst : state (snd (canExecute opened 33000)) = HALF_OPEN) by reflexivity.
  destruct (half_open_closes_at_successThreshold
              (snd (canExecute opened 33000)) [(33100, 100)] Hst) as [H1 _].
  destruct (half_open_closes_at_successThreshold
              (snd (canExecute opened 33000)) [(33100, 100); (33200, 80)] Hst)
    as [_ H2].
  split; [apply H1; vm_compute; reflexivity|].
  destruct H2 as (H3 & H4 & _); [vm_compute; reflexivity|vm_compute; reflexivity|].
  split; [exact H3|exact H4].
Defined.

Lemma failures_keep_closed e calls : ∀ b,
  state b = CLOSED →
  failures b + Z.of_nat (List.length calls) < failureThreshold b →
  state (run b (failures_at e calls)) = CLOSED ∧
  failures (run b (failures_at e calls)) =
    failures b + Z.of_nat (List.length calls).
Proof.
  induction calls as [|c calls IH]; intros b Hst Hlt.
  - simpl. split; [done|lia].
  - cbn [failures_at List.map run fold_left step].
    cbn [List.length] in Hlt. rewrite Nat2Z.inj_succ in Hlt.
    pose proof (recordFailure_closed b (fst c) e (snd c) Hst) as Hst'.
    rewrite (proj2 (Z.leb_gt (failureThreshold b) (failures b + 1))) in Hst' by lia.
    rewrite andb_false_r in Hst'.
    pose proof (recordFailure_failures_closed b (fst c) e (snd c) Hst) as Hf.
    destruct (recordFailure_config b (fst c) e (snd c)) as (Hth & _).
    destruct (IH (recordFailure b (fst c) e (snd c)) Hst') as (H1 & H2).
    + rewrite Hf, Hth. lia.
    + unfold failures_at, run in *. rewrite H1, H2, Hf.
      cbn [List.length]. rewrite Nat2Z.inj_succ. split; [done|lia].
Qed.

(** X5.  Only consecutive failures count towards opening: a success
    recorded while CLOSED zeroes the failure count, and after it the
    circuit stays CLOSED through any run of fewer than
    [failureThreshold] failures, whatever happened before. *)
Theorem success_resets_failure_count (b : Breaker) (now lat : Z)
    (e : option JsError) (calls : list (Z * Z)) :
  state b = CLOSED →
  let b1 := recordSuccess b now lat in
  state b1 = CLOSED ∧ failures b1 = 0 ∧
  (Z.of_nat (List.length calls) < failureThreshold b →
     state (run b1 (failures_at e calls)) = CLOSED ∧
     failures (run b1 (failures_at e calls)) = Z.of_nat (List.length calls)).
Proof.
  intros Hst b1.
  assert (H1 : state b1 = CLOSED ∧ failures b1 = 0 ∧
               failureThreshold b1 = failureThreshold b).
  { subst b1. unfold recordSuccess. simpl. rewrite Hst. done. }
  destruct H1 as (H1 & H2 & H3). split; [done|]. split; [done|].
  intros Hlt.
  destruct (failures_keep_closed e calls b1 H1) as [H4 H5]; [lia|].
  split; [done|]. rewrite H5. lia.
Qed.

Lemma success_resets_failure_count_witness :
  state (recordSuccess closed_twice 2500 7) = CLOSED ∧
  failures (recordSuccess closed_twice 2500 7) = 0 ∧
  state (run (recordSuccess closed_twice 2500 7)
           (failures_at None [(3000, 5); (3100, 5)])) = CLOSED ∧
  failures (run (recordSuccess closed_twice 2500 7)
              (failures_at None [(3000, 5); (3100, 5)])) = 2.
Proof.
  destruct (success_resets_failure_count closed_twice 2500 7 None
              [(3000, 5); (3100, 5)]) as (H1 & H2 & H3); [reflexivity|].
  split; [exact H1|]. split; [exact H2|]. apply H3. vm_compute. reflexivity.
Defined.

Lemma new_well_formed o : well_formed (new o).
Proof.
  unfold well_formed. simpl. repeat (split; [lia|]). discriminate.
Qed.

Lemma step_well_formed b o : well_formed b → well_formed (step b o).
Proof.
  unfold well_formed.
  intros (H1 & H2 & H3 & H4 & H5 & H6 & H7 & H8).
  destruct o as [now|now lat|now e lat| |now|now st|]; cbn [step];
    [unfold canExecute|unfold recordSuccess|unfold recordFailure, _shouldOpen
    | | |unfold forceState; destruct (parse_STATE st) as [[| |]|]|];
    simpl; try (destruct (state b) eqn:Hst; simpl); case_ifs; simpl;
    repeat match goal with |- _ ∧ _ => split end;
    try lia; try discriminate; try (by eexists);
    try (intros _; by apply H8); try (rewrite Hst; discriminate); try done.
Qed.

(** X6.  The counters of a breaker stay consistent through every call
    made on it, from its construction on: each recorded call is counted
    as a success or as a failure, timeouts are counted among the
    failures, no counter is negative, and a breaker found OPEN always
    carries the time of its next attempt. *)
Theorem run_well_formed (o : Options) (ops : list op) :
  well_formed (run (new o) ops).
Proof.
  induction ops as [|x ops IH] using rev_ind.
  - apply new_well_formed.
  - rewrite run_snoc. by apply step_well_formed.
Qed.

Lemma last100_spec (l : list Z) :
  (100 < List.length l)%nat →
  last100 l = skipn (List.length l - 100) l.
Proof.
  intros Hlen. unfold last100, slice.
  assert (H1 : (-100 <? 0) = true) by reflexivity. rewrite H1.
  assert (H2 : (Z.of_nat (List.length l) <? 0) = false) by (apply Z.ltb_ge; lia).
  rewrite H2.
  set (len := Z.of_nat (List.length l)) in *.
  replace (Z.max (len + -100) 0) with (len - 100) by lia.
  rewrite Z.min_id.
  replace (Z.max (len - (len - 100)) 0) with 100 by lia.
  replace (Z.to_nat (len - 100)) with (List.length l - 100)%nat by lia.
  apply List.firstn_all2. rewrite List.length_skipn. lia.
Qed.

(** X7.  Pruning the metrics keeps the hundred most recent latencies,
    and all of them when there are fewer, and keeps, in order, exactly
    the call records stamped later than [now - windowDuration]; the
    counters, the state and the configuration are left as they are. *)
Theorem _cleanupMetrics_prunes (b : Breaker) (now : Z) :
  let m := metrics b in
  let b' := _cleanupMetrics b now in
  let m' := metrics b' in
  (∃ dropped, latencies m = dropped ++ latencies m' ∧
     (dropped = [] ∨ List.length (latencies m') = 100%nat)) ∧
  (List.length (latencies m') ≤ 100)%nat ∧
  (∀ c, In c (callsInWindow m') ↔
        In c (callsInWindow m) ∧ now - windowDuration b < timestamp c) ∧
  sublist (callsInWindow m') (callsInWindow m) ∧
  (totalCalls m', successfulCalls m', failedCalls m', rejectedCalls m', timeouts m') =
    (totalCalls m, successfulCalls m, failedCalls m, rejectedCalls m, timeouts m) ∧
  (state b', failures b', successes b', consecutiveSuccesses b', nextAttemptTime b') =
    (state b, failures b, successes b, consecutiveSuccesses b, nextAttemptTime b).
Proof.
  intros m b' m'. subst b' m'. unfold _cleanupMetrics. fold m. cbn [metrics set_metrics].
  cbn [latencies callsInWindow totalCalls successfulCalls failedCalls
       rejectedCalls timeouts].
  assert (Hlat :
    (∃ dropped,
       latencies m = dropped ++
         (if 100 <? Z.of_nat (List.length (latencies m))
          then last100 (latencies m) else latencies m) ∧
       (dropped = [] ∨
        List.length (if 100 <? Z.of_nat (List.length (latencies m))
                     then last100 (latencies m) else latencies m) = 100%nat)) ∧
    (List.length (if (100 <? Z.of_nat (List.length (latencies m)))%Z
                  then last100 (latencies m) else latencies m) ≤ 100)%nat).
  { destruct (100 <? Z.of_nat (List.length (latencies m))) eqn:Hlen.
    - apply Z.ltb_lt in Hlen.
      rewrite last100_spec by lia. split.
      + exists (firstn (List.length (latencies m) - 100) (latencies m)).
        split; [by rewrite List.firstn_skipn|].
        right. rewrite List.length_skipn. lia.
      + rewrite List.length_skipn. lia.
    - apply Z.ltb_ge in Hlen. split; [exists []; split; [done|by left]|lia]. }
  destruct Hlat as [Hl1 Hl2].
  split; [exact Hl1|]. split; [exact Hl2|]. split.
  - intros c. rewrite List.filter_In. rewrite Z.ltb_lt. done.
  - split; [|done]. apply sublist_List_filter.
Qed.

(** X8.  Forcing the state.  [forceState] accepts exactly the three
    state names and throws for anything else.  Forced OPEN at time [t],
    the breaker rejects every call before [t + timeout] and admits a
    trial call, turning HALF_OPEN, from then on; its failure count and
    metrics are left as they are.  Forced CLOSED, its failure count and
    consecutive successes are zero. *)
Theorem forceState_behaviour (b : Breaker) (t : Z) :
  (∀ st, (∃ b', forceState b t st = inr b') ↔
         st = "CLOSED" ∨ st = "OPEN" ∨ st = "HALF_OPEN") ∧
  (∃ b', forceState b t "OPEN" = inr b' ∧
     state b' = OPEN ∧ failures b' = failures b ∧ metrics b' = metrics b ∧
     (∀ now, now < t + timeout b → canExecute b' now = (false, b')) ∧
     (∀ now, t + timeout b ≤ now →
        fst (canExecute b' now) = true ∧
        state (snd (canExecute b' now)) = HALF_OPEN)) ∧
  (∃ b', forceState b t "CLOSED" = inr b' ∧
     state b' = CLOSED ∧ failures b' = 0 ∧ consecutiveSuccesses b' = 0 ∧
     ∀ now, canExecute b' now = (true, b')).
Proof.
  split; [|split].
  - intros st. unfold forceState, parse_STATE. split.
    + intros [b' H].
      destruct (String.eqb_spec st "CLOSED") as [->|?]; [by left|].
      destruct (String.eqb_spec st "OPEN") as [->|?]; [right; by left|].
      destruct (String.eqb_spec st "HALF_OPEN") as [->|?]; [right; by right|].
      discriminate.
    + intros [-> | [-> | ->]]; simpl; by eexists.
  - eexists. split; [reflexivity|]. simpl. repeat (split; [done|]). split.
    + intros now Hlt. eapply canExecute_open_early; [done|done|exact Hlt].
    + intros now Hle.
      erewrite canExecute_open_due; [|done|done|exact Hle]. done.
  - eexists. split; [reflexivity|]. simpl. repeat (split; [done|]). done.
Qed.

Lemma forceState_behaviour_witness :
  (∃ b', forceState (new no_options) 1000 "OPEN" = inr b' ∧
     canExecute b' 30999 = (false, b') ∧
     fst (canExecute b' 31000) = true ∧
     state (snd (canExecute b' 31000)) = HALF_OPEN) ∧
  ¬ (∃ b', forceState (new no_options) 1000 "open" = inr b').
Proof.
  destruct (forceState_behaviour (new no_options) 1000) as (Hvalid & Hopen & _).
  split.
  - destruct Hopen as (b' & Hf & _ & _ & _ & Hearly & Hdue).
    exists b'. split; [exact Hf|]. split.
    + apply Hearly. vm_compute. reflexivity.
    + apply Hdue. vm_compute. discriminate.
  - intros Hex. apply Hvalid in Hex. destruct Hex as [H|[H|H]]; discriminate.
Defined.

(** X9.  [reset] closes the circuit from any state: calls are admitted
    at once, the failure and success counts are zero, the historical
    metrics are kept, and it then takes [failureThreshold] consecutive
    failures to open the circuit again. *)
Theorem reset_closes (b : Breaker) (e : option JsError) (calls : list (Z * Z)) :
  let b1 := reset b in
  state b1 = CLOSED ∧ failures b1 = 0 ∧ successes b1 = 0 ∧
  consecutiveSuccesses b1 = 0 ∧ nextAttemptTime b1 = None ∧
  metrics b1 = metrics b ∧
  (∀ now, canExecute b1 now = (true, b1)) ∧
  (Z.of_nat (List.length calls) < failureThreshold b →
     state (run b1 (failures_at e calls)) = CLOSED).
Proof.
  intros b1. repeat (split; [done|]).
  intros Hlt. destruct (failures_keep_closed e calls b1) as [H _]; [done|simpl; lia|done].
Qed.

Lemma reset_closes_witness :
  state (reset opened) = CLOSED ∧
  canExecute (reset opened) 3001 = (true, reset opened) ∧
  state (run (reset opened) (failures_at None [(3100, 5); (3200, 5)])) = CLOSED.
Proof.
  destruct (reset_closes opened None [(3100, 5); (3200, 5)])
    as (H1 & _ & _ & _ & _ & _ & H2 & H3).
  split; [exact H1|]. split; [exact (H2 3001)|]. apply H3. vm_compute. reflexivity.
Defined.

(** X10.  An error that [isFailure] does not count is thrown to the
    caller all the same, but the breaker records the call as a success:
    while CLOSED the circuit stays CLOSED, the failure count drops to
    zero and [failedCalls] does not move. *)
Theorem execute_uncounted_error {W R : Type} (b : Breaker) (w w1 : W) (now : Z)
    (fn : W → Settled R * W) (fb : Fallback R) (endTime : Z) (err : JsError) :
  state b = CLOSED → fn w = (Rejected err, w1) → isFailure b err = false →
  let b' := snd (fst (execute b w now fn fb endTime)) in
  execute b w now fn fb endTime =
    (Throw err, recordSuccess b endTime (endTime - now), w1) ∧
  state b' = CLOSED ∧ failures b' = 0 ∧
  failedCalls (metrics b') = failedCalls (metrics b) ∧
  successfulCalls (metrics b') = successfulCalls (metrics b) + 1.
Proof.
  intros Hst Hfn Hnf b'. subst b'. unfold execute, canExecute.
  rewrite Hst. simpl. rewrite Hfn, Hnf. simpl.
  split; [done|]. unfold recordSuccess. simpl. rewrite Hst. done.
Qed.

Lemma execute_uncounted_error_witness :
  let b := new (mkOptions None (Some 1) None None (Some 1) None
                  (Some (λ e, negb (match err_code e with
                                    | Some c => String.eqb c "VALIDATION_ERROR"
                                    | None => false
                                    end)))) in
  let fn := λ calls : nat,
    (Rejected (R:=string) (mkError (Some "VALIDATION_ERROR") (Some "invalid")),
     S calls) in
  state (snd (fst (execute b 0%nat 1000 fn FbNull 1010))) = CLOSED ∧
  failures (snd (fst (execute b 0%nat 1000 fn FbNull 1010))) = 0.
Proof.
  intros b fn.
  destruct (execute_uncounted_error b 0%nat 1%nat 1000 fn FbNull 1010
              (mkError (Some "VALIDATION_ERROR") (Some "invalid")))
    as (_ & H1 & H2 & _); [reflexivity|reflexivity|reflexivity|].
  split; [exact H1|exact H2].
Defined.

(** X11.  The factory creates a breaker for a name once: the first
    call for a name registers a breaker built from its options, and every
    later call for that name returns that registered breaker and leaves
    the registry as it is, whatever options it is given.  Breakers
    registered under other names are not touched. *)
Theorem getCircuitBreaker_once (circuits : list (string * Breaker))
    (name : string) (o1 o2 : Options) :
  let r1 := fst (getCircuitBreaker circuits name o1) in
  let c1 := snd (getCircuitBreaker circuits name o1) in
  is_Some r1 ∧
  getCircuitBreaker c1 name o2 = (r1, c1) ∧
  (map_has circuits name = false → r1 = Some (new (with_name name o1))) ∧
  (map_has circuits name = true → r1 = map_get circuits name ∧ c1 = circuits) ∧
  (∀ other, other ≠ name → map_get c1 other = map_get circuits other).
Proof.
  intros r1 c1. subst r1 c1. unfold getCircuitBreaker, map_has.
  destruct (map_get circuits name) as [b0|] eqn:Hget; simpl.
  - rewrite Hget. simpl. rewrite Hget.
    split; [by eexists|]. split; [done|]. split; [discriminate|]. done.
  - rewrite map_get_set_eq. simpl. rewrite map_get_set_eq.
    split; [by eexists|]. split; [done|]. split; [done|].
    split; [discriminate|].
    intros other Hne. apply map_get_set_ne. done.
Qed.

Lemma getCircuitBreaker_once_witness :
  fst (getCircuitBreaker [] "biller" options_3_1) =
    Some (new (with_name "biller" options_3_1)) ∧
  getCircuitBreaker (snd (getCircuitBreaker [] "biller" options_3_1))
    "biller" no_options =
    (Some (new (with_name "biller" options_3_1)),
     [("biller", new (with_name "biller" options_3_1))]).
Proof.
  destruct (getCircuitBreaker_once [] "biller" options_3_1 no_options)
    as (_ & H1 & H2 & _).
  split; [apply H2; reflexivity|]. exact H1.
Defined.

End CircuitBreakerBehaviour.

(** ** Lookup cache: cache-aside reads, invalidation and keys *)

Module CacheBehaviour.
Import Js JsProofs ListFacts StringFacts Cache CacheProofs.

Lemma colon_free_cons a s :
  colon_free (String a s) = true → a ≠ ":"%char ∧ colon_free s = true.
Proof.
  unfold colon_free. cbn [includes]. rewrite prefix_cons, prefix_nil, andb_true_r.
  destruct (Ascii.eqb_spec ":" a) as [<-|Hne]; simpl; [discriminate|].
  intros H. split; [congruence|exact H].
Qed.

Lemma _generateKey_inj_aux type1 : ∀ type2 key1 key2,
  colon_free type1 = true → colon_free type2 = true →
  _generateKey type1 key1 = _generateKey type2 key2 →
  type1 = type2 ∧ key1 = key2.
Proof.
  unfold _generateKey.
  induction type1 as [|a t1 IH]; intros [|b t2] key1 key2 H1 H2 Heq;
    push_append_in Heq.
  - by injection Heq as ->.
  - injection Heq as <- _. by destruct (colon_free_cons _ _ H2).
  - injection Heq as -> _. by destruct (colon_free_cons _ _ H1).
  - injection Heq as -> Heq.
    destruct (colon_free_cons _ _ H1) as [_ H1'].
    destruct (colon_free_cons _ _ H2) as [_ H2'].
    destruct (IH t2 key1 key2 H1' H2' Heq) as [-> ->]. done.
Qed.

(** X12.  Cache keys are unambiguous as long as the search types hold
    no colon: two (type, key) pairs with colon-free types get the same
    cache key only when they are the same pair.  A colon in the type
    breaks this: the type [t:k1] with key [k2] and the type [t] with
    key [k1:k2] share one cache key. *)
Theorem _generateKey_injective (type1 key1 type2 key2 : string) :
  (colon_free type1 = true → colon_free type2 = true →
   _generateKey type1 key1 = _generateKey type2 key2 →
   type1 = type2 ∧ key1 = key2) ∧
  _generateKey (type1 +:+ ":" +:+ key1) key2 =
    _generateKey type1 (key1 +:+ ":" +:+ key2).
Proof.
  split; [apply _generateKey_inj_aux|].
  unfold _generateKey. rewrite !append_assoc. done.
Qed.

Lemma _generateKey_injective_witness :
  _generateKey "comprobante" "17" ≠ _generateKey "numero_interno" "17" ∧
  _generateKey "numero:interno" "17" = _generateKey "numero" "interno:17".
Proof.
  destruct (_generateKey_injective "comprobante" "17" "numero_interno" "17")
    as [H1 _].
  destruct (_generateKey_injective "numero" "interno" "" "17") as [_ H2].
  split; [|exact H2].
  intros Heq. destruct (H1 eq_refl eq_refl Heq) as [H _]. discriminate.
Defined.

Section WithValue.
Context {V W E : Type}.
Implicit Types (c : Cache.t V) (e : Entry V) (m : list (string * Entry V)).

Lemma step_keys_ok c (o : op V) : keys_ok (cache c) → keys_ok (cache (step c o)).
Proof.
  intros Hok.
  destruct o as [now ty k|now ty k v ct|ty k|ty| |now]; cbn [step].
  - unfold get. destruct (map_get (cache c) (_generateKey ty k)) as [e|];
      [destruct (expiresAt e <? now)|]; cbn [snd cache miss];
      [by apply keys_ok_filter|by apply keys_ok_set|done].
  - unfold set. cbn [cache]. apply keys_ok_set.
    destruct (_ && _); [|done].
    unfold _evictOne. destruct (oldest _ _ _) as [k0|]; [|done].
    destruct (String.eqb k0 ""); [done|]. cbn [cache]. by apply keys_ok_filter.
  - by apply keys_ok_filter.
  - by apply keys_ok_filter.
  - split; [constructor|intros ? []].
  - by apply keys_ok_filter.
Qed.

Lemma reachable_keys_ok c : reachable c → keys_ok (cache c).
Proof.
  intros (o_ttl & o_max & ops & ->).
  induction ops as [|o ops IH] using rev_ind.
  - split; [constructor|intros ? []].
  - unfold run. rewrite fold_left_app. simpl. by apply step_keys_ok.
Qed.

Lemma map_get_filter_key (g : string → bool) m k :
  g k = true →
  map_get (List.filter (λ kv, g (fst kv)) m) k = map_get m k.
Proof.
  intros Hg. induction m as [|[k' v'] m IH]; simpl; [done|].
  destruct (g k') eqn:Hk'; simpl.
  - by rewrite IH.
  - destruct (String.eqb_spec k' k) as [->|_]; [congruence|exact IH].
Qed.

Lemma map_get_filter_NoDup (f : string * Entry V → bool) m k :
  NoDup (map_keys m) →
  map_get (List.filter f m) k =
    match map_get m k with
    | Some e => if f (k, e) then Some e else None
    | None => None
    end.
Proof.
  unfold map_keys. induction m as [|[k' v'] m IH]; simpl; intros Hnd; [done|].
  apply NoDup_cons in Hnd as [Hnotin Hnd].
  destruct (String.eqb_spec k' k) as [->|Hne].
  - destruct (f (k, v')) eqn:Hf; simpl.
    + by rewrite String.eqb_refl.
    + apply map_get_None. unfold map_keys. intros Hin. apply Hnotin.
      apply list_elem_of_In.
      apply List.in_map_iff in Hin as (kv & <- & Hkv).
      apply List.filter_In in Hkv as [Hkv _]. by apply List.in_map.
  - destruct (f (k', v')); simpl.
    + rewrite (proj2 (String.eqb_neq k' k)) by done. by apply IH.
    + by apply IH.
Qed.

Lemma getOrFetch_live c (now : Z) (type key : string)
    (fetchFn : W → Fetched V E * W) (w : W) (fetchedAt : Z)
    (customTtl : option Z) e :
  map_get (cache c) (_generateKey type key) = Some e →
  now ≤ expiresAt e →
  getOrFetch c now type key fetchFn w fetchedAt customTtl =
    (FValue (value e), snd (get c now type key), w).
Proof.
  intros Hget Hle. unfold getOrFetch, get. rewrite Hget.
  rewrite (proj2 (Z.ltb_ge (expiresAt e) now)) by lia. done.
Qed.

(** X13.  A live entry is served from the cache: [getOrFetch] returns
    its value and does not call [fetchFn], so the outside world is
    left as it was. *)
Theorem getOrFetch_hit c (now : Z) (type key : string)
    (fetchFn : W → Fetched V E * W) (w : W) (fetchedAt : Z)
    (customTtl : option Z) e :
  map_get (cache c) (_generateKey type key) = Some e →
  now ≤ expiresAt e →
  getOrFetch c now type key fetchFn w fetchedAt customTtl =
    (FValue (value e), snd (get c now type key), w) ∧
  st_hits (stats (snd (get c now type key))) = st_hits (stats c) + 1.
Proof.
  intros Hget Hle. split; [by apply getOrFetch_live|].
  unfold get. rewrite Hget.
  rewrite (proj2 (Z.ltb_ge (expiresAt e) now)) by lia. done.
Qed.

Lemma get_miss_absent c now type key :
  fst (get c now type key) = None →
  map_get (cache (snd (get c now type key))) (_generateKey type key) = None.
Proof.
  unfold get. destruct (map_get (cache c) (_generateKey type key)) as [e|] eqn:Hget.
  - destruct (expiresAt e <? now); simpl; [|discriminate].
    intros _. apply map_get_delete_eq.
  - simpl. done.
Qed.

Lemma map_get_filter_keep (f : string * Entry V → bool) m k e :
  map_get m k = Some e → f (k, e) = true →
  map_get (List.filter f m) k = Some e.
Proof.
  intros Hget Hf. induction m as [|[k' v'] m IH]; [done|].
  cbn [map_get] in Hget. cbn [List.filter].
  destruct (String.eqb_spec k' k) as [->|Hne].
  - injection Hget as ->. rewrite Hf. cbn [map_get].
    by rewrite String.eqb_refl.
  - destruct (f (k', v')); [|by apply IH].
    cbn [map_get]. rewrite (proj2 (String.eqb_neq k' k)) by done. by apply IH.
Qed.

(** A call that spares the entry and evicts nothing leaves its value
    and expiry in place. *)
Lemma step_spares c (o : op V) k e :
  map_get (cache c) k = Some e →
  spares k (expiresAt e) o = true →
  (is_set o = true → map_size (cache c) < maxSize c) →
  (∃ e', map_get (cache (step c o)) k = Some e' ∧
         value e' = value e ∧ expiresAt e' = expiresAt e) ∧
  map_size (cache (step c o)) ≤
    map_size (cache c) + (if is_set o then 1 else 0).
Proof.
  intros Hget Hsp Hroom. unfold map_size.
  destruct o as [now ty k2|now ty k2 v ct|ty k2|ty| |now];
    cbn [step spares is_set] in *.
  - unfold get.
    destruct (String.eqb_spec (_generateKey ty k2) k) as [->|Hne].
    + simpl in Hsp. apply Z.leb_le in Hsp. rewrite Hget.
      rewrite (proj2 (Z.ltb_ge (expiresAt e) now)) by lia. cbn [snd cache].
      rewrite map_get_set_eq. split; [by eexists|].
      rewrite map_set_present_length; [lia|]. by rewrite Hget.
    + destruct (map_get (cache c) (_generateKey ty k2)) as [e2|] eqn:H2;
        [destruct (expiresAt e2 <? now)|]; cbn [snd cache miss].
      * rewrite map_get_delete_ne by done. split; [by eexists|].
        pose proof (map_delete_length_le (cache c) (_generateKey ty k2)). lia.
      * rewrite map_get_set_ne by done. split; [by eexists|].
        rewrite map_set_present_length; [lia|]. by rewrite H2.
      * split; [by eexists|lia].
  - apply negb_true_iff, String.eqb_neq in Hsp.
    specialize (Hroom eq_refl). unfold map_size in Hroom. unfold set.
    rewrite (proj2 (Z.leb_gt (maxSize c) _)) by (unfold map_size; lia).
    cbn [andb cache]. rewrite map_get_set_ne by done. split; [by eexists|].
    pose proof (map_set_length_le (cache c) (_generateKey ty k2)
                  (mkEntry v now (now + num_or ct (ttl c)) now 0)). lia.
  - apply negb_true_iff, String.eqb_neq in Hsp. cbn [invalidate snd cache].
    rewrite map_get_delete_ne by done. split; [by eexists|].
    pose proof (map_delete_length_le (cache c) (_generateKey ty k2)). lia.
  - cbn [invalidateType snd cache].
    rewrite (map_get_filter_key (λ x, negb (String.prefix (ty +:+ ":") x)))
      by done.
    split; [by eexists|].
    pose proof (List.filter_length_le
      (λ kv : string * Entry V, negb (String.prefix (ty +:+ ":") (fst kv)))
      (cache c)). lia.
  - done.
  - apply Z.leb_le in Hsp. cbn [_cleanup cache].
    rewrite (map_get_filter_keep _ _ _ _ Hget)
      by (cbn [snd]; apply negb_true_iff, Z.ltb_ge; lia).
    split; [by eexists|].
    pose proof (List.filter_length_le
      (λ kv : string * Entry V, negb (expiresAt (snd kv) <? now)) (cache c)).
    lia.
Qed.

Lemma run_spares (ops : list (op V)) : ∀ c k e,
  map_get (cache c) k = Some e →
  Forall (λ o, spares k (expiresAt e) o = true) ops →
  map_size (cache c) + sets_in ops ≤ maxSize c →
  ∃ e', map_get (cache (run c ops)) k = Some e' ∧
        value e' = value e ∧ expiresAt e' = expiresAt e.
Proof.
  induction ops as [|o ops IH]; intros c k e Hget Hsp Hroom; [by eexists|].
  inversion Hsp as [|? ? Ho Hops]; subst.
  change (run c (o :: ops)) with (run (step c o) ops).
  unfold sets_in in Hroom. cbn [List.filter] in Hroom.
  destruct (step_spares c o k e Hget Ho) as [(e1 & Hget1 & Hv1 & Hx1) Hsize].
  { intros Hset. rewrite Hset in Hroom. cbn [List.length] in Hroom. lia. }
  destruct (IH (step c o) k e1 Hget1) as (e' & Hget' & Hv' & Hx').
  - by rewrite Hx1.
  - rewrite step_maxSize. unfold sets_in.
    destruct (is_set o); cbn [List.length] in Hroom; lia.
  - exists e'. split; [done|]. split; congruence.
Qed.

(** X14.  What [getOrFetch] fetches it caches.  On a miss it calls
    [fetchFn] once; a value that comes back is returned and stored
    with the time-to-live counted from the moment it arrived.  The
    next [getOrFetch] for the key, if made by that expiry, returns the
    value without calling its fetch function; and so does every
    further one made by the expiry, whatever calls were made on the
    cache in between, as long as these spare the entry (reads, sweeps
    up to the expiry, writes and invalidations of other keys and
    types) and the cache has room for the entries they set, so that
    nothing is evicted. *)
Theorem getOrFetch_caches_value c (now : Z) (type key : string)
    (fetchFn : W → Fetched V E * W) (w w1 : W) (fetchedAt : Z)
    (customTtl : option Z) (v : V) :
  fst (get c now type key) = None →
  fetchFn w = (FValue v, w1) →
  let r := getOrFetch c now type key fetchFn w fetchedAt customTtl in
  let c' := snd (fst r) in
  let expiry := fetchedAt + num_or customTtl (ttl c) in
  r = (FValue v,
       set (snd (get c now type key)) fetchedAt type key v customTtl, w1) ∧
  (∀ now' (fetchFn' : W → Fetched V E * W) w' fetchedAt' customTtl',
     now' ≤ expiry →
     fst (fst (getOrFetch c' now' type key fetchFn' w' fetchedAt' customTtl')) =
       FValue v ∧
     snd (getOrFetch c' now' type key fetchFn' w' fetchedAt' customTtl') = w') ∧
  (∀ (ops : list (op V)) now' (fetchFn' : W → Fetched V E * W) w'
      fetchedAt' customTtl',
     Forall (λ o, spares (_generateKey type key) expiry o = true) ops →
     map_size (cache c') + sets_in ops ≤ maxSize c' →
     now' ≤ expiry →
     fst (fst (getOrFetch (run c' ops) now' type key fetchFn' w'
                 fetchedAt' customTtl')) = FValue v ∧
     snd (getOrFetch (run c' ops) now' type key fetchFn' w'
            fetchedAt' customTtl') = w').
Proof.
  intros Hmiss Hfetch r c' expiry.
  assert (Hr : r = (FValue v,
            set (snd (get c now type key)) fetchedAt type key v customTtl, w1)).
  { subst r. unfold getOrFetch.
    destruct (get c now type key) as [[cached|] c1]; [discriminate|].
    by rewrite Hfetch. }
  split; [exact Hr|].
  subst c'. rewrite Hr. cbn [fst snd].
  set (c1 := snd (get c now type key)).
  assert (Httl : ttl c1 = ttl c).
  { subst c1. unfold get. destruct (map_get _ _) as [e|]; [|done].
    by destruct (expiresAt e <? now). }
  pose proof (set_stores c1 fetchedAt type key v customTtl) as Hst.
  rewrite Httl in Hst. fold expiry in Hst.
  split.
  - intros now' fetchFn' w' fetchedAt' customTtl' Hle.
    rewrite (getOrFetch_live (set c1 fetchedAt type key v customTtl) now' type key
               fetchFn' w' fetchedAt' customTtl' _ Hst); done.
  - intros ops now' fetchFn' w' fetchedAt' customTtl' Hsp Hroom Hle.
    destruct (run_spares ops _ _ _ Hst Hsp Hroom) as (e' & Hget' & Hv' & Hx').
    rewrite (getOrFetch_live _ now' type key fetchFn' w' fetchedAt' customTtl'
               e' Hget').
    + cbn [fst snd]. by rewrite Hv'.
    + rewrite Hx'. cbn [expiresAt]. lia.
Qed.

(** X15.  Nothing but a value is cached.  When, on a miss, [fetchFn]
    returns [null] or [undefined] or throws, [getOrFetch] hands that
    outcome to its caller and stores nothing: the key is absent from
    the cache afterwards, and the next [getOrFetch] for it calls its
    fetch function again. *)
Theorem getOrFetch_caches_no_failure c (now : Z) (type key : string)
    (fetchFn : W → Fetched V E * W) (w w1 : W) (fetchedAt : Z)
    (customTtl : option Z) (res : Fetched V E) :
  fst (get c now type key) = None →
  fetchFn w = (res, w1) →
  (∀ v, res ≠ FValue v) →
  let r := getOrFetch c now type key fetchFn w fetchedAt customTtl in
  let c' := snd (fst r) in
  r = (res, snd (get c now type key), w1) ∧
  map_has (cache c') (_generateKey type key) = false ∧
  ∀ now' (fetchFn' : W → Fetched V E * W) w' fetchedAt' customTtl',
    fst (fst (getOrFetch c' now' type key fetchFn' w' fetchedAt' customTtl')) =
      fst (fetchFn' w') ∧
    snd (getOrFetch c' now' type key fetchFn' w' fetchedAt' customTtl') =
      snd (fetchFn' w').
Proof.
  intros Hmiss Hfetch Hres r c'.
  pose proof (get_miss_absent c now type key Hmiss) as Habs.
  assert (Hr : r = (res, snd (get c now type key), w1)).
  { subst r. unfold getOrFetch.
    destruct (get c now type key) as [[cached|] c1]; [discriminate|].
    rewrite Hfetch. destruct res; try done. by destruct (Hres v). }
  split; [exact Hr|]. subst c'. rewrite Hr. cbn [fst snd].
  set (c1 := snd (get c now type key)) in *.
  split; [unfold map_has; by rewrite Habs|].
  intros now' fetchFn' w' fetchedAt' customTtl'.
  unfold getOrFetch, get. rewrite Habs.
  destruct (fetchFn' w') as [[v'| | |e'] w2]; done.
Qed.

(** X16.  [invalidate] removes exactly the named entry: it reports
    whether the entry was there, a [get] for it misses afterwards at
    any time, and every other entry and the statistics are as
    before. *)
Theorem invalidate_removes c (type key : string) :
  let c' := snd (invalidate c type key) in
  (fst (invalidate c type key) = true ↔
     map_get (cache c) (_generateKey type key) ≠ None) ∧
  (∀ now, fst (get c' now type key) = None) ∧
  (∀ k, k ≠ _generateKey type key →
        map_get (cache c') k = map_get (cache c) k) ∧
  stats c' = stats c.
Proof.
  intros c'. subst c'. unfold invalidate. cbn [fst snd cache stats].
  split; [|split; [|split; [|done]]].
  - unfold map_has. destruct (map_get _ _); split; done.
  - intros now. unfold get. cbn [cache]. by rewrite map_get_delete_eq.
  - intros k Hne. apply map_get_delete_ne. done.
Qed.

Lemma prefix_generateKey type key :
  String.prefix (type +:+ ":") (_generateKey type key) = true.
Proof.
  unfold _generateKey. induction type as [|a t IH]; push_append;
    rewrite prefix_cons, Ascii.eqb_refl; simpl; [apply prefix_nil|exact IH].
Qed.

Lemma prefix_generateKey_other type : ∀ type' key,
  colon_free type = true → colon_free type' = true → type' ≠ type →
  String.prefix (type +:+ ":") (_generateKey type' key) = false.
Proof.
  unfold _generateKey.
  induction type as [|a t IH]; intros [|b t'] key H1 H2 Hne; push_append;
    try done; rewrite prefix_cons.
  - destruct (colon_free_cons _ _ H2) as [Hb _].
    rewrite (proj2 (Ascii.eqb_neq ":" b)); [done|congruence].
  - destruct (colon_free_cons _ _ H1) as [Ha _].
    rewrite (proj2 (Ascii.eqb_neq a ":")); [done|congruence].
  - destruct (Ascii.eqb_spec a b) as [->|]; [|done]. simpl.
    destruct (colon_free_cons _ _ H1) as [_ H1'].
    destruct (colon_free_cons _ _ H2) as [_ H2'].
    apply IH; [done|done|]. intros ->. done.
Qed.

(** X17.  [invalidateType] removes the entries whose cache key starts
    with the type and a colon, and returns how many it removed: the
    cache shrinks by that number, no entry of the type is left, the
    other entries keep their order, and, the types holding no colon,
    the entries of every other type are still found. *)
Theorem invalidateType_removes_type c (type : string) :
  let n := fst (invalidateType c type) in
  let c' := snd (invalidateType c type) in
  n = map_size (cache c) - map_size (cache c') ∧
  (∀ key, map_has (cache c') (_generateKey type key) = false) ∧
  sublist (cache c') (cache c) ∧
  (∀ type' key,
     colon_free type = true → colon_free type' = true → type' ≠ type →
     map_get (cache c') (_generateKey type' key) =
       map_get (cache c) (_generateKey type' key)) ∧
  stats c' = stats c.
Proof.
  intros n c'. subst n c'. unfold invalidateType. cbn [fst snd cache stats].
  split; [|split; [|split; [|split; [|done]]]].
  - unfold map_size.
    pose proof (filter_complement_length
      (λ kv : string * Entry V, String.prefix (type +:+ ":") (fst kv)) (cache c)).
    lia.
  - intros key. unfold map_has.
    destruct (map_get _ _) as [e|] eqn:Hget; [|done].
    apply map_get_In in Hget. apply List.filter_In in Hget as [_ Hf].
    simpl in Hf. by rewrite prefix_generateKey in Hf.
  - apply sublist_List_filter.
  - intros type' key H1 H2 Hne.
    apply (map_get_filter_key (λ k, negb (String.prefix (type +:+ ":") k))).
    by rewrite prefix_generateKey_other.
Qed.

(** X18.  The periodic sweep is invisible to readers.  In a cache
    built by the constructor and used through its methods, a sweep at
    time [now] removes the entries that have expired by then and no
    other, and every [get] made at [now] or later returns what it
    would have returned without the sweep. *)
Theorem _cleanup_invisible c (now now' : Z) (type key : string) :
  reachable c → now ≤ now' →
  fst (get (_cleanup c now) now' type key) = fst (get c now' type key) ∧
  (∀ k e, In (k, e) (cache (_cleanup c now)) ↔
          In (k, e) (cache c) ∧ now ≤ expiresAt e) ∧
  stats (_cleanup c now) = stats c.
Proof.
  intros Hreach Hle. destruct (reachable_keys_ok c Hreach) as [Hnd _].
  split; [|split; [|done]].
  - unfold get, _cleanup. cbn [cache].
    rewrite (map_get_filter_NoDup _ _ _ Hnd). cbn [snd].
    destruct (map_get (cache c) (_generateKey type key)) as [e|]; [|done].
    destruct (expiresAt e <? now) eqn:Hexp; cbn [negb].
    + apply Z.ltb_lt in Hexp.
      by rewrite (proj2 (Z.ltb_lt (expiresAt e) now')) by lia.
    + by destruct (expiresAt e <? now').
  - intros k e. unfold _cleanup. cbn [cache]. rewrite List.filter_In.
    cbn [snd]. rewrite negb_true_iff, Z.ltb_ge. done.
Qed.

End WithValue.

Lemma invalidate_removes_witness :
  let c := set (set (new None None) 0 "comprobante" "17" "e-Ticket A 57" None)
             1 "comprobante" "18" "e-Ticket A 57" None in
  fst (invalidate c "comprobante" "17") = true ∧
  fst (get (snd (invalidate c "comprobante" "17")) 2 "comprobante" "17") = None ∧
  map_get (cache (snd (invalidate c "comprobante" "17"))) "comprobante:18" =
    map_get (cache c) "comprobante:18".
Proof.
  intros c.
  destruct (invalidate_removes c "comprobante" "17") as (H1 & H2 & H3 & _).
  split; [apply H1; vm_compute; discriminate|].
  split; [exact (H2 2)|]. apply H3. vm_compute. discriminate.
Defined.

Lemma invalidateType_removes_type_witness :
  let c := run (new None None)
             [OpSet 0 "comprobante" "17" "e-Ticket A 57" None;
              OpSet 1 "numero_interno" "shopify-1001" "e-Ticket A 57" None;
              OpSet 2 "comprobante" "18" "e-Ticket A 57" None] in
  fst (invalidateType c "comprobante") = 2 ∧
  map_get (cache (snd (invalidateType c "comprobante")))
    (_generateKey "numero_interno" "shopify-1001") =
    map_get (cache c) (_generateKey "numero_interno" "shopify-1001").
Proof.
  intros c.
  destruct (invalidateType_removes_type c "comprobante") as (H1 & _ & _ & H2 & _).
  split; [rewrite H1; reflexivity|].
  apply H2; [reflexivity|reflexivity|discriminate].
Defined.

Lemma _cleanup_invisible_witness :
  let c := run (new None None)
             [OpSet 0 "comprobante" "17" "e-Ticket A 57" (Some 100);
              OpSet 1 "comprobante" "18" "e-Ticket A 57" (Some 1000)] in
  fst (get (_cleanup c 500) 600 "comprobante" "18") =
    fst (get c 600 "comprobante" "18") ∧
  fst (get (_cleanup c 500) 600 "comprobante" "17") =
    fst (get c 600 "comprobante" "17").
Proof.
  intros c.
  assert (Hreach : reachable c) by (do 3 eexists; reflexivity).
  destruct (_cleanup_invisible c 500 600 "comprobante" "18" Hreach) as [H1 _];
    [lia|].
  destruct (_cleanup_invisible c 500 600 "comprobante" "17" Hreach) as [H2 _];
    [lia|].
  split; [exact H1|exact H2].
Defined.

Lemma getOrFetch_hit_witness :
  getOrFetch (E:=string)
    (set (new None None) 0 "comprobante" "17" "e-Ticket A 57" None)
    1000 "comprobante" "17" (counting_fetch "other") 0%nat 1100 None =
    (FValue "e-Ticket A 57",
     snd (get (set (new None None) 0 "comprobante" "17" "e-Ticket A 57" None)
            1000 "comprobante" "17"),
     0%nat).
Proof.
  destruct (getOrFetch_hit (E:=string)
              (set (new None None) 0 "comprobante" "17" "e-Ticket A 57" None)
              1000 "comprobante" "17" (counting_fetch "other") 0%nat 1100 None
              (mkEntry "e-Ticket A 57" 0 300000 0 0)) as [H _];
    [reflexivity|vm_compute; discriminate|exact H].
Defined.

Lemma getOrFetch_caches_value_witness :
  let c' := snd (fst (getOrFetch (E:=string) (new None None) 1000 "comprobante" "17"
                        (counting_fetch "e-Ticket A 57") 0%nat 1100 None)) in
  let ops := [OpGet 1200 "comprobante" "18";
              OpSet 1300 "comprobante" "18" "e-Ticket A 58" None;
              OpGet 1400 "comprobante" "17";
              OpCleanup 60000;
              OpInvalidateType "numero_interno";
              OpInvalidate "comprobante" "18"] in
  fst (fst (getOrFetch (E:=string) (new None None) 1000 "comprobante" "17"
              (counting_fetch "e-Ticket A 57") 0%nat 1100 None)) =
    FValue "e-Ticket A 57" ∧
  fst (fst (getOrFetch (E:=string) c' 2000 "comprobante" "17"
              (counting_fetch "other") 1%nat 2100 None)) = FValue "e-Ticket A 57" ∧
  snd (getOrFetch (E:=string) c' 2000 "comprobante" "17"
         (counting_fetch "other") 1%nat 2100 None) = 1%nat ∧
  fst (fst (getOrFetch (E:=string) (run c' ops) 61000 "comprobante" "17"
              (counting_fetch "other") 1%nat 61100 None)) = FValue "e-Ticket A 57" ∧
  snd (getOrFetch (E:=string) (run c' ops) 61000 "comprobante" "17"
         (counting_fetch "other") 1%nat 61100 None) = 1%nat.
Proof.
  intros c' ops.
  destruct (getOrFetch_caches_value (E:=string) (new None None) 1000
              "comprobante" "17" (counting_fetch "e-Ticket A 57") 0%nat 1%nat
              1100 None "e-Ticket A 57") as (H1 & H2 & H3);
    [reflexivity|reflexivity|].
  split; [by rewrite H1|].
  destruct (H2 2000 (counting_fetch "other") 1%nat 2100 None) as [H4 H5];
    [vm_compute; discriminate|].
  destruct (H3 ops 61000 (counting_fetch "other") 1%nat 61100 None) as [H6 H7].
  - subst ops. repeat (constructor; [vm_compute; reflexivity|]). constructor.
  - vm_compute. discriminate.
  - vm_compute. discriminate.
  - split; [exact H4|]. split; [exact H5|]. split; [exact H6|exact H7].
Defined.

(** Without room in the cache the entry may be evicted before it
    expires: with [maxSize = 1], a [set] of another key evicts the value
    fetched at 1100, and the [getOrFetch] made at 3000, long before the
    expiry at 301100, fetches again. *)
Lemma getOrFetch_refetches_after_eviction :
  let c' := snd (fst (getOrFetch (E:=string) (new None (Some 1)) 1000
                        "comprobante" "17" (counting_fetch "e-Ticket A 57")
                        0%nat 1100 None)) in
  let c2 := set c' 2000 "comprobante" "18" "e-Ticket A 58" None in
  map_has (cache c2) (_generateKey "comprobante" "17") = false ∧
  getOrFetch (E:=string) c2 3000 "comprobante" "17" (counting_fetch "fetched again")
    1%nat 3100 None =
    (FValue "fetched again",
     set (snd (get c2 3000 "comprobante" "17")) 3100 "comprobante" "17"
       "fetched again" None,
     2%nat).
Proof. split; reflexivity. Qed.

Lemma getOrFetch_caches_no_failure_witness :
  let failing := λ calls : nat, (FThrows (V:=string) "HTTP 503", S calls) in
  getOrFetch (new None None) 1000 "comprobante" "17" failing 0%nat 1100 None =
    (FThrows "HTTP 503",
     snd (get (new None None) 1000 "comprobante" "17"), 1%nat) ∧
  map_has
    (cache (snd (fst (getOrFetch (new None None) 1000 "comprobante" "17"
                        failing 0%nat 1100 None))))
    (_generateKey "comprobante" "17") = false.
Proof.
  intros failing.
  destruct (getOrFetch_caches_no_failure (new None None) 1000 "comprobante" "17"
              failing 0%nat 1%nat 1100 None (FThrows "HTTP 503"))
    as (H1 & H2 & _); [reflexivity|reflexivity|discriminate|].
  split; [exact H1|exact H2].
Defined.

End CacheBehaviour.

(** ** Error store: resolution, queries and retries *)

Module ErrorStoreBehaviour.
Import Js JsProofs ListFacts ErrorStore ErrorStoreProofs.

Local Abbreviation entries := (list (string * ErrorEntry)).

Lemma map_set_present_keys (m : entries) k v :
  map_get m k ≠ None → map_keys (map_set m k v) = map_keys m.
Proof.
  unfold map_keys. induction m as [|[k' v'] m IH]; simpl; [done|].
  destruct (String.eqb k' k); simpl; [done|]. intros H. by rewrite IH.
Qed.


Lemma resolveError_found s now errorId notes by_ e :
  getError s errorId = Some e →
  ∃ e', resolveError s now errorId notes by_ =
          (true, mkStore (maxErrors s) (map_set (errors s) errorId e') true) ∧
        resolved e' = true ∧ resolvedAt e' = Some now ∧
        (id e', timestamp e', type e', message e', code e', status e',
         context e', retryable e') =
        (id e, timestamp e, type e, message e, code e, status e,
         context e, retryable e) ∧
        resolution e' = Some (match notes with
                              | Some v => if String.eqb v "" then "Resuelto" else v
                              | None => "Resuelto"
                              end) ∧
        resolvedBy e' = Some (match by_ with
                              | Some v => if String.eqb v "" then "system" else v
                              | None => "system"
                              end).
Proof.
  unfold getError, resolveError. intros ->. eexists. split; [reflexivity|]. done.
Qed.



Lemma resolveError_keys s now errorId notes by_ :
  map_keys (errors (snd (resolveError s now errorId notes by_))) =
    map_keys (errors s).
Proof.
  unfold resolveError.
  destruct (map_get (errors s) errorId) as [e|] eqn:Hget; [|done].
  cbn [snd errors]. apply map_set_present_keys. by rewrite Hget.
Qed.

Lemma map_has_keys (m1 m2 : entries) k :
  map_keys m1 = map_keys m2 → map_has m1 k = map_has m2 k.
Proof.
  intros Hk. unfold map_has.
  destruct (map_get m1 k) eqn:H1, (map_get m2 k) eqn:H2; try done.
  - apply map_get_None in H2. rewrite <- Hk in H2. apply map_get_None in H2.
    congruence.
  - apply map_get_None in H1. rewrite Hk in H1. apply map_get_None in H1.
    congruence.
Qed.

Lemma resolveError_fst s now errorId notes by_ :
  fst (resolveError s now errorId notes by_) = map_has (errors s) errorId.
Proof.
  unfold resolveError, map_has. by destruct (map_get (errors s) errorId).
Qed.

Lemma resolveError_keeps_resolved s now errorId notes by_ k e :
  getError s k = Some e → resolved e = true →
  ∃ e', getError (snd (resolveError s now errorId notes by_)) k = Some e' ∧
        resolved e' = true.
Proof.
  intros Hget Hres. unfold resolveError, getError in *.
  destruct (map_get (errors s) errorId) as [e0|] eqn:H0; cbn [snd errors].
  - destruct (String.eqb_spec errorId k) as [->|Hne].
    + rewrite map_get_set_eq. by eexists.
    + rewrite map_get_set_ne by done. by eexists.
  - by eexists.
Qed.

Lemma resolveError_other s now errorId notes by_ k :
  k ≠ errorId →
  getError (snd (resolveError s now errorId notes by_)) k = getError s k.
Proof.
  intros Hne. unfold resolveError, getError.
  destruct (map_get (errors s) errorId) as [e|]; [|done].
  cbn [snd errors]. by apply map_get_set_ne.
Qed.

Lemma resolveError_maxErrors s now errorId notes by_ :
  maxErrors (snd (resolveError s now errorId notes by_)) = maxErrors s.
Proof.
  unfold resolveError. by destruct (map_get (errors s) errorId).
Qed.

Lemma resolveMultiple_aux now notes by_ ids : ∀ n s,
  let r := fold_left
    (λ (acc : Z * t) errorId,
       let (ok, s') := resolveError (snd acc) now errorId notes by_ in
       (if ok then fst acc + 1 else fst acc, s'))
    ids (n, s) in
  fst r = n + Z.of_nat (List.length (List.filter (map_has (errors s)) ids)) ∧
  map_keys (errors (snd r)) = map_keys (errors s) ∧
  (∀ k e, getError s k = Some e → resolved e = true →
          ∃ e', getError (snd r) k = Some e' ∧ resolved e' = true) ∧
  (∀ i, In i ids → map_has (errors s) i = true →
        ∃ e', getError (snd r) i = Some e' ∧ resolved e' = true) ∧
  (∀ k, ¬ In k ids → getError (snd r) k = getError s k) ∧
  maxErrors (snd r) = maxErrors s.
Proof.
  induction ids as [|i ids IH]; intros n s; cbn [fold_left].
  - cbn [fst snd List.filter List.length]. split; [lia|]. split; [done|].
    split; [by eauto|]. split; [intros ? []|]. done.
  - cbn [snd fst].
    pose proof (resolveError_fst s now i notes by_) as Hfst.
    pose proof (resolveError_keys s now i notes by_) as Hkeys.
    destruct (resolveError s now i notes by_) as [ok s1] eqn:Hres.
    cbn [fst snd] in Hfst, Hkeys.
    destruct (IH (if ok then n + 1 else n) s1) as (H1 & H2 & H3 & H4 & H5 & H6).
    cbv zeta in *. split; [|split; [|split; [|split; [|split]]]].
    + rewrite H1. cbn [List.filter].
      rewrite (List.filter_ext (map_has (errors s1)) (map_has (errors s)))
        by (intros a; by apply map_has_keys).
      rewrite <- Hfst. destruct ok; cbn [List.length]; lia.
    + by rewrite H2.
    + intros k e Hk He.
      destruct (resolveError_keeps_resolved s now i notes by_ k e Hk He)
        as (e1 & Hk1 & He1).
      rewrite Hres in Hk1. cbn [snd] in Hk1. by apply (H3 k e1).
    + intros j [<-|Hin] Hhas.
      * unfold map_has in Hhas.
        destruct (map_get (errors s) i) as [e|] eqn:Hget; [|done].
        destruct (resolveError_found s now i notes by_ e Hget)
          as (e' & Heq & Hr & _).
        rewrite Hres in Heq. injection Heq as -> ->.
        apply (H3 i e'); [|done]. unfold getError. cbn [errors].
        apply map_get_set_eq.
      * apply H4; [done|]. rewrite <- Hhas. by apply map_has_keys.
    + intros k Hk. rewrite H5 by (intros Hin; apply Hk; by right).
      pose proof (resolveError_other s now i notes by_ k) as Hne.
      rewrite Hres in Hne. cbn [snd] in Hne. apply Hne.
      intros ->. apply Hk. by left.
    + rewrite H6.
      pose proof (resolveError_maxErrors s now i notes by_) as Hm.
      rewrite Hres in Hm. exact Hm.
Qed.

(** X20.  [resolveMultiple] returns the number of listed ids that are in
    the store, an id listed twice being counted twice and an entry
    resolved before the call being counted as well.  Afterwards every
    listed entry is resolved, entries resolved before stay resolved,
    and the entries that are not listed, like the keys of the store,
    are unchanged. *)
Theorem resolveMultiple_counts_found (s : t) (now : Z) (errorIds : list string)
    (notes by_ : option string) :
  let r := resolveMultiple s now errorIds notes by_ in
  fst r = Z.of_nat (List.length (List.filter (map_has (errors s)) errorIds)) ∧
  map_keys (errors (snd r)) = map_keys (errors s) ∧
  (∀ i, In i errorIds → map_has (errors s) i = true →
        ∃ e', getError (snd r) i = Some e' ∧ resolved e' = true) ∧
  (∀ k e, getError s k = Some e → resolved e = true →
          ∃ e', getError (snd r) k = Some e' ∧ resolved e' = true) ∧
  (∀ k, ¬ In k errorIds → getError (snd r) k = getError s k).
Proof.
  intros r. subst r. unfold resolveMultiple.
  destruct (resolveMultiple_aux now notes by_ errorIds 0 s)
    as (H1 & H2 & H3 & H4 & H5 & _).
  cbv zeta in *. split; [rewrite H1; lia|]. done.
Qed.

Lemma resolveMultiple_counts_found_witness :
  fst (resolveMultiple sample_store 3000 ["err-a"; "err-z"; "err-a"] None None) = 2 ∧
  (∃ e', getError
           (snd (resolveMultiple sample_store 3000 ["err-a"; "err-z"; "err-a"]
                   None None)) "err-a" = Some e' ∧ resolved e' = true) ∧
  getError
    (snd (resolveMultiple sample_store 3000 ["err-a"; "err-z"; "err-a"] None None))
    "err-b" = getError sample_store "err-b".
Proof.
  destruct (resolveMultiple_counts_found sample_store 3000
              ["err-a"; "err-z"; "err-a"] None None) as (H1 & _ & H2 & _ & H3).
  split; [rewrite H1; reflexivity|]. split.
  - apply H2; [by left|reflexivity].
  - apply H3. intros [H|[H|[H|[]]]]; discriminate.
Defined.

(** *** Sorting entries, newest first *)

Lemma insert_newest_first_perm x l : Permutation (insert_newest_first x l) (x :: l).
Proof.
  induction l as [|y l IH]; simpl; [done|].
  destruct (timestamp y <=? timestamp x); [done|].
  rewrite IH. apply perm_swap.
Qed.

Lemma sort_newest_first_perm l : Permutation (sort_newest_first l) l.
Proof.
  induction l as [|x l IH]; simpl; [done|].
  rewrite insert_newest_first_perm. by constructor.
Qed.

Lemma insert_newest_first_sorted x l :
  StronglySorted newer l → StronglySorted newer (insert_newest_first x l).
Proof.
  induction l as [|z l IH]; simpl; intros Hs.
  - constructor; [constructor|constructor].
  - apply StronglySorted_inv in Hs as [Hs Hall].
    destruct (timestamp z <=? timestamp x) eqn:E.
    + apply Z.leb_le in E. constructor; [by constructor|].
      constructor; [exact E|].
      eapply List.Forall_impl; [|exact Hall].
      intros a Ha. unfold newer in *. lia.
    + apply Z.leb_gt in E. constructor; [by apply IH|].
      apply List.Forall_forall. intros y Hy.
      apply (Permutation_in _ (insert_newest_first_perm x l)) in Hy as [<-|Hy].
      * unfold newer. lia.
      * by apply (proj1 (List.Forall_forall _ _) Hall).
Qed.

Lemma sort_newest_first_sorted l : StronglySorted newer (sort_newest_first l).
Proof.
  induction l as [|x l IH]; simpl; [constructor|].
  by apply insert_newest_first_sorted.
Qed.

Lemma sorted_prefix (l : list ErrorEntry) n :
  StronglySorted newer l →
  StronglySorted newer (firstn n l) ∧
  ∀ a b, In a (firstn n l) → In b (skipn n l) → newer a b.
Proof.
  revert n. induction l as [|x l IH]; intros n Hs.
  - destruct n; simpl; (split; [constructor|intros ? ? []]).
  - apply StronglySorted_inv in Hs as [Hs Hall].
    destruct n as [|n]; simpl; [split; [constructor|intros ? ? []]|].
    destruct (IH n Hs) as [IH1 IH2]. split.
    + constructor; [done|]. apply List.Forall_forall. intros y Hy.
      apply (proj1 (List.Forall_forall _ _) Hall).
      rewrite <- (List.firstn_skipn n l). apply List.in_or_app. by left.
    + intros a b [<-|Ha] Hb; [|by apply IH2].
      apply (proj1 (List.Forall_forall _ _) Hall).
      rewrite <- (List.firstn_skipn n l). apply List.in_or_app. by right.
Qed.

(** [arr.slice(0, n)] is a prefix of [arr], of [n] elements when [n] is
    neither negative nor beyond the length. *)
Lemma slice_0_prefix {A} (l : list A) (n : Z) :
  ∃ k, slice l 0 n = firstn k l ∧
       (0 ≤ n → Z.of_nat k = Z.min n (Z.of_nat (List.length l))).
Proof.
  destruct (Z.lt_ge_cases n 0) as [Hneg|Hpos].
  - unfold slice. rewrite (proj2 (Z.ltb_ge 0 0)) by lia.
    rewrite (proj2 (Z.ltb_lt n 0)) by lia.
    rewrite (Z.min_l 0) by lia. change (skipn (Z.to_nat 0) l) with l.
    eexists. split; [reflexivity|lia].
  - exists (Z.to_nat (Z.min n (Z.of_nat (List.length l)))). split; [|lia].
    rewrite slice_0_nonneg by done.
    destruct (Z.le_ge_cases n (Z.of_nat (List.length l))) as [Hle|Hge].
    + by rewrite Z.min_l by lia.
    + rewrite Z.min_r by lia. rewrite Nat2Z.id, List.firstn_all.
      apply List.firstn_all2. lia.
Qed.

Lemma filter_filter {A} (f g : A → bool) (l : list A) :
  List.filter g (List.filter f l) = List.filter (λ x, f x && g x) l.
Proof.
  induction l as [|x l IH]; simpl; [done|].
  destruct (f x); simpl; [|done]. destruct (g x); by rewrite IH.
Qed.

Lemma getUnresolvedErrors_eq s opt_type opt_limit opt_since :
  getUnresolvedErrors s opt_type opt_limit opt_since =
    slice (sort_newest_first (List.filter (wanted opt_type opt_since) (values s)))
      0 (match opt_limit with Some n => n | None => 100 end).
Proof.
  unfold getUnresolvedErrors. f_equal. f_equal.
  destruct opt_type as [ty|];
    [destruct (String.eqb ty "") eqn:Hty|];
    (destruct opt_since as [since|];
      [destruct (since_truthy since) eqn:Hsince|]);
    cbv zeta; rewrite ?filter_filter; apply List.filter_ext; intros e;
    unfold wanted; rewrite ?Hty, ?Hsince; simpl;
    rewrite ?andb_true_r, ?andb_assoc; done.
Qed.

(** X21.  [getUnresolvedErrors] returns the newest of the entries that
    are unresolved and pass the [type] and [since] filters, a filter
    that is absent or falsy (the empty string, the number 0) letting
    every entry pass: every entry returned is such a stored entry, the
    result is ordered newest first, it has [limit] entries (100 when no
    limit is given) or all of them when fewer qualify, and the
    qualifying entries left out are none of them more recent than any
    entry returned.  With [since] an invalid date no entry qualifies. *)
Theorem getUnresolvedErrors_newest (s : t) (opt_type : option string)
    (opt_limit : option Z) (opt_since : option Since) :
  let limit := match opt_limit with Some n => n | None => 100 end in
  let all := List.filter (wanted opt_type opt_since) (values s) in
  let r := getUnresolvedErrors s opt_type opt_limit opt_since in
  (∀ e, In e r → In e (values s) ∧ wanted opt_type opt_since e = true) ∧
  StronglySorted newer r ∧
  (0 ≤ limit →
     Z.of_nat (List.length r) = Z.min limit (Z.of_nat (List.length all))) ∧
  (∃ rest, Permutation (r ++ rest) all ∧
           ∀ a b, In a r → In b rest → newer a b) ∧
  (∀ e, wanted opt_type opt_since e = true ↔
        resolved e = false ∧
        (∀ ty, opt_type = Some ty → ty ≠ "" → type_string (type e) = ty) ∧
        (∀ since, opt_since = Some since → since_truthy since = true →
                  ∃ d, since_date since = Some d ∧ d ≤ timestamp e)).
Proof.
  intros limit all r. subst r. rewrite getUnresolvedErrors_eq. fold limit all.
  destruct (slice_0_prefix (sort_newest_first all) limit) as (k & -> & Hk).
  destruct (sorted_prefix (sort_newest_first all) k (sort_newest_first_sorted all))
    as [Hs Hn].
  split; [|split; [done|split; [|split]]].
  - intros e He. apply List.filter_In.
    apply (Permutation_in _ (sort_newest_first_perm all)).
    rewrite <- (List.firstn_skipn k (sort_newest_first all)).
    apply List.in_or_app. by left.
  - intros Hpos. specialize (Hk Hpos). rewrite List.length_firstn.
    rewrite (Permutation_length (sort_newest_first_perm all)) in *. lia.
  - exists (skipn k (sort_newest_first all)). split; [|done].
    rewrite List.firstn_skipn. apply sort_newest_first_perm.
  - intros e. unfold wanted. rewrite !andb_true_iff, negb_true_iff. split.
    + intros [[Hres Hty] Hsince]. split; [done|]. split.
      * intros ty -> Hne. apply orb_true_iff in Hty as [Hty|Hty].
        -- by apply String.eqb_eq in Hty.
        -- by apply String.eqb_eq in Hty.
      * intros since -> Htr. rewrite Htr in Hsince. simpl in Hsince.
        unfold not_before in Hsince. destruct (since_date since) as [d|]; [|done].
        exists d. split; [done|]. by apply Z.leb_le.
    + intros (Hres & Hty & Hsince). split; [split; [done|]|].
      * destruct opt_type as [ty|]; [|done].
        destruct (String.eqb_spec ty "") as [->|Hne]; [done|]. simpl.
        apply String.eqb_eq. by apply Hty.
      * destruct opt_since as [since|]; [|done].
        destruct (since_truthy since) eqn:Htr; [|done]. simpl.
        destruct (Hsince since eq_refl Htr) as (d & -> & Hd).
        simpl. by apply Z.leb_le.
Qed.

Lemma getUnresolvedErrors_newest_witness :
  Z.of_nat (List.length (getUnresolvedErrors sample_store None (Some 1) None)) = 1 ∧
  (∀ e, In e (getUnresolvedErrors sample_store (Some "network_error") None
                (Some (SinceNumber 1500))) →
        In e (values sample_store) ∧
        wanted (Some "network_error") (Some (SinceNumber 1500)) e = true) ∧
  Z.of_nat (List.length
    (getUnresolvedErrors sample_old_store None None (Some (SinceNumber 0)))) = 1 ∧
  Z.of_nat (List.length
    (getUnresolvedErrors sample_old_store None None
       (Some (SinceString "1970-01-01T00:00:00.000Z" (Some 0))))) = 0.
Proof.
  destruct (getUnresolvedErrors_newest sample_store None (Some 1) None)
    as (_ & _ & H1 & _).
  destruct (getUnresolvedErrors_newest sample_store (Some "network_error") None
              (Some (SinceNumber 1500))) as (H2 & _).
  destruct (getUnresolvedErrors_newest sample_old_store None None
              (Some (SinceNumber 0))) as (_ & _ & H3 & _).
  destruct (getUnresolvedErrors_newest sample_old_store None None
              (Some (SinceString "1970-01-01T00:00:00.000Z" (Some 0))))
    as (_ & _ & H4 & _).
  split; [rewrite H1; [reflexivity|lia]|]. split; [exact H2|].
  split; [rewrite H3; [reflexivity|lia]|rewrite H4; [reflexivity|lia]].
Defined.

(** X22.  [getErrorsByOrder] returns all the stored entries recorded for
    the order, each as often as it is stored and no other entry,
    ordered newest first. *)
Theorem getErrorsByOrder_complete (s : t) (order : string) :
  let r := getErrorsByOrder s order in
  Permutation r (List.filter (of_order order) (values s)) ∧
  StronglySorted newer r ∧
  (∀ e, In e r ↔ In e (values s) ∧ orderId (context e) = Some order).
Proof.
  intros r. subst r. unfold getErrorsByOrder. fold (of_order order).
  split; [apply sort_newest_first_perm|]. split; [apply sort_newest_first_sorted|].
  intros e. split.
  - intros He. apply (Permutation_in _ (sort_newest_first_perm _)) in He.
    apply List.filter_In in He as [Hin Hof]. split; [done|].
    unfold of_order in Hof. destruct (orderId (context e)) as [o|]; [|done].
    by apply String.eqb_eq in Hof as ->.
  - intros [Hin Ho].
    apply (Permutation_in _ (Permutation_sym (sort_newest_first_perm _))).
    apply List.filter_In. split; [done|]. unfold of_order. rewrite Ho.
    apply String.eqb_refl.
Qed.

Lemma getErrorsByOrder_complete_witness :
  In (errorEntry 1000 "err-a" sample_error sample_context)
    (getErrorsByOrder sample_store "1001") ∧
  getErrorsByOrder sample_store "1002" = [].
Proof.
  destruct (getErrorsByOrder_complete sample_store "1001") as (_ & _ & H1).
  split; [apply H1; split; [by left|reflexivity]|reflexivity].
Defined.

(** *** Recording *)

Lemma insert_desc_perm x (l : entries) : Permutation (insert_desc x l) (x :: l).
Proof.
  induction l as [|y l IH]; simpl; [done|].
  destruct (timestamp (snd y) <=? timestamp (snd x)); [done|].
  rewrite IH. apply perm_swap.
Qed.

Lemma sort_desc_perm (l : entries) : Permutation (sort_desc l) l.
Proof.
  induction l as [|x l IH]; simpl; [done|].
  rewrite insert_desc_perm. by constructor.
Qed.

Lemma filter_partition_perm {A} (f : A → bool) (l : list A) :
  Permutation (List.filter (λ x, negb (f x)) l ++ List.filter f l) l.
Proof.
  induction l as [|x l IH]; simpl; [done|].
  destruct (f x); simpl.
  - rewrite <- Permutation_middle. by constructor.
  - by constructor.
Qed.

Lemma sublist_map {A B} (f : A → B) (l1 l2 : list A) :
  sublist l1 l2 → sublist (List.map f l1) (List.map f l2).
Proof. induction 1; simpl; by constructor. Qed.

Lemma slice_0_sublist {A} (l : list A) (n : Z) : sublist (slice l 0 n) l.
Proof.
  destruct (slice_0_prefix l n) as (k & -> & _). apply sublist_take.
Qed.

Lemma _cleanup_NoDup s :
  NoDup (map_keys (errors s)) → NoDup (map_keys (errors (_cleanup s))).
Proof.
  intros Hnd. unfold _cleanup.
  destruct (map_size (errors s) <=? maxErrors s); [done|]. cbn [errors].
  unfold map_keys in *.
  refine (sublist_NoDup _ _ _ (sublist_map fst _ _ (slice_0_sublist _ _))).
  refine (sublist_NoDup _ _ _
            (sublist_map fst _ _
               (sublist_app _ _ _ _ (reflexivity _) (slice_0_sublist _ _)))).
  rewrite (filter_partition_perm (λ kv : string * ErrorEntry, resolved (snd kv))).
  by rewrite sort_desc_perm.
Qed.

Lemma In_map_get (m : entries) k v :
  NoDup (map_keys m) → In (k, v) m → map_get m k = Some v.
Proof.
  unfold map_keys. induction m as [|[k' v'] m IH]; simpl; intros Hnd Hin; [done|].
  apply NoDup_cons in Hnd as [Hnotin Hnd].
  destruct Hin as [[= -> ->]|Hin].
  - by rewrite String.eqb_refl.
  - destruct (String.eqb_spec k' k) as [->|_]; [|by apply IH].
    destruct Hnotin. apply list_elem_of_In.
    by apply (List.in_map fst _ (k, v)).
Qed.

Lemma unresolved_added s now errorId e ctx :
  unresolved_count (added s now errorId e ctx) ≤ unresolved_count s + 1.
Proof.
  unfold unresolved_count, added. cbn [errors]. unfold is_unresolved.
  induction (errors s) as [|[k' v'] m IH]; cbn [map_set].
  - cbn [List.filter snd errorEntry resolved negb List.length]. lia.
  - destruct (String.eqb k' errorId); cbn [List.filter snd].
    + cbn [errorEntry resolved negb]. destruct (resolved v'); cbn [negb List.length]; lia.
    + destruct (resolved v'); cbn [negb List.length]; lia.
Qed.

(** X23.  An error that is recorded can be read back.  While the store
    holds fewer than [maxErrors] unresolved entries, [recordError]
    returns the new id, and [getError] for that id returns the entry
    just built, unresolved, classified and stamped with the time of the
    call; the store is marked for saving and its keys stay distinct. *)
Theorem recordError_getError (s : t) (now : Z) (errorId : string)
    (e : JsError) (ctx : Context) :
  NoDup (map_keys (errors s)) →
  unresolved_count s < maxErrors s →
  let r := recordError s now errorId e ctx in
  fst r = errorId ∧
  getError (snd r) errorId = Some (errorEntry now errorId e ctx) ∧
  resolved (errorEntry now errorId e ctx) = false ∧
  timestamp (errorEntry now errorId e ctx) = now ∧
  type (errorEntry now errorId e ctx) = _determineErrorType e ∧
  retryable (errorEntry now errorId e ctx) = _isRetryable e ∧
  dirty (snd r) = true ∧
  NoDup (map_keys (errors (snd r))).
Proof.
  intros Hnd Hfit r. subst r. unfold recordError. cbn [fst snd].
  assert (Hnd1 : NoDup (map_keys (errors (added s now errorId e ctx))))
    by (cbn [added errors]; by apply map_set_NoDup).
  pose proof (_cleanup_NoDup _ Hnd1) as Hnd2.
  split; [done|]. split; [|split; [done|split; [done|split; [done|split; [done|split]]]]].
  - unfold getError. apply In_map_get; [done|].
    apply _cleanup_keeps_unresolved.
    + pose proof (unresolved_added s now errorId e ctx). cbn [added maxErrors]. lia.
    + cbn [added errors]. apply map_get_In. apply map_get_set_eq.
    + done.
  - unfold _cleanup. by destruct (_ <=? _).
  - done.
Qed.

Lemma recordError_getError_witness :
  getError (snd (recordError sample_store 3000 "err-c" sample_error sample_context))
    "err-c" = Some (errorEntry 3000 "err-c" sample_error sample_context) ∧
  type (errorEntry 3000 "err-c" sample_error sample_context) = NETWORK_ERROR.
Proof.
  destruct (recordError_getError sample_store 3000 "err-c" sample_error
              sample_context) as (_ & H1 & _).
  - apply (bool_decide_unpack _). vm_compute. exact I.
  - vm_compute. reflexivity.
  - split; [exact H1|reflexivity].
Defined.

(** *** Retries *)

Lemma existsb_code_is e l :
  existsb (code_is e) l = true ↔ ∃ c, e_code e = Some c ∧ In c l.
Proof.
  rewrite List.existsb_exists. unfold code_is. split.
  - intros (c & Hin & Hc). destruct (e_code e) as [x|]; [|done].
    apply String.eqb_eq in Hc as ->. by exists c.
  - intros (c & -> & Hin). exists c. split; [done|]. apply String.eqb_refl.
Qed.

(** X24.  Which errors are not retried.  [_isRetryable] is [false]
    exactly for an error that carries one of the six non-retryable
    codes, or that carries no network code and has a status from 400
    to 499 other than 429.  Every other error is retried, in particular
    every error with a network code, whatever its status, and every
    error that has neither a code nor a status. *)
Theorem _isRetryable_false_iff (e : JsError) :
  _isRetryable e = false ↔
  (∃ c, e_code e = Some c ∧ In c nonRetryableCodes) ∨
  ((¬ ∃ c, e_code e = Some c ∧ In c networkCodes) ∧
   ∃ st, e_status e = Some st ∧ 400 ≤ st < 500 ∧ st ≠ 429).
Proof.
  unfold _isRetryable. fold nonRetryableCodes. fold networkCodes.
  destruct (existsb (code_is e) nonRetryableCodes) eqn:Hnon.
  { apply existsb_code_is in Hnon. split; [by left|done]. }
  assert (Hnon' : ¬ ∃ c, e_code e = Some c ∧ In c nonRetryableCodes).
  { intros H. apply existsb_code_is in H. congruence. }
  destruct (existsb (code_is e) networkCodes) eqn:Hnet.
  { apply existsb_code_is in Hnet. split; [done|]. intros [H|[H _]]; done. }
  assert (Hnet' : ¬ ∃ c, e_code e = Some c ∧ In c networkCodes).
  { intros H. apply existsb_code_is in H. congruence. }
  unfold status_ge, status_lt. destruct (e_status e) as [st|]; simpl.
  - destruct (500 <=? st) eqn:H5; [apply Z.leb_le in H5|apply Z.leb_gt in H5].
    { split; [done|]. intros [H|(_ & st' & [= <-] & H4 & _)]; [done|lia]. }
    destruct (st =? 429) eqn:H429; [apply Z.eqb_eq in H429|apply Z.eqb_neq in H429].
    { split; [done|]. intros [H|(_ & st' & [= <-] & _ & H4)]; done. }
    destruct (400 <=? st) eqn:H4; [apply Z.leb_le in H4|apply Z.leb_gt in H4].
    + rewrite (proj2 (Z.ltb_lt st 500)) by lia. simpl. split; [|done].
      intros _. right. split; [done|]. exists st. split; [done|]. split; [lia|done].
    + simpl. split; [done|]. intros [H|(_ & st' & [= <-] & H' & _)]; [done|lia].
  - split; [done|]. intros [H|(_ & st' & H' & _)]; done.
Qed.

Lemma _isRetryable_false_iff_witness :
  _isRetryable (mkError None None (Some "no encontrado") (Some "NOT_FOUND")
                  (Some 503) "Error: no encontrado") = false ∧
  _isRetryable (mkError None None (Some "bad request") None (Some 400)
                  "Error: bad request") = false.
Proof.
  split.
  - apply _isRetryable_false_iff. left. exists "NOT_FOUND".
    split; [reflexivity|]. simpl. tauto.
  - apply _isRetryable_false_iff. right. split.
    + intros (c & Hc & _). discriminate.
    + exists 400. split; [reflexivity|]. split; [lia|discriminate].
Defined.

End ErrorStoreBehaviour.

(** ** Reconciliation engine: consistency checks, severities and history *)

Module ReconciliationBehaviour.
Import Js ListFacts Reconciliation ReconciliationProofs ErrorStoreProofs.

(** The fields compared by [_verificarConsistencia], in the order of
    the checks. *)
Lemma campos_num (f : Z → Z → Inconsistencia) (l b : option Z) :
  (∀ x y, campo (f x y) = campo (f 0 0)) →
  List.map campo
    (match l, b with
     | Some l, Some b =>
         if negb (l =? 0) && negb (b =? 0) && negb (l =? b) then [f l b] else []
     | _, _ => []
     end) =
  List.map campo
    (match b, l with
     | Some l, Some b =>
         if negb (l =? 0) && negb (b =? 0) && negb (l =? b) then [f l b] else []
     | _, _ => []
     end).
Proof.
  intros Hf. destruct l as [l|], b as [b|]; try done.
  rewrite (Z.eqb_sym b l).
  destruct (l =? 0), (b =? 0), (l =? b); simpl; try done.
  by rewrite (Hf l b), (Hf b l).
Qed.

Lemma campos_str (f : string → string → Inconsistencia) (l b : option string) :
  (∀ x y, campo (f x y) = campo (f "" "")) →
  List.map campo
    (match l, b with
     | Some l, Some b =>
         if negb (String.eqb l "") && negb (String.eqb b "") && negb (String.eqb l b)
         then [f l b] else []
     | _, _ => []
     end) =
  List.map campo
    (match b, l with
     | Some l, Some b =>
         if negb (String.eqb l "") && negb (String.eqb b "") && negb (String.eqb l b)
         then [f l b] else []
     | _, _ => []
     end).
Proof.
  intros Hf. destruct l as [l|], b as [b|]; try done.
  rewrite (String.eqb_sym b l).
  destruct (String.eqb l ""), (String.eqb b ""), (String.eqb l b); simpl; try done.
  by rewrite (Hf l b), (Hf b l).
Qed.

(** X25.  The consistency check compares like with like.  A comprobante
    is consistent with itself; comparing two comprobantes in either
    order flags the same fields; the fields flagged come in the order
    type, series, number, CAE, each at most once; and a field that one
    side lacks is never flagged. *)
Theorem _verificarConsistencia_symmetric (local biller : Comprobante) :
  _verificarConsistencia local local = [] ∧
  List.map campo (_verificarConsistencia local biller) =
    List.map campo (_verificarConsistencia biller local) ∧
  (_verificarConsistencia local biller = [] ↔
   _verificarConsistencia biller local = []) ∧
  sublist (List.map campo (_verificarConsistencia local biller))
    ["tipo_comprobante"; "serie"; "numero"; "cae_numero"] ∧
  (∀ i, In i (_verificarConsistencia local biller) →
     match i with
     | IncTipo l b =>
         tipo_comprobante local = Some l ∧ tipo_comprobante biller = Some b ∧ l ≠ b
     | IncSerie l b => serie local = Some l ∧ serie biller = Some b ∧ l ≠ b
     | IncNumero l b => numero local = Some l ∧ numero biller = Some b ∧ l ≠ b
     | IncCae l b => cae_numero local = Some l ∧ cae_numero biller = Some b ∧ l ≠ b
     end).
Proof.
  assert (Hsym : List.map campo (_verificarConsistencia local biller) =
                 List.map campo (_verificarConsistencia biller local)).
  { unfold _verificarConsistencia. rewrite !List.map_app.
    rewrite (campos_num IncTipo (tipo_comprobante local)) by done.
    rewrite (campos_str IncSerie (serie local)) by done.
    rewrite (campos_num IncNumero (numero local)) by done.
    rewrite (campos_str IncCae (cae_numero local)) by done. done. }
  split; [|split; [exact Hsym|split; [|split]]].
  - unfold _verificarConsistencia.
    destruct (tipo_comprobante local) as [t|], (serie local) as [se|],
      (numero local) as [n|], (cae_numero local) as [c|];
      rewrite ?Z.eqb_refl, ?String.eqb_refl, ?andb_false_r; done.
  - split; intros H; apply (f_equal (List.map campo)) in H;
      [rewrite Hsym in H; clear Hsym;
       destruct (_verificarConsistencia biller local)
      |rewrite <- Hsym in H; clear Hsym;
       destruct (_verificarConsistencia local biller)];
      first [done | simpl in H; discriminate].
  - unfold _verificarConsistencia. rewrite !List.map_app.
    apply (sublist_app _ ["tipo_comprobante"] _ ["serie"; "numero"; "cae_numero"]);
      [|apply (sublist_app _ ["serie"] _ ["numero"; "cae_numero"]);
        [|apply (sublist_app _ ["numero"] _ ["cae_numero"])]].
    + destruct (tipo_comprobante local), (tipo_comprobante biller);
        try (destruct (_ && _)); simpl; repeat constructor.
    + destruct (serie local), (serie biller);
        try (destruct (_ && _)); simpl; repeat constructor.
    + destruct (numero local), (numero biller);
        try (destruct (_ && _)); simpl; repeat constructor.
    + destruct (cae_numero local), (cae_numero biller);
        try (destruct (_ && _)); simpl; repeat constructor.
  - intros i. unfold _verificarConsistencia. rewrite !List.in_app_iff.
    intros [H|[H|[H|H]]].
    + destruct (tipo_comprobante local) as [l|], (tipo_comprobante biller) as [b|];
        try done.
      destruct (l =? b) eqn:E; [by rewrite andb_false_r in H|].
      apply Z.eqb_neq in E. destruct (_ && _); [|done].
      destruct H as [<-|[]]. done.
    + destruct (serie local) as [l|], (serie biller) as [b|]; try done.
      destruct (String.eqb l b) eqn:E; [by rewrite andb_false_r in H|].
      apply String.eqb_neq in E. destruct (_ && _); [|done].
      destruct H as [<-|[]]. done.
    + destruct (numero local) as [l|], (numero biller) as [b|]; try done.
      destruct (l =? b) eqn:E; [by rewrite andb_false_r in H|].
      apply Z.eqb_neq in E. destruct (_ && _); [|done].
      destruct H as [<-|[]]. done.
    + destruct (cae_numero local) as [l|], (cae_numero biller) as [b|]; try done.
      destruct (String.eqb l b) eqn:E; [by rewrite andb_false_r in H|].
      apply String.eqb_neq in E. destruct (_ && _); [|done].
      destruct H as [<-|[]]. done.
Qed.

Lemma _verificarConsistencia_symmetric_witness :
  _verificarConsistencia emitido emitido = [] ∧
  List.map campo (_verificarConsistencia emitido perdido) = ["numero"; "cae_numero"] ∧
  List.map campo (_verificarConsistencia perdido emitido) = ["numero"; "cae_numero"].
Proof.
  destruct (_verificarConsistencia_symmetric emitido perdido) as (_ & H2 & _).
  destruct (_verificarConsistencia_symmetric emitido emitido) as (H1 & _).
  split; [exact H1|]. split; [reflexivity|]. rewrite <- H2. reflexivity.
Defined.

Section Service.
Context {World : Type}.
Variable obtenerComprobante : string → World → Settled * World.
Variable buscarPorNumeroInterno : string → World → Settled * World.
Variable clock : World → Z.

Local Abbreviation procesar' := (procesar obtenerComprobante buscarPorNumeroInterno clock).
Local Abbreviation loop' := (loop obtenerComprobante buscarPorNumeroInterno clock).
Local Abbreviation outcomes' := (outcomes obtenerComprobante buscarPorNumeroInterno clock).
Local Abbreviation reconciliar' :=
  (_reconciliar obtenerComprobante buscarPorNumeroInterno clock).

Lemma procesar_kind local w :
  match fst (procesar' local w) with
  | ODiscrepancia d => filed_kind d
  | _ => True
  end.
Proof.
  unfold procesar. destruct local as [local|]; [|done].
  destruct (lookup_by_id _ local w) as [[err|found] w1]; [done|].
  destruct (lookup_by_numero _ local found w1) as [[biller|] w2].
  - destruct (_verificarConsistencia local biller) as [|i incs] eqn:Hinc; [done|].
    right. done.
  - left. done.
Qed.

Lemma outcomes_kind locales : ∀ w,
  Forall (λ o, match o with ODiscrepancia d => filed_kind d | _ => True end)
    (outcomes' locales w).
Proof.
  induction locales as [|l rest IH]; intros w; [constructor|].
  cbn [outcomes]. pose proof (procesar_kind l w) as Hk.
  destruct (procesar' l w) as [o w1]. constructor; [exact Hk|apply IH].
Qed.

Lemma fold_push_kind os : ∀ a,
  Forall (λ o, match o with ODiscrepancia d => filed_kind d | _ => True end) os →
  Forall filed_kind (a_discrepancias a) →
  Forall filed_kind (a_discrepancias (fold_left push os a)).
Proof.
  induction os as [|o os IH]; intros a Hos Ha; [done|].
  inversion Hos as [|? ? Ho Hos']; subst. simpl. apply IH; [done|].
  destruct o; cbn [push a_discrepancias]; try done.
  apply Forall_app. split; [done|]. by constructor.
Qed.

Lemma count_severity_kind (ds : list Discrepancia) :
  Forall filed_kind ds →
  count_severity HIGH ds = 0 ∧ count_severity LOW ds = 0 ∧
  count_severity CRITICAL ds + count_severity MEDIUM ds =
    Z.of_nat (List.length ds) ∧
  count_severity CRITICAL ds =
    Z.of_nat (List.length
      (List.filter (λ d, match d_biller d with None => true | _ => false end) ds)).
Proof.
  unfold count_severity. induction 1 as [|d ds Hd _ IH]; [done|].
  destruct IH as (IH1 & IH2 & IH3 & IH4). cbn [List.filter].
  destruct Hd as [(_ & Hs & Hb)|(_ & Hs & Hb & _)]; rewrite Hs; cbn [Severity_eqb].
  - rewrite Hb. cbn [List.length]. lia.
  - destruct (d_biller d); [|done]. cbn [List.length]. lia.
Qed.

(** X26.  The severity breakdown of a report.  Every discrepancy filed
    is either a record missing in Biller, with severity critical and
    no remote record attached, or a data mismatch, with severity
    medium, the remote record and at least one inconsistent field.
    Hence [porSeveridad.high] and [porSeveridad.low] are always zero,
    critical and medium add up to the number of discrepancies, and
    critical counts the records missing in Biller.  The report lists
    at most the first ten verified records, while the summary counts
    them all. *)
Theorem severity_breakdown (locales : list (option Comprobante))
    (reportId : string) (w : World) :
  let r := fst (reconciliar' locales reportId w) in
  Forall filed_kind (r_discrepancias r) ∧
  high (porSeveridad r) = 0 ∧ low (porSeveridad r) = 0 ∧
  critical (porSeveridad r) + medium (porSeveridad r) =
    discrepancias (resumen r) ∧
  critical (porSeveridad r) =
    Z.of_nat (List.length
      (List.filter (λ d, match d_biller d with None => true | _ => false end)
         (r_discrepancias r))) ∧
  Z.of_nat (List.length (r_verificados r)) = Z.min (verificados (resumen r)) 10.
Proof.
  intros r. subst r. unfold _reconciliar.
  pose proof (loop_outcomes obtenerComprobante buscarPorNumeroInterno clock
                locales (mkAcc [] [] []) w) as Hloop.
  destruct (loop' locales (mkAcc [] [] []) w) as [a w1]. cbn [fst] in *.
  cbn [r_discrepancias porSeveridad resumen high low critical medium
       discrepancias verificados r_verificados].
  assert (Hk : Forall filed_kind (a_discrepancias a)).
  { rewrite Hloop. apply fold_push_kind; [apply outcomes_kind|constructor]. }
  destruct (count_severity_kind _ Hk) as (H1 & H2 & H3 & H4).
  split; [done|]. split; [done|]. split; [done|]. split; [done|].
  split; [done|].
  rewrite slice_0_nonneg by lia. rewrite List.length_firstn. lia.
Qed.

Lemma percent_bounds (v t : Z) :
  0 ≤ v ≤ t → 0 < t < 2 ^ 32 →
  0 ≤ JsNumber.percent v t ≤ 100 ∧
  (v = t → JsNumber.percent v t = 100) ∧
  (v = 0 → JsNumber.percent v t = 0).
Proof.
  intros Hv Ht.
  destruct (JsNumberProofs.percent_vs_exact v t Hv Ht) as [[Hlo Hhi] Hex].
  unfold JsNumber.exact_percent in *.
  pose proof (Z.div_mod (200 * v + t) (2 * t) ltac:(lia)) as Hdm.
  pose proof (Z.mod_pos_bound (200 * v + t) (2 * t) ltac:(lia)) as Hmod.
  assert (Hq0 : 0 ≤ (200 * v + t) / (2 * t)) by (apply Z.div_pos; lia).
  assert (Hq100 : (200 * v + t) / (2 * t) < 101)
    by (apply Z.div_lt_upper_bound; lia).
  split; [split; [|lia]|split].
  - destruct (Z.eq_dec ((200 * v + t) mod (2 * t)) 0) as [H0|Hne].
    + assert (1 ≤ (200 * v + t) / (2 * t)) by nia. lia.
    + rewrite (Hex Hne). lia.
  - intros ->. rewrite Hex.
    + replace (200 * t + t) with (201 * t) by lia.
      rewrite Z.div_mul_cancel_r by lia. reflexivity.
    + replace (200 * t + t) with (201 * t) by lia.
      rewrite Z.mul_mod_distr_r by lia.
      change (201 mod 2) with 1. lia.
  - intros ->. apply JsNumberProofs.percent_0.
    assert (2 ^ 32 < 2 ^ 53) by done. lia.
Qed.

(** X30.  The success rate of a report is a percentage.  For every
    run over fewer than 2^32 records and any behaviour of the remote
    lookups, [tasaExito] lies between 0 and 100; it is 100 when the
    run filed no discrepancy and no error, and 0 when a non-empty
    run verified no record. *)
Theorem success_rate_bounds (locales : list (option Comprobante))
    (reportId : string) (w : World) :
  Z.of_nat (List.length locales) < 2 ^ 32 →
  let r := fst (reconciliar' locales reportId w) in
  0 ≤ tasaExito (resumen r) ≤ 100 ∧
  (discrepancias (resumen r) = 0 → errores (resumen r) = 0 →
   tasaExito (resumen r) = 100) ∧
  (locales ≠ [] → verificados (resumen r) = 0 → tasaExito (resumen r) = 0).
Proof.
  intros Hsmall r.
  destruct (reconciliar_fields obtenerComprobante buscarPorNumeroInterno clock
              locales reportId w) as (_ & _ & _ & Hv & Hd & He & Hrate & _).
  fold r in Hv, Hd, He, Hrate. rewrite Hrate, Hv, Hd, He. clear Hrate Hv Hd He.
  pose proof (loop_outcomes obtenerComprobante buscarPorNumeroInterno clock
                locales (mkAcc [] [] []) w) as Hloop.
  pose proof (fold_push_filed (outcomes' locales w) (mkAcc [] [] [])) as Hf.
  rewrite <- Hloop in Hf.
  rewrite (outcomes_length obtenerComprobante buscarPorNumeroInterno clock) in Hf.
  unfold filed in Hf. simpl in Hf.
  set (a := fst (loop' locales (mkAcc [] [] []) w)) in *.
  destruct (0 <? Z.of_nat (List.length locales)) eqn:Hpos.
  - apply Z.ltb_lt in Hpos.
    destruct (percent_bounds (Z.of_nat (List.length (a_verificados a)))
                (Z.of_nat (List.length locales))) as (H1 & H2 & H3); [lia|lia|].
    split; [exact H1|]. split.
    + intros Hd He. apply H2. lia.
    + intros _ Hv. by apply H3.
  - apply Z.ltb_ge in Hpos. split; [lia|]. split; [done|].
    intros Hne. destruct locales; [done|]. simpl in Hpos. lia.
Qed.
End Service.

Lemma severity_breakdown_witness :
  critical (porSeveridad (sample_run [Some emitido; Some perdido])) = 1 ∧
  high (porSeveridad (sample_run [Some emitido; Some perdido])) = 0 ∧
  Z.of_nat (List.length
    (r_verificados (sample_run (repeat (Some emitido) 12)))) = 10.
Proof.
  destruct (severity_breakdown sample_obtener sample_buscar sample_clock
              [Some emitido; Some perdido] "20231114-221320-ab12" tt)
    as (_ & H1 & _ & _ & H2 & _).
  destruct (severity_breakdown sample_obtener sample_buscar sample_clock
              (repeat (Some emitido) 12) "20231114-221320-ab12" tt)
    as (_ & _ & _ & _ & _ & H3).
  unfold sample_run.
  split; [rewrite H2; reflexivity|]. split; [exact H1|].
  rewrite H3. reflexivity.
Defined.

Lemma success_rate_bounds_witness :
  tasaExito (resumen (sample_run [Some emitido; Some emitido])) = 100 ∧
  tasaExito (resumen (sample_run [Some perdido])) = 0 ∧
  0 ≤ tasaExito (resumen (sample_run [Some emitido; Some perdido])) ≤ 100.
Proof.
  destruct (success_rate_bounds sample_obtener sample_buscar sample_clock
              [Some emitido; Some emitido] "20231114-221320-ab12" tt)
    as (_ & H1 & _); [reflexivity|].
  destruct (success_rate_bounds sample_obtener sample_buscar sample_clock
              [Some perdido] "20231114-221320-ab12" tt)
    as (_ & _ & H2); [reflexivity|].
  destruct (success_rate_bounds sample_obtener sample_buscar sample_clock
              [Some emitido; Some perdido] "20231114-221320-ab12" tt)
    as (H3 & _); [reflexivity|].
  unfold sample_run.
  split; [apply H1; reflexivity|]. split; [apply H2; [discriminate|reflexivity]|].
  exact H3.
Defined.

Section Reports.
Variable path_join : string → string → string.

Local Abbreviation item dir := (λ sv : Resultado * bool, historyItem path_join dir (fst sv)).

Lemma saved_snoc dir saves sv :
  saved path_join dir (saves ++ [sv]) =
    _guardarReporte path_join dir (saved path_join dir saves) (fst sv) (snd sv).
Proof. unfold saved. by rewrite fold_left_app. Qed.

(** X27.  The history holds the thirty most recent reports that were
    written, newest first: after any sequence of saves it is the list
    of the reports whose file was written, latest first, cut after
    thirty entries.  A report whose file could not be written leaves
    no trace in the history. *)
Theorem history_last_thirty (reportsDir : string) (saves : list (Resultado * bool)) :
  saved path_join reportsDir saves =
    firstn 30 (rev (List.map (item reportsDir) (List.filter snd saves))) ∧
  (List.length (saved path_join reportsDir saves) ≤ 30)%nat ∧
  (∀ resultado,
     saved path_join reportsDir (saves ++ [(resultado, false)]) =
       saved path_join reportsDir saves ∧
     List.head (saved path_join reportsDir (saves ++ [(resultado, true)])) =
       Some (historyItem path_join reportsDir resultado)).
Proof.
  assert (Hmain : ∀ saves,
    saved path_join reportsDir saves =
      firstn 30 (rev (List.map (item reportsDir) (List.filter snd saves)))).
  { clear saves. induction saves as [|sv saves IH] using rev_ind; [done|].
    rewrite saved_snoc, IH. rewrite List.filter_app, List.map_app, List.rev_app_distr.
    unfold _guardarReporte. destruct sv as [res [|]]; cbn [fst snd List.filter];
      [|by cbn [List.map rev app]].
    set (L := rev (List.map (item reportsDir) (List.filter snd saves))).
    cbn [List.map rev app]. cbn [List.length].
    rewrite List.length_firstn.
    destruct (30 <? Z.of_nat (S (Nat.min 30 (List.length L)))) eqn:Hlen.
    - apply Z.ltb_lt in Hlen. rewrite slice_0_nonneg by lia.
      change (Z.to_nat 30) with 30%nat. cbn [firstn]. f_equal.
      rewrite List.firstn_firstn. done.
    - apply Z.ltb_ge in Hlen. cbn [firstn]. f_equal.
      rewrite !List.firstn_all2 by lia. done. }
  split; [apply Hmain|]. split.
  - rewrite Hmain, List.length_firstn. lia.
  - intros resultado. split; [by rewrite saved_snoc|].
    rewrite Hmain. rewrite List.filter_app, List.map_app, List.rev_app_distr.
    done.
Qed.
End Reports.

End ReconciliationBehaviour.

(** ** Store of issued comprobantes *)

Module ComprobanteStoreProofs.
Import Js JsProofs ListFacts StringFacts ComprobanteStore.

Lemma mkKey_inj (a b : string) : mkKey a = mkKey b → a = b.
Proof. apply append_inj_l. Qed.

Section WithFields.
Context {C : Type}.
Implicit Types (s : ComprobanteStore.t C).

(** X28.  What [set] stores, [get] and [has] find.  After
    [set(orderId, comprobante)] the store holds, for that order, the
    returned entry: the given fields, stamped with the time of the
    call and with the order id; a former entry of the order is
    replaced, so the store grows by one entry only for a new order.
    The entries of all other orders are as before, and the store is
    marked for saving. *)
Theorem set_then_get s (now : Z) (shopifyOrderId : string) (comprobante : C) :
  let entry := fst (set s now shopifyOrderId comprobante) in
  let s' := snd (set s now shopifyOrderId comprobante) in
  entry = mkEntry comprobante now shopifyOrderId ∧
  get s' shopifyOrderId = Some entry ∧
  has s' shopifyOrderId = true ∧
  getByKey s' (mkKey shopifyOrderId) = Some entry ∧
  (∀ other, other ≠ shopifyOrderId →
     get s' other = get s other ∧ has s' other = has s other) ∧
  size s' = (if has s shopifyOrderId then size s else size s + 1) ∧
  dirty s' = true.
Proof.
  intros entry s'. subst entry s'. unfold set, get, has, getByKey, map_has, size.
  cbn [fst snd data dirty]. rewrite map_get_set_eq.
  split; [done|]. split; [done|]. split; [done|]. split; [done|].
  split; [|split; [|done]].
  - intros other Hne. rewrite map_get_set_ne; [done|].
    intros Heq. apply mkKey_inj in Heq. congruence.
  - unfold map_size.
    destruct (map_get (data s) (mkKey shopifyOrderId)) as [e|] eqn:Hget.
    + rewrite map_set_present_length; [done|]. by rewrite Hget.
    + rewrite map_set_absent by done. rewrite List.length_app. simpl. lia.
Qed.

(** X29.  [cleanup] drops the entries created before the cutoff and
    returns their number.  The entries that remain are those created
    at the cutoff or later, in their former order; the store shrinks
    by the number returned; and the store is marked for saving when
    something was removed, its mark being left alone otherwise.  The
    cutoff lies [maxAgeDays] days, 90 by default, before the time of
    the call. *)
Theorem cleanup_drops_old s (now : Z) (maxAgeDays : option Z) :
  let cutoff :=
    now - (match maxAgeDays with Some d => d | None => 90 end) * 86400000 in
  let removed := fst (cleanup s now maxAgeDays) in
  let s' := snd (cleanup s now maxAgeDays) in
  removed = size s - size s' ∧
  0 ≤ removed ∧
  (∀ k e, In (k, e) (data s') ↔ In (k, e) (data s) ∧ cutoff ≤ created_at e) ∧
  sublist (data s') (data s) ∧
  dirty s' = (if 0 <? removed then true else dirty s) ∧
  (removed = 0 → s' = s).
Proof.
  intros cutoff removed s'. subst removed s'. unfold cleanup, size, map_size.
  cbn [fst snd data dirty].
  replace (now - (match maxAgeDays with Some d => d | None => 90 end)
                 * 24 * 60 * 60 * 1000) with cutoff by (subst cutoff; lia).
  pose proof (filter_complement_length
    (λ kv : string * Entry C, created_at (snd kv) <? cutoff) (data s)) as Hlen.
  split; [lia|]. split; [lia|]. split; [|split; [|split; [done|]]].
  - intros k e. rewrite List.filter_In. cbn [snd].
    rewrite negb_true_iff, Z.ltb_ge. done.
  - apply sublist_List_filter.
  - intros Hzero.
    assert (Hall : List.filter
              (λ kv : string * Entry C, negb (created_at (snd kv) <? cutoff))
              (data s) = data s).
    { clear Hlen. induction (data s) as [|kv l IH]; [done|].
      cbn [List.filter List.length] in *.
      destruct (created_at (snd kv) <? cutoff); cbn [negb List.length] in *; [lia|].
      by rewrite IH. }
    rewrite Hall, Hzero. simpl. by destruct s.
Qed.
End WithFields.

Lemma set_then_get_witness :
  get (snd (set (mkStore [] false) 1000 "1001" "e-Ticket A 57")) "1001" =
    Some (mkEntry "e-Ticket A 57" 1000 "1001") ∧
  get (snd (set (mkStore [] false) 1000 "1001" "e-Ticket A 57")) "1002" = None.
Proof.
  destruct (set_then_get (mkStore [] false) 1000 "1001" "e-Ticket A 57")
    as (H1 & H2 & _ & _ & H3 & _).
  split; [by rewrite H2, H1|].
  destruct (H3 "1002") as [H4 _]; [discriminate|]. rewrite H4. reflexivity.
Defined.

Lemma cleanup_drops_old_witness :
  let s := snd (set (snd (set (mkStore [] false) 0 "1001" "e-Ticket A 57"))
                  8000000000 "1002" "e-Ticket A 58") in
  fst (cleanup s 8000000000 None) = 1 ∧
  dirty (snd (cleanup s 8000000000 None)) = true ∧
  snd (cleanup s 8000000000 (Some 365)) = s.
Proof.
  intros s.
  destruct (cleanup_drops_old s 8000000000 None) as (H1 & _ & _ & _ & H2 & _).
  destruct (cleanup_drops_old s 8000000000 (Some 365)) as (_ & _ & _ & _ & _ & H3).
  split; [rewrite H1; reflexivity|]. split; [rewrite H2; reflexivity|].
  apply H3. reflexivity.
Defined.

End ComprobanteStoreProofs.
